(** * A JSON-RPC engine and LSP session client, verified

    Shallow embedding of [src/editorlsp/jsonRpc.js] (class [JsonRpc]),
    of [WebSocketTransport.send] and the keepalive callback, and of
    the session functions [initialize], [initialized] and [shutdown] of
    [src/editorlsp/lspClient.js].  The later parts add the document
    and feature wrappers of the client and its diagnostics listeners,
    the whole class [WebSocketTransport] of [src/unnamed/part_001]
    with the browser's sockets and interval timers, and the
    conversions of [src/editorlsp/util.js].

    The JavaScript program is event driven and single threaded: a
    handler (an API call, a transport message, a timer, an abort event)
    runs to completion, then the pending microtasks run.  The embedding
    follows that shape: one record holds the session and the event
    loop, every function of the source is a state-passing computation
    that may raise, and [step] runs one event followed by the
    microtasks.

    Modelling notes.
    - The id counter is an integer ([Z]); JavaScript numbers agree with
      the integers below 2^53.  A JSON number is an integer, another
      finite double, or an infinity ([number]).
    - [JSON.parse] is not embedded: a transport frame is given as its
      parse result ([payload]).  A parsed object is the list of its own
      properties, each name once.  [JSON.parse (JSON.stringify m)], as
      a batch element goes through, is [reparse m]: [m] with [null] in
      the place of every number that is not finite.
    - The wire holds the payload objects handed to [JSON.stringify].
    - The text of a message is not computed: the [Error] built from a
      parsed value keeps that value, and [String] of it is modelled as
      far as it can raise ([ToString_raises]).
    - Promises, timers and abort signals are kept in tables, by handle;
      a promise is settled by the first call of a resolving function.
    - The socket's ready state is set by the environment ([Socket]):
      connecting, opening, closing and [disconnect] all are such events.
    - The [log] option and the subscriber callbacks are opaque: a call
      is recorded, the callback returns (a subscriber may raise), and
      it does not call back into the session. *)

From stdpp Require Import gmap strings list fin_maps sorting.
From Stdlib Require Import ZArith Lia.

Local Open Scope Z_scope.
Local Open Scope string_scope.

(** ** Values *)

(** A number, as [JSON.parse] returns them: a finite double, or an
    infinity for a literal beyond the range of the doubles (as
    [1e400]); never NaN.  A finite double is an integer or an odd
    multiple of a negative power of two: [Dyadic m e] is
    [(2 m + 1) / 2^e], which is never an integer and never 0.
    Negative zero is taken as 0: it is falsy, equal to 0 as a key of
    a [Map], and written ["0"], so no operation of the program tells
    them apart. *)
Inductive number : Type :=
| Int (n : Z)
| Dyadic (m : Z) (e : positive)
| Infinite (negative : bool).

Coercion Int : Z >-> number.

(** The values [JSON.parse] returns. *)
Unset Elimination Schemes.
Inductive json : Type :=
| JNull
| JBool (b : bool)
| JNum (x : number)
| JStr (s : string)
| JArr (xs : list json)
| JObj (fields : list (string * json)).
Set Elimination Schemes.

(** A JavaScript value as the session sees one: [None] is [undefined]. *)
Abbreviation jsval := (option json).

(** What the session throws or rejects with. *)
Inductive exn : Type :=
| JsError (message : string) (code data : jsval)  (* new Error(message), with err.code and err.data *)
| JsErrorOf (v : json) (code data : jsval)        (* new Error(v) for a parsed value: the message is String(v) *)
| DOMException (message name : string)
| TypeError.

Inductive res (A : Type) : Type :=
| Ok (a : A)
| Throw (e : exn).
Arguments Ok {A} a.
Arguments Throw {A} e.

(** A settled promise. *)
Inductive outcome : Type :=
| Resolved (v : jsval)
| Rejected (e : exn).

(** The two payload shapes the engine writes. *)
Inductive wire_msg : Type :=
| Request (id : Z) (method : string) (params : jsval)
| Notification (method : string) (params : jsval).

Inductive payload : Type :=
| Malformed (why : string)   (* JSON.parse throws *)
| Parsed (msg : json).

Inductive ready_state : Type := CONNECTING | OPEN | CLOSING | CLOSED.

Global Instance ready_state_eq_dec : EqDecision ready_state.
Proof. solve_decision. Defined.

Inductive level : Type := info | warn | error.

Inductive effect : Type :=
| Log (text : string) (lv : level)    (* this.log(text, level) *)
| ConsoleError                         (* console.error(e) *)
| Called (h : nat) (params : jsval).   (* a subscriber callback was invoked *)

Record handler : Type := { h_id : nat; h_raises : bool }.

Global Instance handler_eq_dec : EqDecision handler.
Proof. solve_decision. Defined.

(** The pending-table entry [{resolve, reject, timer, method}]; [resolve]
    and [reject] are the resolving functions of a promise, kept as that
    promise's handle. *)
Record entry : Type :=
  { resolve : nat; reject : nat; timer : nat; method : string }.

(** The closure given to [setTimeout] in [request]. *)
Record timeout_cb : Type :=
  { t_id : Z; t_reject : nat; t_method : string; t_delay : Z }.

(** The closure given to [signal.addEventListener('abort', ...)]. *)
Record abort_cb : Type :=
  { a_id : Z; a_timer : nat; a_reject : nat }.

Record abort_signal : Type :=
  { aborted : bool; listeners : list abort_cb }.

(** The rest of an async function of the client, waiting on a promise. *)
Inductive kont : Type := KInitialize | KShutdown.

(** ** Property access *)

Fixpoint assoc (k : string) (fs : list (string * json)) : jsval :=
  match fs with
  | [] => None
  | (k', v) :: fs' => if decide (k' = k) then Some v else assoc k fs'
  end.

(** [v.k] for a [v] that is neither [null] nor [undefined]; for the
    property names the session reads, only objects have them. *)
Definition get (v : json) (k : string) : jsval :=
  match v with
  | JObj fs => assoc k fs
  | _ => None
  end.

(** [v.k] in general: a [TypeError] on [null] and [undefined]. *)
Definition prop (v : jsval) (k : string) : res jsval :=
  match v with
  | None | Some JNull => Throw TypeError
  | Some w => Ok (get w k)
  end.

Definition truthy (v : jsval) : bool :=
  match v with
  | None | Some JNull => false
  | Some (JBool b) => b
  | Some (JNum (Int n)) => negb (Z.eqb n 0)
  | Some (JNum (Dyadic _ _)) | Some (JNum (Infinite _)) => true
  | Some (JStr s) => negb (String.eqb s "")
  | Some (JArr _) | Some (JObj _) => true
  end.

(** [a || b] *)
Definition or_else (a : jsval) (b : json) : json :=
  match a with
  | Some v => if truthy a then v else b
  | None => b
  end.

Definition typeof_number (v : jsval) : bool :=
  match v with Some (JNum _) => true | _ => false end.

Definition typeof_object (v : jsval) : bool :=
  match v with Some JNull | Some (JArr _) | Some (JObj _) => true | _ => false end.

(** [v != null] *)
Definition not_nullish (v : jsval) : bool :=
  match v with None | Some JNull => false | _ => true end.

(** Whether [String(v)], which [new Error(v)] applies to its message,
    raises.  On an object the conversion calls [toString], then
    [valueOf]: a parsed object that has a [toString] of its own hides
    the inherited one behind a value that is not callable, [valueOf]
    gives back the object, and a [TypeError] is raised; any other
    object is ["[object Object]"].  On an array it is [join], which
    converts every element but [null].  The other values have a
    string. *)
Fixpoint ToString_raises (v : json) : bool :=
  match v with
  | JArr xs => existsb ToString_raises xs
  | JObj fs => bool_decide (is_Some (assoc "toString" fs))
  | _ => false
  end.

(** [JSON.parse(JSON.stringify(m))] for a parsed value [m]:
    [JSON.stringify] writes [null] for a number that is not finite,
    and every other value as a text that parses back to it. *)
Fixpoint reparse (m : json) : json :=
  match m with
  | JNum (Infinite _) => JNull
  | JArr xs => JArr (map reparse xs)
  | JObj fs => JObj (map (fun kv => (fst kv, reparse (snd kv))) fs)
  | _ => m
  end.

(** How deep the arrays of a value are nested. *)
Fixpoint depth (m : json) : nat :=
  match m with
  | JArr xs => S (foldr (fun x => Nat.max (depth x)) 0%nat xs)
  | _ => 0
  end.

(** ** The session and its event loop *)

Record state : Type := mk_state
  { (* JsonRpc *)
    _id : Z;
    _pending : gmap Z entry;
    _handlers : gmap string (list handler);
    timeoutMs : Z;
    (* WebSocketTransport *)
    _ws : option ready_state;
    wire : list wire_msg;
    (* event loop *)
    promises : gmap nat outcome;
    next_promise : nat;
    timers : gmap nat timeout_cb;
    next_timer : nat;
    signals : gmap nat abort_signal;
    awaiting : gmap nat kont;
    microtasks : list (nat * kont * outcome);
    async_results : gmap nat outcome;
    effects : list effect;
    (* createLspClient *)
    serverSyncKind : json;
    serverCapabilities : json }.

Definition set_id (v : Z) (st : state) : state :=
  mk_state v (_pending st) (_handlers st) (timeoutMs st) (_ws st) (wire st)
    (promises st) (next_promise st) (timers st) (next_timer st) (signals st)
    (awaiting st) (microtasks st) (async_results st) (effects st)
    (serverSyncKind st) (serverCapabilities st).

Definition set_pending (v : gmap Z entry) (st : state) : state :=
  mk_state (_id st) v (_handlers st) (timeoutMs st) (_ws st) (wire st)
    (promises st) (next_promise st) (timers st) (next_timer st) (signals st)
    (awaiting st) (microtasks st) (async_results st) (effects st)
    (serverSyncKind st) (serverCapabilities st).

Definition set_handlers (v : gmap string (list handler)) (st : state) : state :=
  mk_state (_id st) (_pending st) v (timeoutMs st) (_ws st) (wire st)
    (promises st) (next_promise st) (timers st) (next_timer st) (signals st)
    (awaiting st) (microtasks st) (async_results st) (effects st)
    (serverSyncKind st) (serverCapabilities st).

Definition set_ws (v : option ready_state) (st : state) : state :=
  mk_state (_id st) (_pending st) (_handlers st) (timeoutMs st) v (wire st)
    (promises st) (next_promise st) (timers st) (next_timer st) (signals st)
    (awaiting st) (microtasks st) (async_results st) (effects st)
    (serverSyncKind st) (serverCapabilities st).

Definition set_wire (v : list wire_msg) (st : state) : state :=
  mk_state (_id st) (_pending st) (_handlers st) (timeoutMs st) (_ws st) v
    (promises st) (next_promise st) (timers st) (next_timer st) (signals st)
    (awaiting st) (microtasks st) (async_results st) (effects st)
    (serverSyncKind st) (serverCapabilities st).

Definition set_promises (v : gmap nat outcome) (st : state) : state :=
  mk_state (_id st) (_pending st) (_handlers st) (timeoutMs st) (_ws st) (wire st)
    v (next_promise st) (timers st) (next_timer st) (signals st)
    (awaiting st) (microtasks st) (async_results st) (effects st)
    (serverSyncKind st) (serverCapabilities st).

Definition set_next_promise (v : nat) (st : state) : state :=
  mk_state (_id st) (_pending st) (_handlers st) (timeoutMs st) (_ws st) (wire st)
    (promises st) v (timers st) (next_timer st) (signals st)
    (awaiting st) (microtasks st) (async_results st) (effects st)
    (serverSyncKind st) (serverCapabilities st).

Definition set_timers (v : gmap nat timeout_cb) (st : state) : state :=
  mk_state (_id st) (_pending st) (_handlers st) (timeoutMs st) (_ws st) (wire st)
    (promises st) (next_promise st) v (next_timer st) (signals st)
    (awaiting st) (microtasks st) (async_results st) (effects st)
    (serverSyncKind st) (serverCapabilities st).

Definition set_next_timer (v : nat) (st : state) : state :=
  mk_state (_id st) (_pending st) (_handlers st) (timeoutMs st) (_ws st) (wire st)
    (promises st) (next_promise st) (timers st) v (signals st)
    (awaiting st) (microtasks st) (async_results st) (effects st)
    (serverSyncKind st) (serverCapabilities st).

Definition set_signals (v : gmap nat abort_signal) (st : state) : state :=
  mk_state (_id st) (_pending st) (_handlers st) (timeoutMs st) (_ws st) (wire st)
    (promises st) (next_promise st) (timers st) (next_timer st) v
    (awaiting st) (microtasks st) (async_results st) (effects st)
    (serverSyncKind st) (serverCapabilities st).

Definition set_awaiting (v : gmap nat kont) (st : state) : state :=
  mk_state (_id st) (_pending st) (_handlers st) (timeoutMs st) (_ws st) (wire st)
    (promises st) (next_promise st) (timers st) (next_timer st) (signals st)
    v (microtasks st) (async_results st) (effects st)
    (serverSyncKind st) (serverCapabilities st).

Definition set_microtasks (v : list (nat * kont * outcome)) (st : state) : state :=
  mk_state (_id st) (_pending st) (_handlers st) (timeoutMs st) (_ws st) (wire st)
    (promises st) (next_promise st) (timers st) (next_timer st) (signals st)
    (awaiting st) v (async_results st) (effects st)
    (serverSyncKind st) (serverCapabilities st).

Definition set_async_results (v : gmap nat outcome) (st : state) : state :=
  mk_state (_id st) (_pending st) (_handlers st) (timeoutMs st) (_ws st) (wire st)
    (promises st) (next_promise st) (timers st) (next_timer st) (signals st)
    (awaiting st) (microtasks st) v (effects st)
    (serverSyncKind st) (serverCapabilities st).

Definition set_effects (v : list effect) (st : state) : state :=
  mk_state (_id st) (_pending st) (_handlers st) (timeoutMs st) (_ws st) (wire st)
    (promises st) (next_promise st) (timers st) (next_timer st) (signals st)
    (awaiting st) (microtasks st) (async_results st) v
    (serverSyncKind st) (serverCapabilities st).

Definition set_serverSyncKind (v : json) (st : state) : state :=
  mk_state (_id st) (_pending st) (_handlers st) (timeoutMs st) (_ws st) (wire st)
    (promises st) (next_promise st) (timers st) (next_timer st) (signals st)
    (awaiting st) (microtasks st) (async_results st) (effects st)
    v (serverCapabilities st).

Definition set_serverCapabilities (v : json) (st : state) : state :=
  mk_state (_id st) (_pending st) (_handlers st) (timeoutMs st) (_ws st) (wire st)
    (promises st) (next_promise st) (timers st) (next_timer st) (signals st)
    (awaiting st) (microtasks st) (async_results st) (effects st)
    (serverSyncKind st) v.

(** ** Computations that read and write the session and may raise *)

Definition Js (A : Type) : Type := state -> state * res A.

Definition ret {A} (a : A) : Js A := fun st => (st, Ok a).

Definition throw {A} (e : exn) : Js A := fun st => (st, Throw e).

Definition bind {A B} (m : Js A) (k : A -> Js B) : Js B :=
  fun st =>
    match m st with
    | (st', Ok a) => k a st'
    | (st', Throw e) => (st', Throw e)
    end.

Notation "x <- m ;; k" := (bind m (fun x => k))
  (at level 100, m at next level, k at level 200, right associativity).
Notation "m ;; k" := (bind m (fun _ => k))
  (at level 100, k at level 200, right associativity).

(** [try { m } catch {}] *)
Definition try_ {A} (m : Js A) : Js unit :=
  fun st => (fst (m st), Ok tt).

Definition modify (f : state -> state) : Js unit := fun st => (f st, Ok tt).

Definition lift {A} (r : res A) : Js A := fun st => (st, r).

Fixpoint for_each {A} (f : A -> Js unit) (xs : list A) : Js unit :=
  match xs with
  | [] => ret tt
  | x :: xs' => f x ;; for_each f xs'
  end.

(** ** WebSocketTransport *)

(** [send(data)]: throws unless the socket exists and is OPEN. *)
Definition send (data : wire_msg) : Js unit :=
  fun st =>
    match _ws st with
    | Some OPEN => (set_wire (wire st ++ [data]) st, Ok tt)
    | _ => (st, Throw (JsError "WebSocket not open" None None))
    end.

(** The keepalive interval callback: sends only on an OPEN socket. *)
Definition keepalive : Js unit :=
  try_ (fun st =>
    match _ws st with
    | Some OPEN => (set_wire (wire st ++ [Notification "$/keepalive" None]) st, Ok tt)
    | _ => (st, Ok tt)
    end).

(** ** Event loop primitives *)

Definition log (text : string) (lv : level) : Js unit :=
  modify (fun st => set_effects (effects st ++ [Log text lv]) st).

(** [new Promise(...)]: a fresh, unsettled promise. *)
Definition new_promise : Js nat :=
  fun st => (set_next_promise (S (next_promise st)) st, Ok (next_promise st)).

(** Calling a resolving function of promise [p]: the first call settles
    it and schedules the async function waiting on it; later calls do
    nothing. *)
Definition settle (p : nat) (o : outcome) : Js unit :=
  modify (fun st =>
    match promises st !! p with
    | Some _ => st
    | None =>
        let st1 := set_promises (<[p := o]> (promises st)) st in
        match awaiting st !! p with
        | Some k =>
            set_microtasks (microtasks st ++ [(p, k, o)])
              (set_awaiting (delete p (awaiting st)) st1)
        | None => st1
        end
    end).

Definition setTimeout (cb : timeout_cb) : Js nat :=
  fun st =>
    (set_next_timer (S (next_timer st))
       (set_timers (<[next_timer st := cb]> (timers st)) st),
     Ok (next_timer st)).

Definition clearTimeout (t : nat) : Js unit :=
  modify (fun st => set_timers (delete t (timers st)) st).

(** [signal.addEventListener('abort', cb, {once: true})] *)
Definition addEventListener (s : nat) (cb : abort_cb) : Js unit :=
  modify (fun st =>
    let sig := default {| aborted := false; listeners := [] |} (signals st !! s) in
    set_signals
      (<[s := {| aborted := aborted sig; listeners := listeners sig ++ [cb] |}]> (signals st))
      st).

(** ** JsonRpc *)

(** [new JsonRpc(transport, opts)]: [opts.timeoutMs ?? 10000], ids from 1. *)
Definition new_JsonRpc (opts_timeoutMs : option Z) : state :=
  {| _id := 1;
     _pending := ∅;
     _handlers := ∅;
     timeoutMs := default 10000 opts_timeoutMs;
     _ws := None;
     wire := [];
     promises := ∅;
     next_promise := 0;
     timers := ∅;
     next_timer := 0;
     signals := ∅;
     awaiting := ∅;
     microtasks := [];
     async_results := ∅;
     effects := [];
     serverSyncKind := JNum 1;   (* let serverSyncKind = 1 *)
     serverCapabilities := JObj [] |}.

(** [this._id++] *)
Definition post_incr_id : Js Z :=
  fun st => (set_id (_id st + 1) st, Ok (_id st)).

Definition pending_set (id : Z) (e : entry) : Js unit :=
  modify (fun st => set_pending (<[id := e]> (_pending st)) st).

(** [this._pending.get(k)]: the keys are the numbers [request] stored. *)
Definition pending_get (k : jsval) (st : state) : option entry :=
  match k with
  | Some (JNum (Int n)) => _pending st !! n
  | _ => None
  end.

(** [this._pending.delete(k)] *)
Definition pending_delete (k : jsval) : Js unit :=
  modify (fun st =>
    match k with
    | Some (JNum (Int n)) => set_pending (delete n (_pending st)) st
    | _ => st
    end).

Definition notify (method : string) (params : jsval) : Js unit :=
  send (Notification method params) ;;
  log ("→ (notify) " +:+ method) info.

(** The timer callback of [request]. *)
Definition on_timeout (cb : timeout_cb) : Js unit :=
  pending_delete (Some (JNum (t_id cb))) ;;
  settle (t_reject cb)
    (Rejected (JsError ("RPC timeout for " +:+ t_method cb) None None)).

(** The abort listener of [request]. *)
Definition on_abort (cb : abort_cb) : Js unit :=
  try_ (notify "$/cancelRequest" (Some (JObj [("id", JNum (a_id cb))]))) ;;
  clearTimeout (a_timer cb) ;;
  pending_delete (Some (JNum (a_id cb))) ;;
  settle (a_reject cb) (Rejected (DOMException "Operation canceled" "AbortError")).

Definition request (method : string) (params : jsval) (signal : option nat) : Js nat :=
  id <- post_incr_id ;;
  send (Request id method params) ;;
  log ("→ " +:+ method) info ;;
  p <- new_promise ;;
  delay <- (fun st => (st, Ok (timeoutMs st))) ;;
  timer <- setTimeout {| t_id := id; t_reject := p; t_method := method; t_delay := delay |} ;;
  pending_set id {| resolve := p; reject := p; timer := timer; method := method |} ;;
  match signal with
  | Some s => addEventListener s {| a_id := id; a_timer := timer; a_reject := p |}
  | None => ret tt
  end ;;
  ret p.

(** [on(method, handler)]: the handlers of a method are a set, kept in
    insertion order. *)
Definition on (method : string) (h : handler) : Js unit :=
  modify (fun st =>
    let hs := default [] (_handlers st !! method) in
    set_handlers
      (<[method := if decide (h ∈ hs) then hs else (hs ++ [h])%list]> (_handlers st)) st).

(** The function [on] returns. *)
Definition off (method : string) (h : handler) : Js unit :=
  modify (fun st =>
    set_handlers (alter (filter (fun h' => h' ≠ h)) method (_handlers st)) st).

Definition call_handler (params : jsval) (h : handler) : Js unit :=
  modify (fun st =>
    set_effects
      (effects st ++ Called (h_id h) params :: (if h_raises h then [ConsoleError] else []))
      st).

Definition _emit (method : jsval) (params : jsval) : Js unit :=
  fun st =>
    let hs := match method with
              | Some (JStr m) => default [] (_handlers st !! m)
              | _ => []
              end in
    for_each (call_handler params) hs st.

(** [Object.prototype.hasOwnProperty.call(msg, k)] *)
Definition hasOwnProperty (msg : json) (k : string) : Js bool :=
  match msg with
  | JNull => throw TypeError
  | JObj fs => ret (bool_decide (is_Some (assoc k fs)))
  | _ => ret false
  end.

(** [new Error(v)] with [code] and [data] assigned to it. *)
Definition new_Error (v : json) (code data : jsval) : res exn :=
  if ToString_raises v then Throw TypeError else Ok (JsErrorOf v code data).

(** The error [_handleMessage] rejects with, from [msg.error]:
    [new Error(msg.error.message || 'RPC Error')], then [err.code]
    and [err.data]. *)
Definition rpc_error (err : json) : res exn :=
  new_Error (or_else (get err "message") (JStr "RPC Error")) (get err "code") (get err "data").

(** The response branch of [_handleMessage] once the entry is found. *)
Definition respond (e : entry) (msg : json) : Js unit :=
  clearTimeout (timer e) ;;
  pending_delete (get msg "id") ;;
  match get msg "error" with
  | Some err =>
      if truthy (Some err)
      then err' <- lift (rpc_error err) ;; settle (reject e) (Rejected err')
      else settle (resolve e) (Resolved (get msg "result"))
  | None => settle (resolve e) (Resolved (get msg "result"))
  end.

(** [_handleMessage] after the parse, for one message that is not an array. *)
Definition handle_one (msg : json) : Js unit :=
  has_id <- hasOwnProperty msg "id" ;;
  if has_id then
    fun st =>
      match pending_get (get msg "id") st with
      | None => ret tt st
      | Some e => respond e msg st
      end
  else if truthy (get msg "method") then _emit (get msg "method") (get msg "params")
  else ret tt.

(** [_handleMessage] on a parsed value.  The source handles a batch by
    calling itself on [JSON.stringify(m)] for each element [m], which
    that call parses again.  [n] bounds the nesting of batches. *)
Fixpoint dispatch (n : nat) (msg : json) : Js unit :=
  match msg with
  | JArr ms =>
      match n with
      | S n' => for_each (fun m => dispatch n' (reparse m)) ms
      | O => ret tt
      end
  | _ => handle_one msg
  end.

Definition _handleMessage (raw : payload) : Js unit :=
  match raw with
  | Malformed why => log ("RPC parse error: " +:+ why) error
  | Parsed msg => dispatch (depth msg) msg
  end.

(** ** createLspClient *)

Definition settle_async (p : nat) (o : outcome) : Js unit :=
  modify (fun st =>
    match async_results st !! p with
    | Some _ => st
    | None => set_async_results (<[p := o]> (async_results st)) st
    end).

(** [await p] inside an async function whose remaining body is [k]. *)
Definition await (p : nat) (k : kont) : Js unit :=
  modify (fun st => set_awaiting (<[p := k]> (awaiting st)) st).

Definition assign_kind (v : jsval) : Js unit :=
  match v with
  | Some k => modify (set_serverSyncKind k)
  | None => ret tt
  end.

(** [initialize] from the point where [await rpc.request('initialize', params)]
    completes with [o]. *)
Definition initialize_resume (o : outcome) : Js jsval :=
  match o with
  | Rejected e => throw e
  | Resolved res =>
      caps <- lift (prop res "capabilities") ;;
      modify (set_serverCapabilities (or_else caps (JObj []))) ;;
      sync <- (fun st => (st, Ok (get (serverCapabilities st) "textDocumentSync"))) ;;
      (if typeof_number sync then assign_kind sync
       else if typeof_object sync then
         change <- lift (prop sync "change") ;;
         if not_nullish change then assign_kind change else ret tt
       else ret tt) ;;
      ret res
  end.

(** [shutdown] from the point where [await rpc.request('shutdown')]
    completes with [o]: the [finally] block, then the completion. *)
Definition shutdown_resume (o : outcome) : Js jsval :=
  notify "exit" None ;;
  match o with
  | Resolved v => ret v
  | Rejected e => throw e
  end.

Definition completion (st_r : state * res jsval) : state * outcome :=
  match st_r with
  | (st, Ok v) => (st, Resolved v)
  | (st, Throw e) => (st, Rejected e)
  end.

Definition resume (k : kont) : outcome -> Js jsval :=
  match k with
  | KInitialize => initialize_resume
  | KShutdown => shutdown_resume
  end.

(** One microtask: the async function waiting on [p] runs to its end
    and settles the promise it returned. *)
Definition run_kont (job : nat * kont * outcome) : Js unit :=
  fun st =>
    let '(p, k, o) := job in
    let '(st', o') := completion (resume k o st) in
    settle_async p o' st'.

Inductive retval : Type :=
| RUnit
| RPromise (p : nat)          (* the promise [request] returns *)
| RAsync (p : nat)            (* the promise of an async function waiting on [p] *)
| RSettled (o : outcome).     (* the promise of an async function that already ended *)

Definition initialize (params : jsval) : Js retval :=
  fun st =>
    match request "initialize" params None st with
    | (st1, Ok p) => (fst (await p KInitialize st1), Ok (RAsync p))
    | (st1, Throw e) => (st1, Ok (RSettled (Rejected e)))
    end.

Definition initialized : Js retval :=
  fun st =>
    match notify "initialized" (Some (JObj [])) st with
    | (st1, Ok _) => (st1, Ok (RSettled (Resolved None)))
    | (st1, Throw e) => (st1, Ok (RSettled (Rejected e)))
    end.

Definition shutdown : Js retval :=
  fun st =>
    match request "shutdown" None None st with
    | (st1, Ok p) => (fst (await p KShutdown st1), Ok (RAsync p))
    | (st1, Throw e) =>
        let '(st2, o) := completion (shutdown_resume (Rejected e) st1) in
        (st2, Ok (RSettled o))
    end.

(** The state [createLspClient] starts from: the engine with the three
    subscriptions the client registers.  The three callbacks are kept
    as opaque subscribers, told apart by [h_id]; what they do when
    called is not part of this state: [window/showMessage] and
    [client/registerCapability] call [log], whose calls from a
    callback are not recorded, and [textDocument/publishDiagnostics]
    calls the diagnostics listeners, modelled apart in section
    [Diagnostics].  A call of one of them is recorded as a call that
    returns.  In the code the first can raise (the template literal,
    on a [message] that cannot be made a string) and the second
    raises when a listener does; [_emit] catches either and hands it
    to [console.error], so [_handleMessage] returns all the same. *)
Definition createLspClient : state :=
  fst ((on "window/showMessage" {| h_id := 0; h_raises := false |} ;;
        on "textDocument/publishDiagnostics" {| h_id := 1; h_raises := false |} ;;
        on "client/registerCapability" {| h_id := 2; h_raises := false |})
       (new_JsonRpc None)).

(** ** Events *)

Inductive event : Type :=
| CallRequest (method : string) (params : jsval) (signal : option nat)
| CallNotify (method : string) (params : jsval)
| CallOn (method : string) (h : handler)
| CallOff (method : string) (h : handler)
| CallInitialize (params : jsval)
| CallInitialized
| CallShutdown
| Message (raw : payload)            (* a frame arrives on the socket *)
| TimerFired (t : nat)               (* the delay of timer [t] has elapsed *)
| Abort (s : nat)                    (* the controller of signal [s] aborts *)
| Socket (r : option ready_state)    (* the socket is replaced or changes state *)
| Keepalive.

Definition unit_ (m : Js unit) : Js retval := m ;; ret RUnit.

Definition fire_timer (t : nat) : Js unit :=
  fun st =>
    match timers st !! t with
    | Some cb => on_timeout cb (set_timers (delete t (timers st)) st)
    | None => (st, Ok tt)
    end.

(** The abort event is dispatched once; the listeners were registered
    with [once: true]. *)
Definition fire_abort (s : nat) : Js unit :=
  fun st =>
    let sig := default {| aborted := false; listeners := [] |} (signals st !! s) in
    if aborted sig then (st, Ok tt)
    else
      for_each on_abort (listeners sig)
        (set_signals (<[s := {| aborted := true; listeners := [] |}]> (signals st)) st).

Definition handle (ev : event) : Js retval :=
  match ev with
  | CallRequest m ps sg => p <- request m ps sg ;; ret (RPromise p)
  | CallNotify m ps => unit_ (notify m ps)
  | CallOn m h => unit_ (on m h)
  | CallOff m h => unit_ (off m h)
  | CallInitialize ps => initialize ps
  | CallInitialized => initialized
  | CallShutdown => shutdown
  | Message raw => unit_ (_handleMessage raw)
  | TimerFired t => unit_ (fire_timer t)
  | Abort s => unit_ (fire_abort s)
  | Socket r => unit_ (modify (set_ws r))
  | Keepalive => unit_ keepalive
  end.

Definition run_microtasks (st : state) : state :=
  fst (for_each run_kont (microtasks st) (set_microtasks [] st)).

(** One turn of the event loop. *)
Definition step (ev : event) (st : state) : state * res retval :=
  let '(st1, r) := handle ev st in (run_microtasks st1, r).

Fixpoint run (tr : list event) (st : state) : state :=
  match tr with
  | [] => st
  | ev :: tr' => run tr' (fst (step ev st))
  end.

Definition reachable (st : state) : Prop :=
  exists tm tr, st = run tr (new_JsonRpc tm).

(** ** Reasoning about computations *)

Lemma json_ind (P : json -> Prop) :
  P JNull -> (forall b, P (JBool b)) -> (forall n, P (JNum n)) ->
  (forall s, P (JStr s)) ->
  (forall xs, Forall P xs -> P (JArr xs)) ->
  (forall fs, P (JObj fs)) ->
  forall j, P j.
Proof.
  intros HNull HBool HNum HStr HArr HObj.
  fix IH 1. intros j. destruct j as [ | b | n | s | xs | fs].
  - exact HNull.
  - apply HBool.
  - apply HNum.
  - apply HStr.
  - apply HArr.
    revert xs. fix all 1. intros [ | x l'].
    + constructor.
    + constructor; [apply IH | apply all].
  - apply HObj.
Qed.

Lemma for_each_ext {A} (f g : A -> Js unit) (xs : list A) :
  (forall x, x ∈ xs -> f x = g x) -> for_each f xs = for_each g xs.
Proof.
  induction xs as [ | x xs IH]; intros H; [reflexivity | ].
  simpl. rewrite (H x) by left. rewrite IH; [reflexivity | ].
  intros y Hy. apply H. by right.
Qed.

Lemma assoc_reparse (k : string) (fs : list (string * json)) :
  assoc k (map (fun kv => (fst kv, reparse (snd kv))) fs) = reparse <$> assoc k fs.
Proof.
  induction fs as [ | [k' v] fs IH]; [reflexivity | ].
  simpl. destruct (decide (k' = k)); [reflexivity | exact IH].
Qed.

Lemma get_reparse (msg : json) (k : string) :
  get (reparse msg) k = reparse <$> get msg k.
Proof.
  destruct msg as [ | b | [n | m e | neg] | s | xs | fs]; try reflexivity.
  apply assoc_reparse.
Qed.

Lemma depth_reparse (m : json) : depth (reparse m) = depth m.
Proof.
  induction m as [ | b | x | s | xs IH | fs] using json_ind; try reflexivity.
  - destruct x; reflexivity.
  - simpl. f_equal. induction IH as [ | y ys Hy _ IHys]; [reflexivity | ].
    simpl. by rewrite Hy, IHys.
Qed.

Lemma depth_elem (m : json) (ms : list json) : m ∈ ms -> (depth m < depth (JArr ms))%nat.
Proof.
  intros Hin. simpl. induction Hin as [m ms | m m' ms _ IH]; simpl; lia.
Qed.

(** Past the depth of the value the bound plays no part. *)
Lemma dispatch_fuel (n n' : nat) (msg : json) :
  (depth msg <= n)%nat -> (depth msg <= n')%nat -> dispatch n msg = dispatch n' msg.
Proof.
  revert n' msg. induction n as [ | n IH]; intros n' msg Hn Hn'.
  - destruct msg; try (destruct n'; reflexivity). simpl in Hn. lia.
  - destruct msg as [ | b | x | s | xs | fs]; try (destruct n'; reflexivity).
    destruct n' as [ | n']; [simpl in Hn'; lia | ].
    simpl. apply for_each_ext. intros m Hm.
    pose proof (depth_elem m xs Hm) as Hd. simpl in Hd, Hn, Hn'.
    apply IH; rewrite depth_reparse; lia.
Qed.

(** Line 79 of the source: a batch is handled element by element, each
    through [JSON.stringify] and the parse of the call on it. *)
Lemma handleMessage_batch (ms : list json) :
  _handleMessage (Parsed (JArr ms)) =
  for_each (fun m => _handleMessage (Parsed (reparse m))) ms.
Proof.
  unfold _handleMessage.
  change (dispatch (depth (JArr ms)) (JArr ms))
    with (for_each (fun m => dispatch (foldr (fun x => Nat.max (depth x)) 0%nat ms) (reparse m)) ms).
  apply for_each_ext. intros m Hm.
  pose proof (depth_elem m ms Hm) as Hd. simpl in Hd.
  apply dispatch_fuel; rewrite ?depth_reparse; lia.
Qed.

(** A relation between the state before and after, kept by every run
    of a computation. *)
Definition keeps (R : relation state) {A} (m : Js A) : Prop :=
  forall st, R st (fst (m st)).

Section Keeps.
Context (R : relation state) `{!PreOrder R}.

Lemma keeps_ret {A} (a : A) : keeps R (ret a).
Proof. intros st. reflexivity. Qed.

Lemma keeps_throw {A} (e : exn) : keeps R (@throw A e).
Proof. intros st. reflexivity. Qed.

Lemma keeps_lift {A} (r : res A) : keeps R (lift r).
Proof. intros st. reflexivity. Qed.

Lemma keeps_bind {A B} (m : Js A) (k : A -> Js B) :
  keeps R m -> (forall a, keeps R (k a)) -> keeps R (bind m k).
Proof.
  intros Hm Hk st. unfold bind. specialize (Hm st).
  destruct (m st) as [st' [a | e]]; simpl in *; [ | assumption].
  etrans; [exact Hm | apply Hk].
Qed.

Lemma keeps_try {A} (m : Js A) : keeps R m -> keeps R (try_ m).
Proof. intros Hm st. apply Hm. Qed.

Lemma keeps_for_each {A} (f : A -> Js unit) (xs : list A) :
  (forall x, keeps R (f x)) -> keeps R (for_each f xs).
Proof.
  intros Hf. induction xs as [ | x xs IH]; simpl.
  - apply keeps_ret.
  - apply keeps_bind; auto.
Qed.

Lemma keeps_dispatch :
  (forall msg, keeps R (handle_one msg)) -> forall n msg, keeps R (dispatch n msg).
Proof.
  intros H n. induction n as [ | n IH]; intros msg;
    destruct msg as [ | b | x | s | xs | fs]; try apply H.
  - apply keeps_ret.
  - simpl. apply keeps_for_each. intros m. apply IH.
Qed.

Lemma keeps_handleMessage :
  (forall t lv, keeps R (log t lv)) ->
  (forall msg, keeps R (handle_one msg)) -> forall raw, keeps R (_handleMessage raw).
Proof.
  intros Hlog H [why | msg]; simpl; [apply Hlog | apply keeps_dispatch, H].
Qed.

Lemma keeps_respond e msg :
  (forall t, keeps R (clearTimeout t)) -> (forall k, keeps R (pending_delete k)) ->
  (forall p o, keeps R (settle p o)) -> keeps R (respond e msg).
Proof.
  intros Hclear Hpdel Hsettle. unfold respond.
  apply keeps_bind; [apply Hclear | intros _].
  apply keeps_bind; [apply Hpdel | intros _].
  destruct (get msg "error") as [err | ]; [ | apply Hsettle].
  destruct (truthy (Some err)); [ | apply Hsettle].
  apply keeps_bind; [apply keeps_lift | intros err'; apply Hsettle].
Qed.
End Keeps.

(** Agreement on one component of the state. *)
Definition same_on {A} (f : state -> A) : relation state :=
  fun st st' => f st' = f st.

Global Instance same_on_preorder {A} (f : state -> A) : PreOrder (same_on f).
Proof.
  split; [intros st; reflexivity | ].
  intros st1 st2 st3 H12 H23. unfold same_on in *. congruence.
Qed.

(** *** What the handlers other than [request] leave alone *)

Record quiet (st st' : state) : Prop :=
  { q_id : _id st' = _id st;
    q_timeoutMs : timeoutMs st' = timeoutMs st;
    q_ws : _ws st' = _ws st;
    q_next_promise : next_promise st' = next_promise st;
    q_next_timer : next_timer st' = next_timer st;
    q_async_results : async_results st' = async_results st;
    q_serverSyncKind : serverSyncKind st' = serverSyncKind st;
    q_serverCapabilities : serverCapabilities st' = serverCapabilities st }.

Global Instance quiet_preorder : PreOrder quiet.
Proof.
  split.
  - intros st. constructor; reflexivity.
  - intros st1 st2 st3 [] []. constructor; congruence.
Qed.

Ltac prim_quiet :=
  intros st; simpl; repeat case_match; simpl; constructor; reflexivity.

Lemma send_quiet data : keeps quiet (send data).
Proof. unfold send. prim_quiet. Qed.

Lemma log_quiet t lv : keeps quiet (log t lv).
Proof. unfold log, modify. prim_quiet. Qed.

Lemma settle_quiet p o : keeps quiet (settle p o).
Proof. unfold settle, modify. prim_quiet. Qed.

Lemma clearTimeout_quiet t : keeps quiet (clearTimeout t).
Proof. unfold clearTimeout, modify. prim_quiet. Qed.

Lemma pending_delete_quiet k : keeps quiet (pending_delete k).
Proof. unfold pending_delete, modify. prim_quiet. Qed.

Lemma notify_quiet m ps : keeps quiet (notify m ps).
Proof.
  unfold notify. apply keeps_bind; [apply _ | apply send_quiet | intros; apply log_quiet].
Qed.

Lemma on_timeout_quiet cb : keeps quiet (on_timeout cb).
Proof.
  unfold on_timeout.
  apply keeps_bind; [apply _ | apply pending_delete_quiet | intros; apply settle_quiet].
Qed.

Lemma on_abort_quiet cb : keeps quiet (on_abort cb).
Proof.
  unfold on_abort.
  apply keeps_bind; [apply _ | apply keeps_try, notify_quiet | intros _].
  apply keeps_bind; [apply _ | apply clearTimeout_quiet | intros _].
  apply keeps_bind; [apply _ | apply pending_delete_quiet | intros _].
  apply settle_quiet.
Qed.

Lemma call_handler_quiet ps h : keeps quiet (call_handler ps h).
Proof. unfold call_handler, modify. prim_quiet. Qed.

Lemma emit_quiet m ps : keeps quiet (_emit m ps).
Proof.
  intros st. unfold _emit.
  apply (keeps_for_each quiet); intros; apply call_handler_quiet.
Qed.

Lemma hasOwnProperty_state msg k st : fst (hasOwnProperty msg k st) = st.
Proof. destruct msg; reflexivity. Qed.

Lemma respond_quiet e msg : keeps quiet (respond e msg).
Proof.
  apply keeps_respond;
    [apply _ | apply clearTimeout_quiet | apply pending_delete_quiet | apply settle_quiet].
Qed.

Lemma handle_one_quiet msg : keeps quiet (handle_one msg).
Proof.
  intros st. unfold handle_one, bind.
  pose proof (hasOwnProperty_state msg "id" st) as Hst.
  destruct (hasOwnProperty msg "id" st) as [st0 [[] | e]]; simpl in Hst; subst st0;
    [ | | reflexivity].
  - destruct (pending_get (get msg "id") st) as [e | ]; [ | reflexivity].
    apply respond_quiet.
  - destruct (truthy (get msg "method")); [apply emit_quiet | reflexivity].
Qed.

Lemma handleMessage_quiet raw : keeps quiet (_handleMessage raw).
Proof.
  apply keeps_handleMessage; [apply _ | apply log_quiet | apply handle_one_quiet].
Qed.

Lemma fire_timer_quiet t : keeps quiet (fire_timer t).
Proof.
  intros st. unfold fire_timer. destruct (timers st !! t) as [cb | ]; [ | reflexivity].
  etrans; [ | apply on_timeout_quiet]. constructor; reflexivity.
Qed.

Lemma fire_abort_quiet s : keeps quiet (fire_abort s).
Proof.
  intros st. unfold fire_abort.
  destruct (aborted _); [reflexivity | ].
  etrans; [ | apply (keeps_for_each quiet); intros; apply on_abort_quiet].
  constructor; reflexivity.
Qed.

Lemma keepalive_state st :
  fst (keepalive st) = st \/
  (_ws st = Some OPEN /\
   fst (keepalive st) = set_wire (wire st ++ [Notification "$/keepalive" None]) st).
Proof.
  unfold keepalive, try_. simpl.
  destruct (_ws st) as [[] | ]; simpl; auto.
Qed.

Lemma keepalive_quiet : keeps quiet keepalive.
Proof.
  intros st. destruct (keepalive_state st) as [-> | [_ ->]]; constructor; reflexivity.
Qed.

(** *** What the microtasks leave alone *)

Record drain_frame (st st' : state) : Prop :=
  { d_id : _id st' = _id st;
    d_pending : _pending st' = _pending st;
    d_handlers : _handlers st' = _handlers st;
    d_timeoutMs : timeoutMs st' = timeoutMs st;
    d_ws : _ws st' = _ws st;
    d_promises : promises st' = promises st;
    d_next_promise : next_promise st' = next_promise st;
    d_timers : timers st' = timers st;
    d_next_timer : next_timer st' = next_timer st;
    d_signals : signals st' = signals st;
    d_awaiting : awaiting st' = awaiting st;
    d_microtasks : microtasks st' = microtasks st }.

Global Instance drain_frame_preorder : PreOrder drain_frame.
Proof.
  split.
  - intros st. constructor; reflexivity.
  - intros st1 st2 st3 [] []. constructor; congruence.
Qed.

Ltac prim_frame :=
  intros st; simpl; repeat case_match; simpl; constructor; reflexivity.

Lemma notify_drain_frame m ps : keeps drain_frame (notify m ps).
Proof.
  unfold notify. apply keeps_bind; [apply _ | | intros _].
  - unfold send. prim_frame.
  - unfold log, modify. prim_frame.
Qed.

Lemma assign_kind_drain_frame v : keeps drain_frame (assign_kind v).
Proof. unfold assign_kind, modify, ret. prim_frame. Qed.

Lemma resume_drain_frame k o : keeps drain_frame (resume k o).
Proof.
  destruct k; simpl.
  - unfold initialize_resume. destruct o as [v | e]; [ | apply keeps_throw; apply _].
    apply keeps_bind; [apply _ | apply keeps_lift; apply _ | intros caps].
    apply keeps_bind; [apply _ | unfold modify; prim_frame | intros _].
    apply keeps_bind; [apply _ | intros st; reflexivity | intros sync].
    apply keeps_bind; [apply _ | | intros _; apply keeps_ret; apply _].
    destruct (typeof_number sync); [apply assign_kind_drain_frame | ].
    destruct (typeof_object sync); [ | apply keeps_ret; apply _].
    apply keeps_bind; [apply _ | apply keeps_lift; apply _ | intros change].
    destruct (not_nullish change); [apply assign_kind_drain_frame | apply keeps_ret; apply _].
  - unfold shutdown_resume.
    apply keeps_bind; [apply _ | apply notify_drain_frame | intros _].
    destruct o; [apply keeps_ret | apply keeps_throw]; apply _.
Qed.

Lemma run_kont_drain_frame job : keeps drain_frame (run_kont job).
Proof.
  intros st. destruct job as [[p k] o]. unfold run_kont.
  pose proof (resume_drain_frame k o st) as H.
  destruct (resume k o st) as [st' [v | e]]; simpl in *;
    (etrans; [exact H | ]); unfold settle_async, modify; simpl;
    case_match; constructor; reflexivity.
Qed.

Lemma run_microtasks_frame st :
  _id (run_microtasks st) = _id st /\
  _pending (run_microtasks st) = _pending st /\
  _handlers (run_microtasks st) = _handlers st /\
  timeoutMs (run_microtasks st) = timeoutMs st /\
  _ws (run_microtasks st) = _ws st /\
  promises (run_microtasks st) = promises st /\
  next_promise (run_microtasks st) = next_promise st /\
  timers (run_microtasks st) = timers st /\
  next_timer (run_microtasks st) = next_timer st /\
  signals (run_microtasks st) = signals st /\
  awaiting (run_microtasks st) = awaiting st /\
  microtasks (run_microtasks st) = [].
Proof.
  unfold run_microtasks.
  destruct (keeps_for_each drain_frame run_kont (microtasks st)
              run_kont_drain_frame (set_microtasks [] st)).
  simpl in *. repeat split; assumption.
Qed.

(** *** What every handler respects *)

Record evolves (st st' : state) : Prop :=
  { ev_id : _id st <= _id st';
    ev_timeoutMs : timeoutMs st' = timeoutMs st;
    ev_wire : exists w, wire st' = (wire st ++ w)%list /\
                forall i m ps, Request i m ps ∈ w -> _id st <= i < _id st';
    ev_promises : promises st ⊆ promises st';
    ev_pending : forall i, i < _id st -> _pending st !! i = None -> _pending st' !! i = None;
    ev_async_results : async_results st ⊆ async_results st';
    ev_next_promise : (next_promise st <= next_promise st')%nat }.

Global Instance evolves_preorder : PreOrder evolves.
Proof.
  split.
  - intros st. constructor; try reflexivity; try lia; auto.
    exists []. split; [by rewrite app_nil_r | ]. intros i m ps H. inversion H.
  - intros st1 st2 st3 [] []. constructor; try congruence; try lia.
    + destruct ev_wire0 as (w1 & Hw1 & Hr1), ev_wire1 as (w2 & Hw2 & Hr2).
      exists (w1 ++ w2)%list. split; [rewrite Hw2, Hw1; by rewrite app_assoc | ].
      intros i m ps [H | H]%elem_of_app.
      * apply Hr1 in H. lia.
      * apply Hr2 in H. lia.
    + etrans; eassumption.
    + intros i Hi Hn. apply ev_pending1; [lia | auto].
    + etrans; eassumption.
Qed.

(** A change that touches none of the components [evolves] speaks of. *)
Lemma evolves_same st st' :
  _id st' = _id st -> timeoutMs st' = timeoutMs st -> wire st' = wire st ->
  promises st' = promises st -> _pending st' = _pending st ->
  async_results st' = async_results st -> next_promise st' = next_promise st ->
  evolves st st'.
Proof.
  intros H1 H2 H3 H4 H5 H6 H7. constructor; rewrite ?H1, ?H2, ?H4, ?H5, ?H6, ?H7;
    try reflexivity; auto.
  exists []. split; [by rewrite H3, app_nil_r | ]. intros i m ps H. inversion H.
Qed.

Lemma evolves_notification st m ps :
  evolves st (set_wire (wire st ++ [Notification m ps]) st).
Proof.
  constructor; simpl; try reflexivity; auto.
  eexists. split; [reflexivity | ].
  intros i m' ps' H. apply list_elem_of_singleton in H. discriminate.
Qed.

Lemma send_notification_evolves m ps : keeps evolves (send (Notification m ps)).
Proof.
  intros st. unfold send. repeat case_match; simpl; try reflexivity.
  apply evolves_notification.
Qed.

Lemma log_evolves t lv : keeps evolves (log t lv).
Proof. intros st. apply evolves_same; reflexivity. Qed.

Lemma notify_evolves m ps : keeps evolves (notify m ps).
Proof.
  unfold notify.
  apply keeps_bind; [apply _ | apply send_notification_evolves | intros; apply log_evolves].
Qed.

Lemma settle_evolves p o : keeps evolves (settle p o).
Proof.
  intros st. unfold settle, modify. simpl.
  destruct (promises st !! p) eqn:Hp; [reflexivity | ].
  assert (Hsub : promises st ⊆ <[p := o]> (promises st)) by by apply insert_subseteq.
  destruct (awaiting st !! p); constructor; simpl; try reflexivity; auto;
    exists []; (split; [by rewrite app_nil_r | intros i m ps H; inversion H]).
Qed.

Lemma clearTimeout_evolves t : keeps evolves (clearTimeout t).
Proof. intros st. apply evolves_same; reflexivity. Qed.

Lemma pending_delete_evolves k : keeps evolves (pending_delete k).
Proof.
  intros st. unfold pending_delete, modify. simpl.
  destruct k as [[ | | [n | | ] | | | ] | ]; try reflexivity.
  constructor; simpl; try reflexivity; auto.
  - exists []. split; [by rewrite app_nil_r | intros i m ps H; inversion H].
  - intros i _ H. rewrite lookup_delete_None. auto.
Qed.

Lemma on_timeout_evolves cb : keeps evolves (on_timeout cb).
Proof.
  unfold on_timeout.
  apply keeps_bind; [apply _ | apply pending_delete_evolves | intros; apply settle_evolves].
Qed.

Lemma on_abort_evolves cb : keeps evolves (on_abort cb).
Proof.
  unfold on_abort.
  apply keeps_bind; [apply _ | apply keeps_try, notify_evolves | intros _].
  apply keeps_bind; [apply _ | apply clearTimeout_evolves | intros _].
  apply keeps_bind; [apply _ | apply pending_delete_evolves | intros _].
  apply settle_evolves.
Qed.

Lemma respond_evolves e msg : keeps evolves (respond e msg).
Proof.
  apply keeps_respond;
    [apply _ | apply clearTimeout_evolves | apply pending_delete_evolves | apply settle_evolves].
Qed.

Lemma emit_evolves m ps : keeps evolves (_emit m ps).
Proof.
  intros st. unfold _emit.
  apply (keeps_for_each evolves). intros h st'. apply evolves_same; reflexivity.
Qed.

Lemma handle_one_evolves msg : keeps evolves (handle_one msg).
Proof.
  intros st. unfold handle_one, bind.
  pose proof (hasOwnProperty_state msg "id" st) as Hst.
  destruct (hasOwnProperty msg "id" st) as [st0 [[] | e]]; simpl in Hst; subst st0;
    [ | | reflexivity].
  - destruct (pending_get (get msg "id") st) as [e | ]; [ | reflexivity].
    apply respond_evolves.
  - destruct (truthy (get msg "method")); [apply emit_evolves | reflexivity].
Qed.

Lemma handleMessage_evolves raw : keeps evolves (_handleMessage raw).
Proof.
  apply keeps_handleMessage; [apply _ | apply log_evolves | apply handle_one_evolves].
Qed.

Lemma fire_timer_evolves t : keeps evolves (fire_timer t).
Proof.
  intros st. unfold fire_timer. destruct (timers st !! t) as [cb | ]; [ | reflexivity].
  etrans; [ | apply on_timeout_evolves]. apply evolves_same; reflexivity.
Qed.

Lemma fire_abort_evolves s : keeps evolves (fire_abort s).
Proof.
  intros st. unfold fire_abort.
  destruct (aborted _); [reflexivity | ].
  etrans; [ | apply (keeps_for_each evolves); intros; apply on_abort_evolves].
  apply evolves_same; reflexivity.
Qed.

Lemma keepalive_evolves : keeps evolves keepalive.
Proof.
  intros st. destruct (keepalive_state st) as [-> | [_ ->]]; [reflexivity | ].
  apply evolves_notification.
Qed.

(** [request] either throws having only advanced the counter, or
    writes one Request and registers the entry. *)
Lemma request_closed m ps sg st :
  _ws st <> Some OPEN ->
  request m ps sg st =
    (set_id (_id st + 1) st, Throw (JsError "WebSocket not open" None None)).
Proof.
  intros H. unfold request, bind, post_incr_id, send. simpl.
  destruct (_ws st) as [[] | ]; try reflexivity. congruence.
Qed.

Definition entry_of (m : string) (st : state) : entry :=
  {| resolve := next_promise st; reject := next_promise st;
     timer := next_timer st; method := m |}.

Definition timeout_of (m : string) (st : state) : timeout_cb :=
  {| t_id := _id st; t_reject := next_promise st; t_method := m;
     t_delay := timeoutMs st |}.

Definition listener_of (st : state) : abort_cb :=
  {| a_id := _id st; a_timer := next_timer st; a_reject := next_promise st |}.

Definition with_listener (sg : option nat) (st : state) : gmap nat abort_signal :=
  match sg with
  | Some s =>
      let sig := default {| aborted := false; listeners := [] |} (signals st !! s) in
      <[s := {| aborted := aborted sig;
                listeners := (listeners sig ++ [listener_of st])%list |}]> (signals st)
  | None => signals st
  end.

(** The state [request] leaves when the socket is open. *)
Definition requested (m : string) (ps : jsval) (sg : option nat) (st : state) : state :=
  {| _id := _id st + 1;
     _pending := <[_id st := entry_of m st]> (_pending st);
     _handlers := _handlers st;
     timeoutMs := timeoutMs st;
     _ws := _ws st;
     wire := (wire st ++ [Request (_id st) m ps])%list;
     promises := promises st;
     next_promise := S (next_promise st);
     timers := <[next_timer st := timeout_of m st]> (timers st);
     next_timer := S (next_timer st);
     signals := with_listener sg st;
     awaiting := awaiting st;
     microtasks := microtasks st;
     async_results := async_results st;
     effects := (effects st ++ [Log ("→ " +:+ m) info])%list;
     serverSyncKind := serverSyncKind st;
     serverCapabilities := serverCapabilities st |}.

Lemma request_open m ps sg st :
  _ws st = Some OPEN ->
  request m ps sg st = (requested m ps sg st, Ok (next_promise st)).
Proof.
  intros H. unfold request, bind, post_incr_id, send. simpl. rewrite H. simpl.
  destruct sg; reflexivity.
Qed.

Lemma request_cases m ps sg st :
  (_ws st = Some OPEN /\ request m ps sg st = (requested m ps sg st, Ok (next_promise st))) \/
  (_ws st <> Some OPEN /\
   request m ps sg st =
     (set_id (_id st + 1) st, Throw (JsError "WebSocket not open" None None))).
Proof.
  destruct (decide (_ws st = Some OPEN)) as [H | H].
  - left. split; [assumption | by apply request_open].
  - right. split; [assumption | by apply request_closed].
Qed.

Lemma request_evolves m ps sg : keeps evolves (request m ps sg).
Proof.
  intros st. destruct (request_cases m ps sg st) as [[_ ->] | [_ ->]]; simpl.
  - constructor; simpl; try reflexivity; try lia.
    + eexists. split; [reflexivity | ].
      intros i m' ps' H. apply list_elem_of_singleton in H. inversion H. lia.
    + intros i Hi Hn. rewrite lookup_insert_ne; [assumption | lia].
  - constructor; simpl; try reflexivity; try lia; auto.
    exists []. split; [by rewrite app_nil_r | intros i m' ps' H; inversion H].
Qed.

Lemma await_evolves p k : keeps evolves (await p k).
Proof. intros st. apply evolves_same; reflexivity. Qed.

Lemma settle_async_evolves p o : keeps evolves (settle_async p o).
Proof.
  intros st. unfold settle_async, modify. simpl.
  destruct (async_results st !! p) eqn:Hp; [reflexivity | ].
  constructor; simpl; try reflexivity; auto.
  - exists []. split; [by rewrite app_nil_r | intros i m ps H; inversion H].
  - by apply insert_subseteq.
Qed.

Lemma assign_kind_evolves v : keeps evolves (assign_kind v).
Proof.
  destruct v; simpl; [ | apply keeps_ret; apply _].
  intros st. apply evolves_same; reflexivity.
Qed.

Lemma resume_evolves k o : keeps evolves (resume k o).
Proof.
  destruct k; simpl.
  - unfold initialize_resume. destruct o as [v | e]; [ | apply keeps_throw; apply _].
    apply keeps_bind; [apply _ | apply keeps_lift; apply _ | intros caps].
    apply keeps_bind; [apply _ | intros st; apply evolves_same; reflexivity | intros _].
    apply keeps_bind; [apply _ | intros st; reflexivity | intros sync].
    apply keeps_bind; [apply _ | | intros _; apply keeps_ret; apply _].
    destruct (typeof_number sync); [apply assign_kind_evolves | ].
    destruct (typeof_object sync); [ | apply keeps_ret; apply _].
    apply keeps_bind; [apply _ | apply keeps_lift; apply _ | intros change].
    destruct (not_nullish change); [apply assign_kind_evolves | apply keeps_ret; apply _].
  - unfold shutdown_resume.
    apply keeps_bind; [apply _ | apply notify_evolves | intros _].
    destruct o; [apply keeps_ret | apply keeps_throw]; apply _.
Qed.

Lemma completion_fst (r : state * res jsval) : fst (completion r) = fst r.
Proof. destruct r as [st [v | e]]; reflexivity. Qed.

Lemma run_kont_evolves job : keeps evolves (run_kont job).
Proof.
  intros st. destruct job as [[p k] o]. unfold run_kont.
  pose proof (resume_evolves k o st) as H. rewrite <- completion_fst in H.
  destruct (completion (resume k o st)) as [st' o']. simpl in H.
  etrans; [exact H | apply settle_async_evolves].
Qed.

Lemma run_microtasks_evolves st : evolves st (run_microtasks st).
Proof.
  unfold run_microtasks.
  etrans; [ | apply (keeps_for_each evolves); intros; apply run_kont_evolves].
  apply evolves_same; reflexivity.
Qed.

Lemma handle_evolves ev : keeps evolves (handle ev).
Proof.
  destruct ev; simpl; unfold unit_.
  - apply keeps_bind; [apply _ | apply request_evolves | intros; apply keeps_ret; apply _].
  - apply keeps_bind; [apply _ | apply notify_evolves | intros; apply keeps_ret; apply _].
  - intros st. apply evolves_same; reflexivity.
  - intros st. apply evolves_same; reflexivity.
  - intros st. unfold initialize.
    pose proof (request_evolves "initialize" params None st) as H.
    destruct (request "initialize" params None st) as [st1 [p | e]]; simpl in *; [ | exact H].
    etrans; [exact H | apply await_evolves].
  - intros st. unfold initialized.
    pose proof (notify_evolves "initialized" (Some (JObj [])) st) as H.
    destruct (notify _ _ st) as [st1 [ | ]]; exact H.
  - intros st. unfold shutdown.
    pose proof (request_evolves "shutdown" None None st) as H.
    destruct (request "shutdown" None None st) as [st1 [p | e]]; simpl in *.
    + etrans; [exact H | apply await_evolves].
    + pose proof (resume_evolves KShutdown (Rejected e) st1) as H'. simpl in H'.
      rewrite <- completion_fst in H'.
      destruct (completion (shutdown_resume (Rejected e) st1)) as [st2 o]. simpl in *.
      etrans; eassumption.
  - apply keeps_bind; [apply _ | apply handleMessage_evolves | intros; apply keeps_ret; apply _].
  - apply keeps_bind; [apply _ | apply fire_timer_evolves | intros; apply keeps_ret; apply _].
  - apply keeps_bind; [apply _ | apply fire_abort_evolves | intros; apply keeps_ret; apply _].
  - intros st. apply evolves_same; reflexivity.
  - apply keeps_bind; [apply _ | apply keepalive_evolves | intros; apply keeps_ret; apply _].
Qed.

Lemma step_evolves ev st : evolves st (fst (step ev st)).
Proof.
  unfold step. pose proof (handle_evolves ev st) as H.
  destruct (handle ev st) as [st1 r]. simpl in *.
  etrans; [exact H | apply run_microtasks_evolves].
Qed.

Lemma run_evolves tr st : evolves st (run tr st).
Proof.
  revert st. induction tr as [ | ev tr IH]; intros st; simpl; [reflexivity | ].
  etrans; [apply step_evolves | apply IH].
Qed.

(** *** The id counter *)

(** The events whose handler calls [request]. *)
Definition calls_request (ev : event) : bool :=
  match ev with
  | CallRequest _ _ _ | CallInitialize _ | CallShutdown => true
  | _ => false
  end.

Lemma request_id m ps sg st : _id (fst (request m ps sg st)) = _id st + 1.
Proof. destruct (request_cases m ps sg st) as [[_ ->] | [_ ->]]; reflexivity. Qed.

Lemma unit_fst (m : Js unit) st : fst (unit_ m st) = fst (m st).
Proof. unfold unit_, bind. destruct (m st) as [st' [[] | e]]; reflexivity. Qed.

Lemma handle_id ev st :
  _id (fst (handle ev st)) = _id st + (if calls_request ev then 1 else 0).
Proof.
  destruct ev; simpl; rewrite ?unit_fst, ?Z.add_0_r.
  - unfold bind. pose proof (request_id method0 params signal st) as H.
    destruct (request method0 params signal st) as [st1 [p | e]]; exact H.
  - apply notify_quiet.
  - reflexivity.
  - reflexivity.
  - unfold initialize. pose proof (request_id "initialize" params None st) as H.
    destruct (request "initialize" params None st) as [st1 [p | e]]; exact H.
  - unfold initialized. pose proof (q_id _ _ (notify_quiet "initialized" (Some (JObj [])) st)) as H.
    destruct (notify _ _ st) as [st1 [ | ]]; exact H.
  - unfold shutdown. pose proof (request_id "shutdown" None None st) as H.
    destruct (request "shutdown" None None st) as [st1 [p | e]]; [exact H | ].
    pose proof (d_id _ _ (resume_drain_frame KShutdown (Rejected e) st1)) as H'.
    simpl in H'. rewrite <- completion_fst in H'.
    destruct (completion (shutdown_resume (Rejected e) st1)) as [st2 o]. simpl in *.
    congruence.
  - apply handleMessage_quiet.
  - apply fire_timer_quiet.
  - apply fire_abort_quiet.
  - reflexivity.
  - apply keepalive_quiet.
Qed.

Lemma step_id ev st :
  _id (fst (step ev st)) = _id st + (if calls_request ev then 1 else 0).
Proof.
  unfold step. pose proof (handle_id ev st) as H.
  destruct (handle ev st) as [st1 r]. simpl in *.
  destruct (run_microtasks_frame st1) as [-> _]. exact H.
Qed.

Lemma run_app tr1 tr2 st : run (tr1 ++ tr2) st = run tr2 (run tr1 st).
Proof. revert st. induction tr1 as [ | ev tr1 IH]; intros st; simpl; auto. Qed.

(** How many times a trace calls [request]. *)
Fixpoint request_calls (tr : list event) : Z :=
  match tr with
  | [] => 0
  | ev :: tr' => (if calls_request ev then 1 else 0) + request_calls tr'
  end.

Lemma run_id tr st : _id (run tr st) = _id st + request_calls tr.
Proof.
  revert st. induction tr as [ | ev tr IH]; intros st; simpl; [lia | ].
  rewrite IH, step_id. lia.
Qed.

(** ** The invariant of the session *)

(** What holds of a request's id, timer and promise, as its abort
    listener captured them: the request is pending with that timer and
    promise, or it is gone, its timer cleared, and no pending request
    has that promise. *)
Definition coherent (st : state) (cb : abort_cb) : Prop :=
  a_id cb < _id st /\ (a_timer cb < next_timer st)%nat /\
  (a_reject cb < next_promise st)%nat /\
  match _pending st !! a_id cb with
  | Some e => timer e = a_timer cb /\ reject e = a_reject cb
  | None => timers st !! a_timer cb = None /\
            forall j e, _pending st !! j = Some e -> reject e <> a_reject cb
  end.

Record wf (st : state) : Prop :=
  { wf_id : 1 <= _id st;
    wf_pending : forall i e, _pending st !! i = Some e ->
      1 <= i < _id st /\ resolve e = reject e /\
      (reject e < next_promise st)%nat /\
      promises st !! reject e = None /\
      timers st !! timer e =
        Some {| t_id := i; t_reject := reject e; t_method := method e;
                t_delay := timeoutMs st |};
    wf_timers : forall t cb, timers st !! t = Some cb ->
      (t < next_timer st)%nat /\
      exists e, _pending st !! t_id cb = Some e /\ timer e = t;
    wf_inj : forall i j e e', _pending st !! i = Some e -> _pending st !! j = Some e' ->
      reject e = reject e' -> i = j;
    wf_promises : forall p o, promises st !! p = Some o -> (p < next_promise st)%nat;
    wf_listeners : forall s sig cb, signals st !! s = Some sig ->
      cb ∈ listeners sig -> coherent st cb;
    wf_listeners_nodup : forall s sig, signals st !! s = Some sig ->
      NoDup (a_id <$> listeners sig);
    wf_wire : forall i m ps, Request i m ps ∈ wire st -> 1 <= i < _id st;
    wf_awaiting : forall p k, awaiting st !! p = Some k ->
      promises st !! p = None /\ async_results st !! p = None /\
      (p < next_promise st)%nat;
    wf_queue : forall p k o, (p, k, o) ∈ microtasks st ->
      promises st !! p = Some o /\ async_results st !! p = None;
    wf_queue_nodup : NoDup (microtasks st).*1.*1;
    wf_async : forall p o, async_results st !! p = Some o -> is_Some (promises st !! p) }.

Lemma wf_new tm : wf (new_JsonRpc tm).
Proof.
  constructor; simpl; try (intros; simplify_map_eq; fail); try lia.
  - intros i m ps H. inversion H.
  - intros p k o H. inversion H.
  - constructor.
Qed.

(** The invariant only reads the components listed here, and of the
    wire only its Requests. *)
Lemma wf_frame st st' :
  wf st ->
  _id st' = _id st -> _pending st' = _pending st -> timeoutMs st' = timeoutMs st ->
  promises st' = promises st -> next_promise st' = next_promise st ->
  timers st' = timers st -> next_timer st' = next_timer st ->
  signals st' = signals st -> awaiting st' = awaiting st ->
  microtasks st' = microtasks st -> async_results st' = async_results st ->
  (forall i m ps, Request i m ps ∈ wire st' -> Request i m ps ∈ wire st) ->
  wf st'.
Proof.
  intros [] H1 H2 H3 H4 H5 H6 H7 H8 H9 H10 H11 Hw.
  constructor; unfold coherent in *; rewrite ?H1, ?H2, ?H3, ?H4, ?H5, ?H6, ?H7, ?H8, ?H9, ?H10, ?H11;
    eauto.
Qed.

Lemma wf_fresh_promise st : wf st -> promises st !! next_promise st = None.
Proof.
  intros Hwf. destruct (promises st !! next_promise st) eqn:H; [ | reflexivity].
  apply (wf_promises _ Hwf) in H. lia.
Qed.

Lemma wf_fresh_timer st : wf st -> timers st !! next_timer st = None.
Proof.
  intros Hwf. destruct (timers st !! next_timer st) eqn:H; [ | reflexivity].
  apply (wf_timers _ Hwf) in H. lia.
Qed.

Lemma wf_fresh_id st : wf st -> _pending st !! _id st = None.
Proof.
  intros Hwf. destruct (_pending st !! _id st) eqn:H; [ | reflexivity].
  apply (wf_pending _ Hwf) in H. lia.
Qed.

Lemma wf_set_id st : wf st -> wf (set_id (_id st + 1) st).
Proof.
  intros []. constructor; simpl; try lia; eauto.
  - intros i e H. destruct (wf_pending0 i e H) as (? & ? & ? & ? & ?).
    repeat split; auto; lia.
  - intros s sig cb Hs Hcb. destruct (wf_listeners0 s sig cb Hs Hcb) as (? & ? & ? & ?).
    unfold coherent. simpl. repeat split; auto; lia.
  - intros i m ps H. apply wf_wire0 in H. lia.
Qed.

Lemma wf_requested m ps sg st : wf st -> wf (requested m ps sg st).
Proof.
  intros Hwf.
  pose proof (wf_fresh_promise st Hwf) as Hfp.
  pose proof (wf_fresh_timer st Hwf) as Hft.
  pose proof (wf_fresh_id st Hwf) as Hfi.
  destruct Hwf.
  assert (Hcoh : forall cb, coherent st cb -> coherent (requested m ps sg st) cb).
  { intros cb (H1 & H2 & H3 & H4). unfold coherent. simpl.
    repeat split; try lia.
    rewrite lookup_insert_ne by lia.
    destruct (_pending st !! a_id cb); [assumption | ].
    destruct H4 as [H4 H5]. split.
    - rewrite lookup_insert_ne by lia. assumption.
    - intros j e [[<- <-] | [Hne Hj]]%lookup_insert_Some; simpl; [lia | eauto]. }
  constructor; simpl.
  - lia.
  - intros i e [[<- <-] | [Hne H]]%lookup_insert_Some.
    + simpl. repeat split; try lia; auto. by rewrite lookup_insert_eq.
    + destruct (wf_pending0 i e H) as (? & ? & ? & ? & Ht).
      repeat split; auto; try lia.
      rewrite lookup_insert_ne; [assumption | ].
      apply wf_timers0 in Ht. lia.
  - intros t cb [[<- <-] | [Hne H]]%lookup_insert_Some.
    + simpl. split; [lia | ]. eexists. rewrite lookup_insert_eq. split; reflexivity.
    + destruct (wf_timers0 t cb H) as (? & e & He & <-).
      split; [lia | ]. exists e. split; [ | reflexivity].
      rewrite lookup_insert_ne; [assumption | ].
      apply wf_pending0 in He. lia.
  - intros i j e e' [[<- <-] | [Hi He]]%lookup_insert_Some
                    [[<- <-] | [Hj He']]%lookup_insert_Some; simpl; intros Heq.
    + reflexivity.
    + apply wf_pending0 in He'. lia.
    + apply wf_pending0 in He. lia.
    + eauto.
  - intros p o H. apply wf_promises0 in H. lia.
  - intros s sig cb Hs Hcb. destruct sg as [s0 | ]; simpl in Hs.
    + apply lookup_insert_Some in Hs as [[<- <-] | [Hne Hs]]; [ | eauto].
      simpl in Hcb. apply elem_of_app in Hcb as [Hcb | Hcb].
      * destruct (signals st !! s0) as [sig | ] eqn:Hsig; simpl in Hcb; [eauto | inversion Hcb].
      * apply list_elem_of_singleton in Hcb as ->.
        unfold coherent. simpl. rewrite lookup_insert_eq. simpl.
        repeat split; lia.
    + eauto.
  - intros s sig Hs. destruct sg as [s0 | ]; simpl in Hs; [ | eauto].
    apply lookup_insert_Some in Hs as [[<- <-] | [Hne Hs]]; [ | eauto].
    simpl. rewrite fmap_app. simpl. apply NoDup_app. split; [ | split].
    + destruct (signals st !! s0) as [sig | ] eqn:Hsig; simpl; [eauto | constructor].
    + intros i Hi Hi'. apply list_elem_of_singleton in Hi' as ->.
      apply list_elem_of_fmap in Hi as (cb & Hcb1 & Hcb2).
      destruct (signals st !! s0) as [sig | ] eqn:Hsig; simpl in Hcb2; [ | inversion Hcb2].
      destruct (wf_listeners0 _ _ _ Hsig Hcb2) as (? & _). lia.
    + apply NoDup_singleton.
  - intros i m' ps' [H | H]%elem_of_app.
    + apply wf_wire0 in H. lia.
    + apply list_elem_of_singleton in H. inversion H. lia.
  - intros p k H. destruct (wf_awaiting0 p k H) as (? & ? & ?). repeat split; auto; lia.
  - assumption.
  - assumption.
  - assumption.
Qed.

(** *** Settling a pending request *)

(** The request [i] and its timer [t] taken out of the tables: what
    [clearTimeout(t)] and [_pending.delete(i)] leave. *)
Definition dropped (i : Z) (t : nat) (st : state) : state :=
  set_pending (delete i (_pending st)) (set_timers (delete t (timers st)) st).

(** The three ways a request ends (response, timeout, abort) clear its
    timer, delete its entry and call a resolving function of its
    promise, in that order. *)
Definition finish (i : Z) (t p : nat) (o : outcome) (st : state) : state :=
  fst (settle p o (dropped i t st)).

Definition finished (i : Z) (t p : nat) (o : outcome) (st : state) : state :=
  {| _id := _id st;
     _pending := delete i (_pending st);
     _handlers := _handlers st;
     timeoutMs := timeoutMs st;
     _ws := _ws st;
     wire := wire st;
     promises := <[p := o]> (promises st);
     next_promise := next_promise st;
     timers := delete t (timers st);
     next_timer := next_timer st;
     signals := signals st;
     awaiting := delete p (awaiting st);
     microtasks :=
       (microtasks st ++
        match awaiting st !! p with Some k => [(p, k, o)] | None => [] end)%list;
     async_results := async_results st;
     effects := effects st;
     serverSyncKind := serverSyncKind st;
     serverCapabilities := serverCapabilities st |}.

Lemma finish_live i t p o st :
  promises st !! p = None -> finish i t p o st = finished i t p o st.
Proof.
  intros Hp. unfold finish, finished, dropped, settle, modify. simpl. rewrite Hp.
  destruct (awaiting st !! p) eqn:Ha; simpl.
  - reflexivity.
  - rewrite app_nil_r, (delete_id _ _ Ha). reflexivity.
Qed.

Lemma dropped_gone i t st :
  _pending st !! i = None -> timers st !! t = None -> dropped i t st = st.
Proof.
  intros Hi Ht. unfold dropped. rewrite (delete_id _ _ Hi), (delete_id _ _ Ht).
  destruct st; reflexivity.
Qed.

Lemma finish_dead i t p o st :
  _pending st !! i = None -> timers st !! t = None -> is_Some (promises st !! p) ->
  finish i t p o st = st.
Proof.
  intros Hi Ht [o' Hp]. unfold finish. rewrite (dropped_gone i t st Hi Ht).
  unfold settle, modify. simpl. by rewrite Hp.
Qed.

Lemma wf_dropped i e st :
  wf st -> _pending st !! i = Some e -> wf (dropped i (timer e) st).
Proof.
  intros Hwf Hi. destruct Hwf.
  destruct (wf_pending0 i e Hi) as (Hir & Hrr & Hpn & Hpu & Hti).
  assert (Hother : forall j e', j <> i -> _pending st !! j = Some e' ->
            reject e' <> reject e /\ timer e' <> timer e).
  { intros j e' Hne Hj. split; intros Heq.
    - apply Hne. eauto.
    - destruct (wf_pending0 j e' Hj) as (_ & _ & _ & _ & Htj).
      rewrite Heq, Hti in Htj. inversion Htj. congruence. }
  constructor; simpl; try assumption.
  - intros j e' [Hne Hj]%lookup_delete_Some.
    destruct (wf_pending0 j e' Hj) as (? & ? & ? & ? & ?).
    destruct (Hother j e' ltac:(congruence) Hj) as [Hr Ht].
    repeat split; auto; try lia. by rewrite lookup_delete_ne.
  - intros t cb [Hne Ht]%lookup_delete_Some.
    destruct (wf_timers0 t cb Ht) as (? & e' & He' & <-).
    split; [assumption | ]. exists e'. split; [ | reflexivity].
    rewrite lookup_delete_ne; [assumption | ].
    intros Heq. rewrite <- Heq, Hi in He'. inversion He'. congruence.
  - intros j1 j2 e1 e2 [_ H1]%lookup_delete_Some [_ H2]%lookup_delete_Some. eauto.
  - intros s sig cb Hs Hcb.
    destruct (wf_listeners0 s sig cb Hs Hcb) as (H1 & H2 & H3 & H4).
    unfold coherent. simpl. repeat split; auto.
    destruct (decide (a_id cb = i)) as [Heq | Hne].
    + rewrite Heq in *. rewrite lookup_delete_eq. rewrite Hi in H4. destruct H4 as [<- <-].
      split; [apply lookup_delete_eq | ].
      intros j e' [Hne Hj]%lookup_delete_Some. apply (Hother j e'); [congruence | exact Hj].
    + rewrite lookup_delete_ne by congruence.
      destruct (_pending st !! a_id cb) as [e' | ] eqn:He'; [assumption | ].
      destruct H4 as [H4 H5]. split.
      * apply lookup_delete_None. auto.
      * intros j e' [_ Hj]%lookup_delete_Some. eauto.
Qed.

(** Settling a promise that no pending request has. *)
Lemma wf_settle p o st :
  wf st -> (p < next_promise st)%nat ->
  (forall j e, _pending st !! j = Some e -> reject e <> p) ->
  wf (fst (settle p o st)).
Proof.
  intros Hwf Hlt Hfree. unfold settle, modify. simpl.
  destruct (promises st !! p) as [o0 | ] eqn:Hp; [exact Hwf | ].
  destruct Hwf.
  assert (Hpend : forall j e', _pending st !! j = Some e' ->
            1 <= j < _id st /\ resolve e' = reject e' /\
            (reject e' < next_promise st)%nat /\
            <[p := o]> (promises st) !! reject e' = None /\
            timers st !! timer e' =
              Some {| t_id := j; t_reject := reject e'; t_method := method e';
                      t_delay := timeoutMs st |}).
  { intros j e' Hj. destruct (wf_pending0 j e' Hj) as (? & ? & ? & ? & ?).
    repeat split; auto; try lia. rewrite lookup_insert_ne; [assumption | ].
    intros Heq. by apply (Hfree j e'). }
  assert (Hprom : forall q o', <[p := o]> (promises st) !! q = Some o' ->
            (q < next_promise st)%nat).
  { intros q o' [[<- _] | [_ H]]%lookup_insert_Some; eauto. }
  assert (Hasync : forall q o', async_results st !! q = Some o' ->
            is_Some (<[p := o]> (promises st) !! q)).
  { intros q o' H. apply wf_async0 in H as [o'' H].
    destruct (decide (p = q)) as [-> | Hn].
    - rewrite lookup_insert_eq. eauto.
    - rewrite lookup_insert_ne by assumption. eauto. }
  destruct (awaiting st !! p) as [k | ] eqn:Hk; constructor; simpl; try assumption.
  - intros q k' [Hne H]%lookup_delete_Some.
    destruct (wf_awaiting0 q k' H) as (? & ? & ?).
    repeat split; auto. by rewrite lookup_insert_ne.
  - intros q k' o' [H | H]%elem_of_app.
    + destruct (wf_queue0 q k' o' H) as [Hq Ha]. split; [ | assumption].
      rewrite lookup_insert_ne; [assumption | ]. intros <-. congruence.
    + apply list_elem_of_singleton in H. inversion H; subst.
      rewrite lookup_insert_eq. split; [reflexivity | ].
      apply (wf_awaiting0 _ _ Hk).
  - rewrite !fmap_app. apply NoDup_app. split; [assumption | split].
    + intros q Hq Hq'. simpl in Hq'. apply list_elem_of_singleton in Hq' as ->.
      apply list_elem_of_fmap in Hq as ([q k'] & Hqk & Hin). simpl in Hqk. subst q.
      apply list_elem_of_fmap in Hin as ([[q' k''] o'] & Heq & Hin). simpl in Heq.
      inversion Heq; subst.
      apply wf_queue0 in Hin as [Hin _]. congruence.
    + apply NoDup_singleton.
  - intros q k' H. destruct (wf_awaiting0 q k' H) as (? & ? & ?).
    repeat split; auto. rewrite lookup_insert_ne; [assumption | ]. intros <-. congruence.
  - intros q k' o' H. destruct (wf_queue0 q k' o' H) as [Hq Ha]. split; [ | assumption].
    rewrite lookup_insert_ne; [assumption | ]. intros <-. congruence.
Qed.

Lemma wf_finished i e o st :
  wf st -> _pending st !! i = Some e ->
  wf (finished i (timer e) (reject e) o st).
Proof.
  intros Hwf Hi.
  destruct (wf_pending _ Hwf i e Hi) as (_ & _ & Hlt & Hpu & _).
  rewrite <- finish_live by exact Hpu. unfold finish.
  apply wf_settle; [by apply wf_dropped | exact Hlt | ].
  unfold dropped. simpl. intros j e' [Hne Hj]%lookup_delete_Some Heq.
  apply Hne. apply (wf_inj _ Hwf i j e e' Hi Hj). congruence.
Qed.

(** Either way a coherent triple is finished, the invariant stays. *)
Lemma wf_finish cb o st :
  wf st -> coherent st cb ->
  wf (finish (a_id cb) (a_timer cb) (a_reject cb) o st).
Proof.
  intros Hwf (_ & _ & Hlt & H).
  destruct (_pending st !! a_id cb) as [e | ] eqn:He.
  - destruct H as [<- <-].
    rewrite finish_live by apply (wf_pending _ Hwf _ _ He).
    by apply wf_finished.
  - destruct H as [Ht Hfree]. unfold finish. rewrite (dropped_gone _ _ st He Ht).
    by apply wf_settle.
Qed.

(** Whether building the error of a response raises: the payload has
    a truthy [error] whose message [String] cannot convert. *)
Definition error_raises (msg : json) : bool :=
  match get msg "error" with
  | Some err =>
      truthy (Some err) && ToString_raises (or_else (get err "message") (JStr "RPC Error"))
  | None => false
  end.

(** What a response settles its request with, when building the error
    does not raise. *)
Definition settlement (msg : json) : outcome :=
  match get msg "error" with
  | Some err =>
      if truthy (Some err)
      then Rejected (JsErrorOf (or_else (get err "message") (JStr "RPC Error"))
                       (get err "code") (get err "data"))
      else Resolved (get msg "result")
  | None => Resolved (get msg "result")
  end.

Definition response_for (i : Z) (msg : json) : Prop :=
  exists fs, msg = JObj fs /\ assoc "id" fs = Some (JNum i).

(** The error of a Response can be built: its message is a string. *)
Lemma string_message_builds (msg : json) :
  (forall err m, get msg "error" = Some err -> get err "message" = Some m ->
     exists s, m = JStr s) ->
  error_raises msg = false.
Proof.
  intros Hstr. unfold error_raises.
  destruct (get msg "error") as [err | ]; [ | reflexivity].
  destruct (truthy (Some err)); [ | reflexivity]. simpl.
  destruct (get err "message") as [m | ] eqn:Hm; [ | reflexivity].
  destruct (Hstr err m eq_refl Hm) as [s ->]. simpl.
  by destruct (negb (String.eqb s "")).
Qed.

(** The response branch ends the request with what the response says;
    or, when the error cannot be built, it has taken the request out
    of the tables and raises, the promise left as it was. *)
Lemma respond_finish (i : Z) e msg st :
  get msg "id" = Some (JNum i) -> resolve e = reject e ->
  respond e msg st =
    if error_raises msg then (dropped i (timer e) st, Throw TypeError)
    else (finish i (timer e) (reject e) (settlement msg) st, Ok tt).
Proof.
  intros Hid Hrr.
  unfold respond, finish, settlement, error_raises, rpc_error, new_Error, bind, lift,
    clearTimeout, pending_delete, modify.
  rewrite Hid, Hrr.
  destruct (get msg "error") as [err | ]; [destruct (truthy (Some err)) | ]; try reflexivity.
  simpl. destruct (ToString_raises _); reflexivity.
Qed.

Lemma handle_one_matched i e msg st :
  response_for i msg -> _pending st !! i = Some e -> resolve e = reject e ->
  handle_one msg st =
    if error_raises msg then (dropped i (timer e) st, Throw TypeError)
    else (finish i (timer e) (reject e) (settlement msg) st, Ok tt).
Proof.
  intros (fs & -> & Hid) He Hrr. unfold handle_one, bind. simpl.
  rewrite bool_decide_eq_true_2 by (rewrite Hid; eauto).
  unfold pending_get. rewrite Hid, He. apply respond_finish; [exact Hid | exact Hrr].
Qed.

Lemma handle_one_response i e msg st :
  response_for i msg -> error_raises msg = false ->
  _pending st !! i = Some e -> resolve e = reject e ->
  handle_one msg st = (finish i (timer e) (reject e) (settlement msg) st, Ok tt).
Proof.
  intros Hmsg Hok He Hrr. rewrite (handle_one_matched i e msg st Hmsg He Hrr).
  by rewrite Hok.
Qed.

(** A payload with an [id] that matches no entry changes nothing. *)
Lemma handle_one_unmatched fs st :
  is_Some (assoc "id" fs) -> pending_get (assoc "id" fs) st = None ->
  handle_one (JObj fs) st = (st, Ok tt).
Proof.
  intros Hid Hp. unfold handle_one, bind. simpl.
  rewrite bool_decide_eq_true_2 by assumption. rewrite Hp. reflexivity.
Qed.

Lemma fire_timer_finish t cb st :
  timers st !! t = Some cb ->
  fire_timer t st =
    (finish (t_id cb) t (t_reject cb)
       (Rejected (JsError ("RPC timeout for " +:+ t_method cb) None None)) st, Ok tt).
Proof. intros H. unfold fire_timer. rewrite H. reflexivity. Qed.

Lemma on_abort_finish cb st :
  on_abort cb st =
    (finish (a_id cb) (a_timer cb) (a_reject cb)
       (Rejected (DOMException "Operation canceled" "AbortError"))
       (fst (notify "$/cancelRequest" (Some (JObj [("id", JNum (a_id cb))])) st)), Ok tt).
Proof. reflexivity. Qed.

(** *** The invariant is kept by every handler *)

Definition wf_kept : relation state := fun st st' => wf st -> wf st'.

Global Instance wf_kept_preorder : PreOrder wf_kept.
Proof. split; [intros st H; exact H | intros st1 st2 st3 H12 H23 H; auto]. Qed.

Ltac wf_by_frame :=
  let H := fresh "Hkept" in
  intros H; eapply wf_frame; [exact H | reflexivity .. | ]; simpl;
  try (intros ? ? ?; tauto).

Lemma send_notification_wf m ps : keeps wf_kept (send (Notification m ps)).
Proof.
  intros st. unfold send. destruct (_ws st) as [[] | ]; simpl; try reflexivity.
  wf_by_frame. intros i m' ps' [H | H]%elem_of_app; [assumption | ].
  apply list_elem_of_singleton in H. discriminate.
Qed.

Lemma log_wf t lv : keeps wf_kept (log t lv).
Proof. intros st. unfold log, modify. simpl. wf_by_frame. Qed.

Lemma notify_wf m ps : keeps wf_kept (notify m ps).
Proof.
  unfold notify.
  apply keeps_bind; [apply _ | apply send_notification_wf | intros; apply log_wf].
Qed.

Lemma emit_wf m ps : keeps wf_kept (_emit m ps).
Proof.
  intros st. unfold _emit. apply (keeps_for_each wf_kept).
  intros h st'. unfold call_handler, modify. simpl. wf_by_frame.
Qed.

Lemma pending_get_Some k st e :
  pending_get k st = Some e ->
  exists i : Z, k = Some (JNum i) /\ _pending st !! i = Some e.
Proof. destruct k as [[ | | [n | | ] | | | ] | ]; simpl; try discriminate. eauto. Qed.

Lemma handle_one_wf msg : keeps wf_kept (handle_one msg).
Proof.
  intros st Hwf. unfold handle_one, bind.
  pose proof (hasOwnProperty_state msg "id" st) as Hst.
  destruct (hasOwnProperty msg "id" st) as [st0 [[] | e]]; simpl in Hst; subst st0;
    [ | | exact Hwf].
  - destruct (pending_get (get msg "id") st) as [e | ] eqn:He; [ | exact Hwf].
    apply pending_get_Some in He as (i & Hid & He).
    destruct (wf_pending _ Hwf i e He) as (_ & Hrr & _ & Hp & _).
    rewrite (respond_finish i e msg st Hid Hrr). destruct (error_raises msg); simpl.
    + by apply wf_dropped.
    + rewrite finish_live by assumption. by apply wf_finished.
  - destruct (truthy (get msg "method")); [by apply emit_wf | exact Hwf].
Qed.

Lemma handleMessage_wf raw : keeps wf_kept (_handleMessage raw).
Proof.
  apply keeps_handleMessage; [apply _ | apply log_wf | apply handle_one_wf].
Qed.

Lemma timer_closure st t cb :
  wf st -> timers st !! t = Some cb ->
  exists e, _pending st !! t_id cb = Some e /\ timer e = t /\ reject e = t_reject cb /\
            method e = t_method cb /\ t_delay cb = timeoutMs st.
Proof.
  intros Hwf Ht. destruct (wf_timers _ Hwf t cb Ht) as (_ & e & He & Hte).
  destruct (wf_pending _ Hwf _ e He) as (_ & _ & _ & _ & Ht').
  rewrite Hte, Ht in Ht'. injection Ht' as Hcb. rewrite Hcb in He |- *. simpl in *.
  exists e. auto.
Qed.

Lemma fire_timer_wf t : keeps wf_kept (fire_timer t).
Proof.
  intros st Hwf. destruct (timers st !! t) as [cb | ] eqn:Ht.
  - rewrite (fire_timer_finish t cb st Ht). simpl.
    destruct (timer_closure st t cb Hwf Ht) as (e & He & <- & <- & _).
    rewrite finish_live by apply (wf_pending _ Hwf _ _ He).
    by apply wf_finished.
  - unfold fire_timer. rewrite Ht. exact Hwf.
Qed.

Lemma coherent_frame st st' cb :
  coherent st cb ->
  _id st' = _id st -> _pending st' = _pending st ->
  next_promise st' = next_promise st -> timers st' = timers st ->
  next_timer st' = next_timer st ->
  coherent st' cb.
Proof. unfold coherent. intros H -> -> -> -> ->. exact H. Qed.

Lemma finish_coherent cb o st cb' :
  wf st -> coherent st cb -> coherent st cb' -> a_id cb' <> a_id cb ->
  coherent (finish (a_id cb) (a_timer cb) (a_reject cb) o st) cb'.
Proof.
  intros Hwf Hcb Hcb' Hne.
  pose proof Hcb as (_ & _ & _ & H).
  destruct (_pending st !! a_id cb) as [e | ] eqn:He.
  - destruct H as [<- <-]. rewrite finish_live by apply (wf_pending _ Hwf _ _ He).
    destruct Hcb' as (H1 & H2 & H3 & H4). unfold coherent. simpl.
    repeat split; auto. rewrite lookup_delete_ne by congruence.
    destruct (_pending st !! a_id cb') as [e' | ]; [assumption | ].
    destruct H4 as [H4 H5]. split.
    + apply lookup_delete_None. auto.
    + intros j e' [_ Hj]%lookup_delete_Some. eauto.
  - destruct H as [Ht _]. unfold finish. rewrite (dropped_gone _ _ st He Ht).
    eapply coherent_frame; [exact Hcb' | ..];
      unfold settle, modify; simpl; repeat case_match; reflexivity.
Qed.

Lemma notify_coherent m ps st cb :
  coherent st cb -> coherent (fst (notify m ps st)) cb.
Proof.
  intros H. unfold notify, bind, send, log, modify.
  destruct (_ws st) as [[] | ]; simpl; try exact H;
    eapply coherent_frame; try exact H; reflexivity.
Qed.

Lemma on_abort_wf cb st :
  wf st -> coherent st cb -> wf (fst (on_abort cb st)).
Proof.
  intros Hwf Hcb. rewrite on_abort_finish. simpl.
  apply wf_finish; [by apply notify_wf | by apply notify_coherent].
Qed.

Lemma on_abort_coherent cb st cb' :
  wf st -> coherent st cb -> coherent st cb' -> a_id cb' <> a_id cb ->
  coherent (fst (on_abort cb st)) cb'.
Proof.
  intros Hwf Hcb Hcb' Hne. rewrite on_abort_finish. simpl.
  apply finish_coherent; auto using notify_coherent. by apply notify_wf.
Qed.

Lemma for_each_on_abort_wf cbs st :
  wf st -> Forall (coherent st) cbs -> NoDup (a_id <$> cbs) ->
  wf (fst (for_each on_abort cbs st)).
Proof.
  revert st. induction cbs as [ | cb cbs IH]; intros st Hwf Hall Hnd; [exact Hwf | ].
  apply Forall_cons in Hall as [Hcb Hall]. rewrite fmap_cons in Hnd.
  apply NoDup_cons in Hnd as [Hnin Hnd].
  pose proof (on_abort_wf cb st Hwf Hcb) as Hwf'.
  pose proof (fun cb' => on_abort_coherent cb st cb' Hwf Hcb) as Hcoh.
  pose proof (on_abort_finish cb st) as Hfin.
  simpl. unfold bind. destruct (on_abort cb st) as [st' r].
  injection Hfin as _ ->. simpl in *.
  apply IH; [assumption | | assumption].
  rewrite Forall_forall in Hall |- *. intros cb' Hin.
  apply Hcoh; auto.
  intros Heq. apply Hnin. rewrite <- Heq. apply list_elem_of_fmap. eauto.
Qed.

Lemma fire_abort_wf s : keeps wf_kept (fire_abort s).
Proof.
  intros st Hwf. unfold fire_abort.
  destruct (signals st !! s) as [sig | ] eqn:Hs; simpl.
  - destruct (aborted sig); [exact Hwf | ].
    apply for_each_on_abort_wf.
    + destruct Hwf. constructor; simpl; auto.
      * intros s' sig' cb [[<- <-] | [Hne H]]%lookup_insert_Some Hcb; [inversion Hcb | ].
        apply (wf_listeners0 _ _ _ H Hcb).
      * intros s' sig' [[<- <-] | [Hne H]]%lookup_insert_Some; [constructor | eauto].
    + rewrite Forall_forall. intros cb Hcb.
      eapply coherent_frame; [apply (wf_listeners _ Hwf _ _ _ Hs Hcb) | reflexivity ..].
    + apply (wf_listeners_nodup _ Hwf _ _ Hs).
  - destruct Hwf. constructor; simpl; auto.
    + intros s' sig' cb [[<- <-] | [Hne H]]%lookup_insert_Some Hcb; [inversion Hcb | ].
      apply (wf_listeners0 _ _ _ H Hcb).
    + intros s' sig' [[<- <-] | [Hne H]]%lookup_insert_Some; [constructor | eauto].
Qed.

Lemma request_wf m ps sg : keeps wf_kept (request m ps sg).
Proof.
  intros st Hwf. destruct (request_cases m ps sg st) as [[_ ->] | [_ ->]]; simpl.
  - by apply wf_requested.
  - by apply wf_set_id.
Qed.

Lemma wf_await p k st :
  wf st -> promises st !! p = None -> (p < next_promise st)%nat ->
  wf (fst (await p k st)).
Proof.
  intros Hwf Hp Hlt. unfold await, modify. simpl.
  assert (Ha : async_results st !! p = None).
  { destruct (async_results st !! p) as [o1 | ] eqn:H; [ | reflexivity].
    apply (wf_async _ Hwf) in H as [o2 H]. congruence. }
  destruct Hwf. constructor; simpl; auto.
  intros p' k' [[<- <-] | [Hne H]]%lookup_insert_Some; eauto.
Qed.

Lemma request_then_await m ps k st st1 p :
  wf st -> request m ps None st = (st1, Ok p) -> wf (fst (await p k st1)).
Proof.
  intros Hwf Hr. destruct (request_cases m ps None st) as [[_ H] | [_ H]];
    rewrite H in Hr; inversion Hr; subst.
  apply wf_await; [by apply wf_requested | | simpl; lia].
  simpl. by apply wf_fresh_promise.
Qed.

Lemma resume_wf k o : keeps wf_kept (resume k o).
Proof.
  destruct k; simpl.
  - unfold initialize_resume. destruct o as [v | e]; [ | apply keeps_throw; apply _].
    apply keeps_bind; [apply _ | apply keeps_lift; apply _ | intros caps].
    apply keeps_bind; [apply _ | intros st; unfold modify; simpl; wf_by_frame | intros _].
    apply keeps_bind; [apply _ | intros st; simpl; reflexivity | intros sync].
    assert (Hk : forall v, keeps wf_kept (assign_kind v)).
    { intros [j | ]; simpl; [ | apply keeps_ret; apply _].
      intros st. unfold modify. simpl. wf_by_frame. }
    apply keeps_bind; [apply _ | | intros _; apply keeps_ret; apply _].
    destruct (typeof_number sync); [apply Hk | ].
    destruct (typeof_object sync); [ | apply keeps_ret; apply _].
    apply keeps_bind; [apply _ | apply keeps_lift; apply _ | intros change].
    destruct (not_nullish change); [apply Hk | apply keeps_ret; apply _].
  - unfold shutdown_resume.
    apply keeps_bind; [apply _ | apply notify_wf | intros _].
    destruct o; [apply keeps_ret | apply keeps_throw]; apply _.
Qed.

Lemma wf_settle_async p o st :
  wf st -> microtasks st = [] -> is_Some (promises st !! p) ->
  wf (fst (settle_async p o st)).
Proof.
  intros Hwf Hq Hp. unfold settle_async, modify. simpl.
  destruct (async_results st !! p) eqn:Ha; [exact Hwf | ].
  destruct Hwf. constructor; simpl; auto.
  - intros p' k H. destruct (wf_awaiting0 p' k H) as (H1 & H2 & H3).
    repeat split; auto. rewrite lookup_insert_ne; [assumption | ].
    intros <-. destruct Hp as [o' Hp]. congruence.
  - rewrite Hq. intros p' k o' H. inversion H.
  - intros p' o' [[<- _] | [_ H]]%lookup_insert_Some; eauto.
Qed.

Lemma run_kont_wf p k o st :
  wf st -> microtasks st = [] -> is_Some (promises st !! p) ->
  wf (fst (run_kont (p, k, o) st)).
Proof.
  intros Hwf Hq Hp. unfold run_kont.
  pose proof (resume_wf k o st Hwf) as H.
  pose proof (resume_drain_frame k o st) as Hf.
  rewrite <- completion_fst in H, Hf.
  destruct (completion (resume k o st)) as [st' o']. simpl in *.
  destruct Hf. apply wf_settle_async; [assumption | congruence | congruence].
Qed.

Lemma for_each_run_kont_wf jobs st :
  wf st -> microtasks st = [] ->
  (forall p k o, (p, k, o) ∈ jobs -> is_Some (promises st !! p)) ->
  wf (fst (for_each run_kont jobs st)).
Proof.
  revert st. induction jobs as [ | [[p k] o] jobs IH]; intros st Hwf Hq Hall; [exact Hwf | ].
  simpl. unfold bind.
  pose proof (run_kont_wf p k o st Hwf Hq (Hall p k o ltac:(left))) as H.
  pose proof (run_kont_drain_frame (p, k, o) st) as Hf.
  destruct (run_kont (p, k, o) st) as [st' [[] | e]]; simpl in *; [ | exact H].
  destruct Hf. apply IH; [assumption | congruence | ].
  intros p' k' o' Hin. rewrite d_promises0. apply (Hall p' k' o'). by right.
Qed.

Lemma run_microtasks_wf st : wf st -> wf (run_microtasks st).
Proof.
  intros Hwf. unfold run_microtasks. apply for_each_run_kont_wf.
  - destruct Hwf. constructor; simpl; auto.
    + intros p k o H. inversion H.
    + constructor.
  - reflexivity.
  - intros p k o H. simpl. apply (wf_queue _ Hwf) in H as [H _]. eauto.
Qed.

Lemma keepalive_wf : keeps wf_kept keepalive.
Proof.
  intros st Hwf. destruct (keepalive_state st) as [-> | [_ ->]]; [exact Hwf | ].
  revert Hwf. wf_by_frame. intros i m ps [H | H]%elem_of_app; [assumption | ].
  apply list_elem_of_singleton in H. discriminate.
Qed.

Lemma handle_wf ev : keeps wf_kept (handle ev).
Proof.
  destruct ev; simpl; unfold unit_.
  - apply keeps_bind; [apply _ | apply request_wf | intros; apply keeps_ret; apply _].
  - apply keeps_bind; [apply _ | apply notify_wf | intros; apply keeps_ret; apply _].
  - intros st. unfold bind, on, modify. simpl. wf_by_frame.
  - intros st. unfold bind, off, modify. simpl. wf_by_frame.
  - intros st Hwf. unfold initialize.
    pose proof (request_wf "initialize" params None st Hwf) as H.
    destruct (request "initialize" params None st) as [st1 [p | e]] eqn:Hr; [ | exact H].
    cbn [fst]. eapply request_then_await; [exact Hwf | exact Hr].
  - intros st Hwf. unfold initialized.
    pose proof (notify_wf "initialized" (Some (JObj [])) st Hwf) as H.
    destruct (notify _ _ st) as [st1 [ | ]]; exact H.
  - intros st Hwf. unfold shutdown.
    pose proof (request_wf "shutdown" None None st Hwf) as H.
    destruct (request "shutdown" None None st) as [st1 [p | e]] eqn:Hr.
    + cbn [fst]. eapply request_then_await; [exact Hwf | exact Hr].
    + pose proof (resume_wf KShutdown (Rejected e) st1 H) as H'. simpl in H'.
      rewrite <- completion_fst in H'.
      destruct (completion (shutdown_resume (Rejected e) st1)) as [st2 o]. exact H'.
  - apply keeps_bind; [apply _ | apply handleMessage_wf | intros; apply keeps_ret; apply _].
  - apply keeps_bind; [apply _ | apply fire_timer_wf | intros; apply keeps_ret; apply _].
  - apply keeps_bind; [apply _ | apply fire_abort_wf | intros; apply keeps_ret; apply _].
  - intros st. unfold bind, modify. simpl. wf_by_frame.
  - apply keeps_bind; [apply _ | apply keepalive_wf | intros; apply keeps_ret; apply _].
Qed.

Lemma step_wf ev st : wf st -> wf (fst (step ev st)).
Proof.
  intros Hwf. unfold step. pose proof (handle_wf ev st Hwf) as H.
  destruct (handle ev st) as [st1 r]. simpl in *. by apply run_microtasks_wf.
Qed.

Lemma step_microtasks ev st : microtasks (fst (step ev st)) = [].
Proof.
  unfold step. destruct (handle ev st) as [st1 r]. simpl.
  apply run_microtasks_frame.
Qed.

Lemma run_wf tr st : wf st -> wf (run tr st).
Proof.
  revert st. induction tr as [ | ev tr IH]; intros st Hwf; simpl; [exact Hwf | ].
  apply IH. by apply step_wf.
Qed.

Lemma run_microtasks_nil tr st : microtasks st = [] -> microtasks (run tr st) = [].
Proof.
  revert st. induction tr as [ | ev tr IH]; intros st Hq; simpl; [exact Hq | ].
  apply IH, step_microtasks.
Qed.

Lemma reachable_wf st : reachable st -> wf st.
Proof. intros (tm & tr & ->). apply run_wf, wf_new. Qed.

Lemma reachable_microtasks st : reachable st -> microtasks st = [].
Proof. intros (tm & tr & ->). by apply run_microtasks_nil. Qed.

Lemma reachable_run tr st : reachable st -> reachable (run tr st).
Proof.
  intros (tm & tr0 & ->). exists tm, (tr0 ++ tr)%list. by rewrite run_app.
Qed.

Lemma reachable_new tm : reachable (new_JsonRpc tm).
Proof. exists tm, []. reflexivity. Qed.

Lemma reachable_client : reachable createLspClient.
Proof.
  exists None,
    [CallOn "window/showMessage" {| h_id := 0; h_raises := false |};
     CallOn "textDocument/publishDiagnostics" {| h_id := 1; h_raises := false |};
     CallOn "client/registerCapability" {| h_id := 2; h_raises := false |}].
  reflexivity.
Qed.

(** ** The claims *)

(** *** Request ids *)

(** C8.  In a session, after any trace of events, a call to [request]
    takes as its id the value of the counter: one more than the number
    of calls made before, so 1 for the first call, positive, and above
    every id given out earlier; the id is not on the wire and not in
    the pending table yet, and when the socket is open the call writes
    it into its Request and files the entry under it.  The caller
    passes no id ([request] has no such argument), and of all events
    only those that call [request] move the counter, by one. *)
Theorem request_ids_count_up
    (tm : option Z) (tr : list event) (m : string) (ps : jsval) (sg : option nat) :
  let st := run tr (new_JsonRpc tm) in
  let st' := fst (request m ps sg st) in
  _id (new_JsonRpc tm) = 1
  /\ _id st = 1 + request_calls tr
  /\ 0 <= request_calls tr
  /\ _id st' = _id st + 1
  /\ (forall i m' ps', Request i m' ps' ∈ wire st -> 1 <= i < _id st)
  /\ (forall i e, _pending st !! i = Some e -> 1 <= i < _id st)
  /\ match snd (request m ps sg st) with
     | Ok p =>
         wire st' = (wire st ++ [Request (_id st) m ps])%list /\
         _pending st' !! _id st =
           Some {| resolve := p; reject := p; timer := next_timer st; method := m |}
     | Throw _ => wire st' = wire st /\ _pending st' = _pending st
     end
  /\ (forall ev, _id (fst (step ev st)) = _id st + (if calls_request ev then 1 else 0)).
Proof.
  intros st st'.
  assert (Hwf : wf st) by apply run_wf, wf_new.
  assert (Hcalls : 0 <= request_calls tr).
  { clear. induction tr as [ | ev tr IH]; simpl; [lia | ]. destruct (calls_request ev); lia. }
  split; [reflexivity | ].
  split; [unfold st; rewrite run_id; reflexivity | ].
  split; [exact Hcalls | ].
  split; [apply request_id | ].
  split; [apply (wf_wire _ Hwf) | ].
  split; [intros i e H; apply (wf_pending _ Hwf i e H) | ].
  split; [ | intros ev; apply step_id].
  unfold st'. destruct (request_cases m ps sg st) as [[_ ->] | [_ ->]]; simpl.
  - split; [reflexivity | ]. by rewrite lookup_insert_eq.
  - split; reflexivity.
Qed.

(** *** A request on a socket that is not open *)

(** C10.  When the socket is not OPEN, a call to [request] throws (the
    caller gets the exception, not a promise); the pending table, the
    timers and the promises are as before and nothing was written; the
    counter has advanced by one; and whatever happens next, the id the
    call took is never written in a Request and never pending. *)
Theorem request_on_closed_socket
    (st : state) (m : string) (ps : jsval) (sg : option nat) (tr : list event)
    (Hreach : reachable st) (Hclosed : _ws st <> Some OPEN) :
  let st' := fst (step (CallRequest m ps sg) st) in
  snd (step (CallRequest m ps sg) st) = Throw (JsError "WebSocket not open" None None)
  /\ _pending st' = _pending st
  /\ timers st' = timers st /\ next_timer st' = next_timer st
  /\ promises st' = promises st /\ next_promise st' = next_promise st
  /\ signals st' = signals st
  /\ wire st' = wire st
  /\ _id st' = _id st + 1
  /\ (forall m' ps', Request (_id st) m' ps' ∉ wire (run tr st'))
  /\ _pending (run tr st') !! _id st = None.
Proof.
  intros st'.
  pose proof (reachable_wf st Hreach) as Hwf.
  pose proof (reachable_microtasks st Hreach) as Hq.
  assert (Hst' : st' = set_id (_id st + 1) st /\
                 snd (step (CallRequest m ps sg) st) =
                   Throw (JsError "WebSocket not open" None None)).
  { unfold st', step, handle, bind. rewrite (request_closed m ps sg st Hclosed).
    unfold run_microtasks. simpl. rewrite Hq. simpl. split; [ | reflexivity].
    destruct st; simpl in *; subst; reflexivity. }
  destruct Hst' as [Hst' Hres]. rewrite Hst'.
  split; [exact Hres | ]. simpl. repeat (split; [reflexivity | ]).
  pose proof (run_evolves tr (set_id (_id st + 1) st)) as Hev.
  destruct Hev as [_ _ (w & Hw & Hreq) _ Hpend _ _]. simpl in *.
  split.
  - intros m' ps' Hin. rewrite Hw in Hin. apply elem_of_app in Hin as [Hin | Hin].
    + apply (wf_wire _ Hwf) in Hin. lia.
    + apply Hreq in Hin. lia.
  - apply Hpend; [lia | ]. by apply wf_fresh_id.
Qed.

Definition closed_session : state := new_JsonRpc None.

Lemma request_on_closed_socket_witness :
  snd (step (CallRequest "textDocument/hover" None None) closed_session)
    = Throw (JsError "WebSocket not open" None None)
  /\ _id (fst (step (CallRequest "textDocument/hover" None None) closed_session)) = 2
  /\ _pending
       (run [Socket (Some OPEN); CallRequest "textDocument/hover" None None]
          (fst (step (CallRequest "textDocument/hover" None None) closed_session)))
       !! 1 = None.
Proof.
  pose proof (request_on_closed_socket closed_session "textDocument/hover" None None
                [Socket (Some OPEN); CallRequest "textDocument/hover" None None]
                (reachable_new None) ltac:(discriminate)) as H.
  simpl in H. destruct H as (H1 & _ & _ & _ & _ & _ & _ & _ & H2 & _ & H3).
  split; [exact H1 | split; [exact H2 | exact H3]].
Defined.

(** *** One turn that settles one request *)

Lemma run_microtasks_idle st : microtasks st = [] -> run_microtasks st = st.
Proof.
  intros H. unfold run_microtasks. rewrite H. simpl.
  destruct st; simpl in *; subst; reflexivity.
Qed.

(** The session after a turn whose handler finished the pending
    request [i]: the entry and its timer are gone, its promise holds
    [o], and no other entry, timer or promise has changed. *)
Lemma step_finished ev st i e o r :
  wf st -> _pending st !! i = Some e ->
  handle ev st = (finish i (timer e) (reject e) o st, r) ->
  let st' := fst (step ev st) in
  snd (step ev st) = r
  /\ _pending st' = delete i (_pending st)
  /\ timers st' = delete (timer e) (timers st)
  /\ promises st' = <[reject e := o]> (promises st)
  /\ promises st !! reject e = None
  /\ is_Some (timers st !! timer e)
  /\ _id st' = _id st /\ _ws st' = _ws st /\ signals st' = signals st.
Proof.
  intros Hwf Hi Hh. unfold step. rewrite Hh. simpl.
  destruct (wf_pending _ Hwf i e Hi) as (_ & _ & _ & Hp & Ht).
  destruct (run_microtasks_frame (finish i (timer e) (reject e) o st))
    as (H1 & H2 & _ & _ & H5 & H6 & _ & H8 & _ & H10 & _).
  rewrite H1, H2, H5, H6, H8, H10. rewrite finish_live by assumption. simpl.
  rewrite Ht. repeat split; eauto.
Qed.

Lemma handleMessage_object fs : _handleMessage (Parsed (JObj fs)) = handle_one (JObj fs).
Proof. reflexivity. Qed.

Lemma handle_response i e msg st :
  wf st -> response_for i msg -> error_raises msg = false -> _pending st !! i = Some e ->
  handle (Message (Parsed msg)) st =
    (finish i (timer e) (reject e) (settlement msg) st, Ok RUnit).
Proof.
  intros Hwf Hmsg Hok Hi.
  destruct (wf_pending _ Hwf i e Hi) as (_ & Hrr & _).
  pose proof (handle_one_response i e msg st Hmsg Hok Hi Hrr) as H.
  destruct Hmsg as (fs & -> & Hid).
  unfold handle, unit_, bind. rewrite handleMessage_object, H. reflexivity.
Qed.

(** The turn of a response that matches a pending entry and whose
    error cannot be built: the entry and its timer are gone, nothing
    else has changed, and the [TypeError] leaves [_handleMessage]. *)
Lemma step_raising_response i e msg st :
  wf st -> microtasks st = [] -> response_for i msg -> error_raises msg = true ->
  _pending st !! i = Some e ->
  step (Message (Parsed msg)) st = (dropped i (timer e) st, Throw TypeError).
Proof.
  intros Hwf Hq Hmsg Hbad Hi.
  destruct (wf_pending _ Hwf i e Hi) as (_ & Hrr & _).
  pose proof (handle_one_matched i e msg st Hmsg Hi Hrr) as H. rewrite Hbad in H.
  destruct Hmsg as (fs & -> & Hid).
  unfold step, handle, unit_, bind. rewrite handleMessage_object, H.
  rewrite run_microtasks_idle; [reflexivity | exact Hq].
Qed.

Lemma handle_timer t cb st :
  timers st !! t = Some cb ->
  handle (TimerFired t) st =
    (finish (t_id cb) t (t_reject cb)
       (Rejected (JsError ("RPC timeout for " +:+ t_method cb) None None)) st, Ok RUnit).
Proof.
  intros Ht. unfold handle, unit_, bind. rewrite (fire_timer_finish t cb st Ht). reflexivity.
Qed.

(** A payload with an own [id] that matches no pending entry: the turn
    changes nothing and raises nothing. *)
Lemma step_unmatched fs st :
  microtasks st = [] ->
  is_Some (assoc "id" fs) -> pending_get (assoc "id" fs) st = None ->
  step (Message (Parsed (JObj fs))) st = (st, Ok RUnit).
Proof.
  intros Hq Hid Hp. unfold step, handle, unit_, bind. rewrite handleMessage_object.
  rewrite (handle_one_unmatched fs st Hid Hp). simpl.
  by rewrite run_microtasks_idle.
Qed.

(** An id that is spent (below the counter) and not pending stays so. *)
Lemma spent_id_stays tr st i :
  i < _id st -> _pending st !! i = None -> _pending (run tr st) !! i = None.
Proof. intros Hi Hn. by apply (ev_pending _ _ (run_evolves tr st)). Qed.

Lemma late_response_dropped tr st i msg :
  wf st -> microtasks st = [] -> i < _id st -> _pending st !! i = None ->
  response_for i msg ->
  step (Message (Parsed msg)) (run tr st) = (run tr st, Ok RUnit).
Proof.
  intros Hwf Hq Hi Hn (fs & -> & Hid).
  apply step_unmatched.
  - by apply run_microtasks_nil.
  - rewrite Hid. eauto.
  - rewrite Hid. simpl. by apply spent_id_stays.
Qed.

(** A promise that is settled keeps its outcome. *)
Lemma settled_stays tr st p o :
  promises st !! p = Some o -> promises (run tr st) !! p = Some o.
Proof.
  intros H. eapply lookup_weaken; [exact H | ]. apply (ev_promises _ _ (run_evolves tr st)).
Qed.

(** *** Timeout *)

(** C3.  Take a pending request of a session.  Its timer is running,
    set to the timeout window ([opts.timeoutMs], 10000 by default).
    When that timer fires (no response, no cancellation came first),
    the entry is removed and the promise, unsettled until then, is
    rejected with the timeout failure; this reads no transport state,
    so it holds whatever state the socket is in.  A response bearing
    that id, whenever it arrives later, changes nothing and raises
    nothing; and so does, in any reachable state, any payload whose
    [id] matches no pending entry. *)
Theorem timeout_rejects_and_late_response_is_ignored
    (tm : option Z) (tr0 : list event) (i : Z) (e : entry) :
  let st := run tr0 (new_JsonRpc tm) in
  _pending st !! i = Some e ->
  let st' := fst (step (TimerFired (timer e)) st) in
  timers st !! timer e =
    Some {| t_id := i; t_reject := reject e; t_method := method e;
            t_delay := default 10000 tm |}
  /\ snd (step (TimerFired (timer e)) st) = Ok RUnit
  /\ _pending st' = delete i (_pending st)
  /\ timers st' = delete (timer e) (timers st)
  /\ promises st !! reject e = None
  /\ promises st' !! reject e =
       Some (Rejected (JsError ("RPC timeout for " +:+ method e) None None))
  /\ wire (fst (handle (TimerFired (timer e)) st)) = wire st
  /\ (forall tr msg, response_for i msg ->
        step (Message (Parsed msg)) (run tr st') = (run tr st', Ok RUnit))
  /\ (forall tr fs, is_Some (assoc "id" fs) ->
        pending_get (assoc "id" fs) (run tr st) = None ->
        step (Message (Parsed (JObj fs))) (run tr st) = (run tr st, Ok RUnit)).
Proof.
  intros st Hi st'.
  assert (Hwf : wf st) by apply run_wf, wf_new.
  assert (Hq : forall tr, microtasks (run tr st) = []).
  { intros tr. apply run_microtasks_nil. unfold st. by apply run_microtasks_nil. }
  destruct (wf_pending _ Hwf i e Hi) as (Hir & _ & _ & Hp & Ht).
  assert (Htm : timeoutMs st = default 10000 tm).
  { unfold st. rewrite (ev_timeoutMs _ _ (run_evolves tr0 (new_JsonRpc tm))). reflexivity. }
  rewrite Htm in Ht.
  pose proof (handle_timer _ _ st Ht) as Hh. cbn [t_id t_reject t_method] in Hh.
  destruct (step_finished (TimerFired (timer e)) st i e _ _ Hwf Hi Hh)
    as (H1 & H2 & H3 & H4 & _ & _ & H7 & _).
  fold st' in H2, H3, H4, H7.
  split; [exact Ht | ]. split; [exact H1 | ]. split; [exact H2 | ].
  split; [exact H3 | ]. split; [exact Hp | ].
  split; [rewrite H4; apply lookup_insert_eq | ].
  split; [rewrite Hh; simpl; by rewrite finish_live | ].
  split.
  - intros tr msg Hmsg. apply (late_response_dropped tr st' i msg); auto.
    + apply step_wf, Hwf.
    + apply step_microtasks.
    + lia.
    + rewrite H2. apply lookup_delete_eq.
  - intros tr fs Hid Hn. apply step_unmatched; auto.
Qed.

Definition one_request_sent : state :=
  run [Socket (Some OPEN); CallRequest "textDocument/hover" None None] (new_JsonRpc None).

Lemma timeout_rejects_and_late_response_is_ignored_witness :
  promises (fst (step (TimerFired 0) one_request_sent)) !! 0%nat =
    Some (Rejected (JsError "RPC timeout for textDocument/hover" None None))
  /\ step (Message (Parsed (JObj [("jsonrpc", JStr "2.0"); ("id", JNum 1); ("result", JNull)])))
       (run [Socket None] (fst (step (TimerFired 0) one_request_sent)))
     = (run [Socket None] (fst (step (TimerFired 0) one_request_sent)), Ok RUnit).
Proof.
  pose proof (timeout_rejects_and_late_response_is_ignored None
                [Socket (Some OPEN); CallRequest "textDocument/hover" None None] 1
                {| resolve := 0; reject := 0; timer := 0; method := "textDocument/hover" |}
                ltac:(reflexivity)) as H.
  destruct H as (_ & _ & _ & _ & _ & H1 & _ & H2 & _).
  split; [exact H1 | ].
  apply (H2 [Socket None]). eexists. split; reflexivity.
Defined.

(** *** A response that matches a pending entry *)





Definition method_not_found_response : list (string * json) :=
  [("jsonrpc", JStr "2.0"); ("id", JNum 1);
   ("error", JObj [("code", JNum (-32601)); ("message", JStr "Method not found")])].

Definition unprintable_error_response : list (string * json) :=
  [("jsonrpc", JStr "2.0"); ("id", JNum 1);
   ("error", JObj [("code", JNum 1); ("message", JObj [("toString", JNum 1)])])].


(** *** A server request whose id matches a pending entry *)

Definition server_request : json :=
  JObj [("jsonrpc", JStr "2.0"); ("id", JNum 1);
        ("method", JStr "workspace/configuration");
        ("params", JObj [("items", JArr [])])].

Definition client_one_request : state :=
  run [Socket (Some OPEN); CallRequest "textDocument/hover" None None] createLspClient.

(** C4 fails on the code.  The client has sent request 1 and is waiting;
    the server sends a request of its own, with a method nobody
    subscribed to and with id 1.  The payload has an [id], so
    [_handleMessage] takes it for the response: the entry is removed,
    its timer cleared and the client's promise resolved with
    [undefined]. *)
Theorem server_request_settles_pending_entry :
  let st := client_one_request in
  let st' := fst (step (Message (Parsed server_request)) st) in
  _handlers st !! "workspace/configuration" = None
  /\ _pending st !! 1 =
       Some {| resolve := 0; reject := 0; timer := 0; method := "textDocument/hover" |}
  /\ promises st !! 0%nat = None
  /\ snd (step (Message (Parsed server_request)) st) = Ok RUnit
  /\ _pending st' !! 1 = None
  /\ timers st' !! 0%nat = None
  /\ promises st' !! 0%nat = Some (Resolved None).
Proof. repeat split; reflexivity. Qed.

(** What does hold of a payload with a method nobody subscribed to:
    when it has no [id], or an [id] that matches no pending entry, the
    turn changes nothing and raises nothing. *)
Lemma unsubscribed_method_ignored (st : state) (fs : list (string * json)) (m : string) :
  microtasks st = [] ->
  assoc "method" fs = Some (JStr m) ->
  default [] (_handlers st !! m) = [] ->
  pending_get (assoc "id" fs) st = None ->
  step (Message (Parsed (JObj fs))) st = (st, Ok RUnit).
Proof.
  intros Hq Hm Hh Hp.
  destruct (assoc "id" fs) as [v | ] eqn:Hid.
  - apply step_unmatched; rewrite ?Hid; eauto.
  - unfold step, handle, unit_, _handleMessage, bind. simpl dispatch.
    unfold handle_one, bind, hasOwnProperty, ret, get. rewrite Hid, Hm.
    rewrite bool_decide_eq_false_2 by (intros [? ?]; discriminate).
    destruct (truthy (Some (JStr m)));
      unfold _emit; rewrite ?Hh; simpl; by rewrite run_microtasks_idle.
Qed.

(** *** The text sync kind *)

Definition SyncFull : json := JNum 1.
Definition SyncIncremental : json := JNum 2.

(** What [initialize] does with the result [res] of its request: the
    capabilities are stored, and the kind is taken from a number, or
    from the [change] of an object that has one; in every other case
    the kind is left as it was. *)
Lemma sync_kind_derivation (st : state) (res : jsval) :
  let st' := fst (initialize_resume (Resolved res) st) in
  let r := snd (initialize_resume (Resolved res) st) in
  match prop res "capabilities" with
  | Throw err => r = Throw err /\ st' = st
  | Ok caps =>
      serverCapabilities st' = or_else caps (JObj []) /\
      match get (or_else caps (JObj [])) "textDocumentSync" with
      | Some (JNum n) => serverSyncKind st' = JNum n /\ r = Ok res
      | Some (JObj sfs) =>
          r = Ok res /\
          serverSyncKind st' =
            match assoc "change" sfs with
            | Some JNull | None => serverSyncKind st
            | Some c => c
            end
      | Some JNull => r = Throw TypeError /\ serverSyncKind st' = serverSyncKind st
      | _ => r = Ok res /\ serverSyncKind st' = serverSyncKind st
      end
  end.
Proof.
  unfold initialize_resume, bind, lift, modify. simpl.
  destruct (prop res "capabilities") as [caps | err]; simpl; [ | auto].
  destruct (get (or_else caps (JObj [])) "textDocumentSync")
    as [[ | b | n | s | xs | sfs] | ]; simpl; auto.
  destruct (assoc "change" sfs) as [[ | | | | | ] | ]; simpl; auto.
Qed.

Definition initialize_result (caps : json) : json :=
  JObj [("jsonrpc", JStr "2.0"); ("id", JNum 1);
        ("result", JObj [("capabilities", caps)])].

(** On a client that has derived no kind yet, the three cases of C7
    hold: 2 gives Incremental, [{change: 1}] gives Full, and with no
    [textDocumentSync] the kind is the Full the client was created
    with. *)
Lemma first_initialize_kinds :
  let st := run [Socket (Some OPEN); CallInitialize None] createLspClient in
  serverSyncKind
    (fst (step (Message (Parsed (initialize_result (JObj [("textDocumentSync", JNum 2)])))) st))
    = SyncIncremental
  /\ serverSyncKind
       (fst (step (Message (Parsed (initialize_result
                (JObj [("textDocumentSync", JObj [("change", JNum 1)])])))) st))
     = SyncFull
  /\ serverSyncKind (fst (step (Message (Parsed (initialize_result (JObj [])))) st))
     = SyncFull.
Proof. repeat split; reflexivity. Qed.

Definition second_initialize_result : json :=
  JObj [("jsonrpc", JStr "2.0"); ("id", JNum 2);
        ("result", JObj [("capabilities", JObj [("hoverProvider", JBool true)])])].

(** C7 fails on the code when a client initializes a second time.  The
    first server answers [textDocumentSync = 2]; after a reconnect the
    second server answers capabilities without [textDocumentSync].
    The second [initialize] succeeds and stores the new capabilities,
    and the kind is still Incremental, not Full: the default is only
    the variable's initial value, nothing sets it on this path. *)
Theorem reinitialize_keeps_previous_kind :
  let st1 :=
    run [Socket (Some OPEN); CallInitialize None;
         Message (Parsed (initialize_result (JObj [("textDocumentSync", JNum 2)])));
         Socket None; Socket (Some OPEN)] createLspClient in
  let call := step (CallInitialize None) st1 in
  let st2 := fst (step (Message (Parsed second_initialize_result)) (fst call)) in
  serverSyncKind st1 = SyncIncremental
  /\ snd call = Ok (RAsync 1)
  /\ async_results st2 !! 1%nat =
       Some (Resolved (Some (JObj [("capabilities", JObj [("hoverProvider", JBool true)])])))
  /\ serverCapabilities st2 = JObj [("hoverProvider", JBool true)]
  /\ get (serverCapabilities st2) "textDocumentSync" = None
  /\ serverSyncKind st2 = SyncIncremental.
Proof. repeat split; reflexivity. Qed.

(** *** Several requests in flight *)

(** A list of responses handled one after the other, each by a
    computation [g] that finishes the pending request its [id] names
    with what the response, as [g] sees it ([view]), says.  The two
    instances are the elements of a batch inside one turn, seen
    through [JSON.stringify], and frames that arrive in turns of their
    own. *)
Section Settling.
Variable g : json -> Js unit.
Variable view : json -> json.
Hypothesis g_spec : forall st i e a,
  wf st -> _pending st !! i = Some e -> response_for i a -> error_raises a = false ->
  exists st1, g a st = (st1, Ok tt) /\ wf st1 /\
    _pending st1 = delete i (_pending st) /\
    promises st1 = <[reject e := settlement (view a)]> (promises st) /\
    timers st1 = delete (timer e) (timers st).

Lemma for_each_settles (targets : list (Z * nat * json)) (st : state) :
  wf st ->
  NoDup targets.*1.*1 ->
  (forall i p a, (i, p, a) ∈ targets ->
     response_for i a /\ error_raises a = false /\
     exists e, _pending st !! i = Some e /\ reject e = p) ->
  exists st', for_each g targets.*2 st = (st', Ok tt) /\ wf st' /\
    _pending st' ⊆ _pending st /\ promises st ⊆ promises st' /\
    timers st' ⊆ timers st /\
    (forall i p a, (i, p, a) ∈ targets ->
       promises st' !! p = Some (settlement (view a)) /\ _pending st' !! i = None /\
       forall e, _pending st !! i = Some e -> timers st' !! timer e = None) /\
    (forall j, j ∉ targets.*1.*1 -> _pending st' !! j = _pending st !! j).
Proof.
  revert st. induction targets as [ | [[i p] a] ts IH]; intros st Hwf Hnd Hall.
  - exists st. simpl. split; [reflexivity | ]. split; [exact Hwf | ].
    do 3 (split; [reflexivity | ]).
    split; [intros i p a H; inversion H | intros; reflexivity].
  - rewrite !fmap_cons in Hnd. simpl in Hnd. apply NoDup_cons in Hnd as [Hnin Hnd].
    destruct (Hall i p a ltac:(left)) as (Hresp & Hok & e & He & Hp).
    destruct (g_spec st i e a Hwf He Hresp Hok) as (st1 & Hg & Hwf1 & Hpend & Hprom & Htim).
    destruct (wf_pending _ Hwf i e He) as (_ & _ & _ & Hunset & _).
    destruct (IH st1 Hwf1 Hnd) as (st' & Hfe & Hwf' & Hsub1 & Hsub2 & Hsub3 & Htargets & Hothers).
    { intros j q b Hin. destruct (Hall j q b ltac:(by right)) as (Hrj & Hokj & ej & Hej & Hq).
      split; [exact Hrj | ]. split; [exact Hokj | ]. exists ej. split; [ | exact Hq].
      rewrite Hpend, lookup_delete_ne; [exact Hej | ].
      intros <-. apply Hnin. apply list_elem_of_fmap. exists (i, q). split; [reflexivity | ].
      apply list_elem_of_fmap. exists (i, q, b). split; [reflexivity | exact Hin]. }
    exists st'. simpl. unfold bind. rewrite Hg.
    split; [exact Hfe | ]. split; [exact Hwf' | ].
    split; [etrans; [exact Hsub1 | rewrite Hpend; apply delete_subseteq] | ].
    split; [etrans; [ | exact Hsub2]; rewrite Hprom; by apply insert_subseteq | ].
    split; [etrans; [exact Hsub3 | rewrite Htim; apply delete_subseteq] | ].
    split.
    + intros j q b [Heq | Hin]%elem_of_cons.
      * inversion Heq; subst j q b. split; [ | split].
        -- eapply lookup_weaken; [ | exact Hsub2]. rewrite Hprom, <- Hp. apply lookup_insert_eq.
        -- eapply lookup_weaken_None; [ | exact Hsub1]. rewrite Hpend. apply lookup_delete_eq.
        -- intros e' He'. rewrite He in He'. inversion He'; subst e'.
           eapply lookup_weaken_None; [ | exact Hsub3]. rewrite Htim. apply lookup_delete_eq.
      * destruct (Htargets j q b Hin) as (H1 & H2 & H3). split; [exact H1 | split; [exact H2 | ]].
        intros e' He'. apply H3. rewrite Hpend, lookup_delete_ne; [exact He' | ].
        intros <-. apply Hnin. apply list_elem_of_fmap. exists (i, q). split; [reflexivity | ].
        apply list_elem_of_fmap. exists (i, q, b). split; [reflexivity | exact Hin].
    + intros j Hj. simpl in Hj.
      apply not_elem_of_cons in Hj as [Hji Hj].
      rewrite (Hothers j Hj), Hpend. by rewrite lookup_delete_ne.
Qed.
End Settling.

(** [JSON.stringify] and the parse after it keep what the code reads
    of a response. *)
Lemma ToString_raises_reparse (v : json) : ToString_raises (reparse v) = ToString_raises v.
Proof.
  induction v as [ | b | x | s | xs IH | fs] using json_ind; try reflexivity.
  - destruct x; reflexivity.
  - simpl. induction IH as [ | y ys Hy _ IHys]; [reflexivity | ].
    simpl. by rewrite Hy, IHys.
  - simpl. rewrite assoc_reparse. destruct (assoc "toString" fs); reflexivity.
Qed.

Lemma or_else_reparse (v : jsval) (s : string) :
  ToString_raises (or_else (reparse <$> v) (JStr s)) = ToString_raises (or_else v (JStr s)).
Proof.
  destruct v as [[ | b | [n | m e | neg] | s' | xs | fs] | ]; try reflexivity;
    try (simpl; repeat case_match; reflexivity).
  - apply (ToString_raises_reparse (JArr xs)).
  - apply (ToString_raises_reparse (JObj fs)).
Qed.

Lemma error_raises_reparse (msg : json) : error_raises (reparse msg) = error_raises msg.
Proof.
  unfold error_raises. rewrite get_reparse.
  destruct (get msg "error") as [err | ]; [ | reflexivity]. simpl.
  destruct err as [ | b | [n | m e | neg] | s | xs | fs]; try reflexivity;
    try (simpl; repeat case_match; reflexivity).
  - simpl. rewrite assoc_reparse. apply or_else_reparse.
Qed.

Lemma response_for_reparse (i : Z) (msg : json) :
  response_for i msg -> response_for i (reparse msg).
Proof.
  intros (fs & -> & Hid). eexists. split; [reflexivity | ].
  rewrite assoc_reparse, Hid. reflexivity.
Qed.

Lemma handleMessage_response st (i : Z) e a :
  wf st -> _pending st !! i = Some e -> response_for i a -> error_raises a = false ->
  exists st1, _handleMessage (Parsed a) st = (st1, Ok tt) /\ wf st1 /\
    _pending st1 = delete i (_pending st) /\
    promises st1 = <[reject e := settlement a]> (promises st) /\
    timers st1 = delete (timer e) (timers st).
Proof.
  intros Hwf He Hresp Hok.
  destruct (wf_pending _ Hwf i e He) as (_ & Hrr & _ & Hp & _).
  pose proof (handle_one_response i e a st Hresp Hok He Hrr) as H.
  pose proof (handle_one_wf a st Hwf) as Hwf1.
  destruct Hresp as (fs & -> & Hid). rewrite handleMessage_object. rewrite H in Hwf1 |- *.
  eexists. split; [reflexivity | ]. split; [exact Hwf1 | ].
  rewrite finish_live by assumption. simpl. auto.
Qed.

(** A batch element, which goes through [JSON.stringify]. *)
Lemma element_response_spec st (i : Z) e a :
  wf st -> _pending st !! i = Some e -> response_for i a -> error_raises a = false ->
  exists st1, _handleMessage (Parsed (reparse a)) st = (st1, Ok tt) /\ wf st1 /\
    _pending st1 = delete i (_pending st) /\
    promises st1 = <[reject e := settlement (reparse a)]> (promises st) /\
    timers st1 = delete (timer e) (timers st).
Proof.
  intros Hwf He Hresp Hok. apply handleMessage_response; auto.
  - by apply response_for_reparse.
  - by rewrite error_raises_reparse.
Qed.

(** A frame of its own, as a computation: its turn, raising what it raises. *)
Definition turn (a : json) : Js unit :=
  fun st =>
    match step (Message (Parsed a)) st with
    | (st', Ok _) => (st', Ok tt)
    | (st', Throw e) => (st', Throw e)
    end.

Lemma turn_response_spec st i e a :
  wf st -> _pending st !! i = Some e -> response_for i a -> error_raises a = false ->
  exists st1, turn a st = (st1, Ok tt) /\ wf st1 /\
    _pending st1 = delete i (_pending st) /\
    promises st1 = <[reject e := settlement a]> (promises st) /\
    timers st1 = delete (timer e) (timers st).
Proof.
  intros Hwf He Hresp Hok.
  pose proof (handle_response i e a st Hwf Hresp Hok He) as Hh.
  destruct (step_finished _ st i e _ _ Hwf He Hh) as (H1 & H2 & H3 & H4 & _).
  pose proof (step_wf (Message (Parsed a)) st Hwf) as Hwf1.
  unfold turn. destruct (step (Message (Parsed a)) st) as [st1 r]. simpl in *. subst r.
  exists st1. auto.
Qed.

Definition deliver (msgs : list json) : list event :=
  map (fun a => Message (Parsed a)) msgs.

Lemma for_each_turn_run msgs st st' :
  for_each turn msgs st = (st', Ok tt) -> run (deliver msgs) st = st'.
Proof.
  revert st. induction msgs as [ | a msgs IH]; intros st H; simpl in *.
  - by inversion H.
  - unfold bind, turn in H. destruct (step (Message (Parsed a)) st) as [st1 [r | e]];
      simpl; [by apply IH | discriminate].
Qed.

(** Calling [request] for each element of a list, with the id and the
    promise of every call that returned one. *)
Fixpoint issue (reqs : list (string * jsval * option nat)) (st : state)
  : state * list (Z * nat) :=
  match reqs with
  | [] => (st, [])
  | (m, ps, sg) :: reqs' =>
      match step (CallRequest m ps sg) st with
      | (st1, Ok (RPromise p)) =>
          let '(st2, issued) := issue reqs' st1 in (st2, (_id st, p) :: issued)
      | (st1, _) => issue reqs' st1
      end
  end.

Lemma step_request_open m ps sg st :
  microtasks st = [] -> _ws st = Some OPEN ->
  step (CallRequest m ps sg) st = (requested m ps sg st, Ok (RPromise (next_promise st))).
Proof.
  intros Hq Hopen. unfold step, handle, bind. rewrite (request_open m ps sg st Hopen).
  simpl. rewrite run_microtasks_idle; [reflexivity | exact Hq].
Qed.

Lemma issue_spec reqs st :
  wf st -> microtasks st = [] -> _ws st = Some OPEN ->
  let st1 := fst (issue reqs st) in
  let issued := snd (issue reqs st) in
  wf st1 /\ microtasks st1 = [] /\
  issued.*1 = seqZ (_id st) (Z.of_nat (length reqs)) /\
  issued.*2 = seq (next_promise st) (length reqs) /\
  (forall j, j < _id st -> _pending st1 !! j = _pending st !! j) /\
  (forall i p, (i, p) ∈ issued ->
     exists e, _pending st1 !! i = Some e /\ reject e = p).
Proof.
  revert st. induction reqs as [ | [[m ps] sg] reqs IH]; intros st Hwf Hq Hopen.
  - simpl. split; [exact Hwf | ]. split; [exact Hq | ].
    do 2 (split; [reflexivity | ]).
    split; [intros; reflexivity | intros i p H; inversion H].
  - simpl issue. rewrite (step_request_open m ps sg st Hq Hopen).
    specialize (IH (requested m ps sg st) (wf_requested m ps sg st Hwf) Hq Hopen).
    destruct (issue reqs (requested m ps sg st)) as [st2 issued]. simpl in IH |- *.
    destruct IH as (Hwf2 & Hq2 & Hids & Hps & Hold & Hall).
    split; [exact Hwf2 | ]. split; [exact Hq2 | ].
    split.
    { change (_id st :: issued.*1 = seqZ (_id st) (Z.of_nat (S (length reqs)))).
      rewrite Nat2Z.inj_succ, seqZ_cons by lia. rewrite Hids. f_equal; f_equal; lia. }
    split.
    { change (next_promise st :: issued.*2 =
                next_promise st :: seq (S (next_promise st)) (length reqs)).
      by rewrite Hps. }
    split.
    + intros j Hj. rewrite Hold by lia. by rewrite lookup_insert_ne by lia.
    + intros i p [Heq | Hin]%elem_of_cons; [ | by apply Hall].
      inversion Heq; subst i p. rewrite Hold by lia. rewrite lookup_insert_eq.
      eexists. split; reflexivity.
Qed.

Lemma fmap_Permutation_inv {A B} (f : A -> B) (l1 : list B) (l2 : list A) :
  l1 ≡ₚ f <$> l2 -> exists l3, l1 = f <$> l3 /\ l2 ≡ₚ l3.
Proof. apply (Permutation_map_inv f). Qed.

Lemma elem_of_zip_lookup {A B} (l : list A) (k : list B) (x : A) (y : B) :
  (x, y) ∈ zip l k <-> exists n, l !! n = Some x /\ k !! n = Some y.
Proof.
  rewrite list_elem_of_lookup. split.
  - intros (n & Hn). apply lookup_zip_with_Some in Hn as (x' & y' & Heq & Hx & Hy).
    inversion Heq; subst. eauto.
  - intros (n & Hx & Hy). exists n. apply lookup_zip_with_Some. eauto.
Qed.

(** C1.  Issue any number of requests on an open socket, from any
    reachable state; each call returns a promise, unsettled, and takes
    an id of its own.  Let one response per request arrive, in any
    order; a response is any payload object bearing the id, with a
    result, or with an error whose message can be made a string (as
    that of a Response is, being a string: [string_message_builds]).
    Then every promise stays
    unsettled as long as the response bearing its own request's id has
    not arrived, whatever other responses have; once all have arrived
    it holds what its own response says ([settlement], a function of
    that response alone) and its entry is gone; and no later event
    changes that outcome.  Each promise settles once, and no response
    settles the promise of another id. *)
Theorem concurrent_requests_settle_independently
    (st : state) (reqs : list (string * jsval * option nat))
    (answers order : list json) (tr : list event)
    (Hreach : reachable st) (Hopen : _ws st = Some OPEN)
    (Hanswers : Forall2 (fun ip a => response_for (fst ip) a) (snd (issue reqs st)) answers)
    (Hbuilt : Forall (fun a => error_raises a = false) answers)
    (Horder : order ≡ₚ answers) :
  let st1 := fst (issue reqs st) in
  let issued := snd (issue reqs st) in
  let st2 := run (deliver order) st1 in
  length issued = length reqs
  /\ NoDup issued.*1 /\ NoDup issued.*2
  /\ forall k i p a, issued !! k = Some (i, p) -> answers !! k = Some a ->
       (exists e, _pending st1 !! i = Some e /\ resolve e = p /\ reject e = p)
       /\ promises st1 !! p = None
       /\ (forall pre post, order = (pre ++ post)%list -> a ∉ pre ->
             promises (run (deliver pre) st1) !! p = None)
       /\ promises st2 !! p = Some (settlement a)
       /\ _pending st2 !! i = None
       /\ promises (run tr st2) !! p = Some (settlement a).
Proof.
  intros st1 issued st2.
  pose proof (reachable_wf st Hreach) as Hwf.
  pose proof (reachable_microtasks st Hreach) as Hq.
  destruct (issue_spec reqs st Hwf Hq Hopen) as (Hwf1 & Hq1 & Hids & Hps & _ & Hall).
  fold st1 in Hwf1, Hq1, Hall. fold issued in Hids, Hps, Hall, Hanswers.
  assert (Hlen : length issued = length reqs).
  { rewrite <- (length_fmap fst issued), Hids, length_seqZ. lia. }
  assert (Hnd1 : NoDup issued.*1) by (rewrite Hids; apply NoDup_seqZ).
  assert (Hnd2 : NoDup issued.*2) by (rewrite Hps; apply NoDup_seq).
  split; [exact Hlen | ]. split; [exact Hnd1 | ]. split; [exact Hnd2 | ].
  pose proof (Forall2_length _ _ _ Hanswers) as Hlen2.
  set (targets := zip issued answers).
  assert (Hfst : targets.*1 = issued) by (apply fst_zip; lia).
  assert (Hsnd : targets.*2 = answers) by (apply snd_zip; lia).
  rewrite <- Hsnd in Horder.
  apply fmap_Permutation_inv in Horder as (targets' & -> & Hperm).
  assert (Hnd' : NoDup targets'.*1.*1) by (rewrite <- Hperm, Hfst; exact Hnd1).
  assert (Hin : forall i p a, (i, p, a) ∈ targets' ->
            response_for i a /\ error_raises a = false /\
            exists e, _pending st1 !! i = Some e /\ reject e = p).
  { intros i p a Hin. rewrite <- Hperm in Hin.
    apply elem_of_zip_lookup in Hin as (n & Hn1 & Hn2). split; [ | split].
    - apply (Forall2_lookup_lr _ _ _ n (i, p) a Hanswers Hn1 Hn2).
    - apply (Forall_lookup_1 _ _ _ _ Hbuilt Hn2).
    - apply Hall. by eapply list_elem_of_lookup_2. }
  destruct (for_each_settles turn (fun a => a) turn_response_spec targets' st1 Hwf1 Hnd' Hin) as
    (st' & Hfe & Hwf' & _ & _ & _ & Htargets & _).
  apply for_each_turn_run in Hfe. fold st2 in Hfe. subst st'.
  intros k i p a Hk1 Hk2.
  assert (Hmem : (i, p, a) ∈ targets').
  { rewrite <- Hperm. apply elem_of_zip_lookup. eauto. }
  destruct (Hin i p a Hmem) as (_ & _ & e & He & Hp).
  destruct (wf_pending _ Hwf1 i e He) as (_ & Hrr & _ & Hunset & _).
  destruct (Htargets i p a Hmem) as (H1 & H2 & _).
  split; [exists e; split; [exact He | split; congruence] | ].
  split; [by rewrite <- Hp | ].
  split; [ | split; [exact H1 | split; [exact H2 | by apply settled_stays]]].
  intros pre post Hsplit Hpre.
  apply fmap_app_inv in Hsplit as (tpre & tpost & -> & -> & ->).
  rewrite !fmap_app in Hnd'. apply NoDup_app in Hnd' as (Hndpre & Hdisj & _).
  assert (Hnotin : i ∉ tpre.*1.*1).
  { intros Hi. apply elem_of_app in Hmem as [Hmem | Hmem].
    - apply Hpre. apply list_elem_of_fmap. exists (i, p, a). split; [reflexivity | exact Hmem].
    - apply (Hdisj i Hi). apply list_elem_of_fmap. exists (i, p). split; [reflexivity | ].
      apply list_elem_of_fmap. exists (i, p, a). split; [reflexivity | exact Hmem]. }
  destruct (for_each_settles turn (fun a => a) turn_response_spec tpre st1 Hwf1 Hndpre) as
    (stp & Hfep & Hwfp & _ & _ & _ & _ & Hothers).
  { intros j q b Hj. apply Hin. apply elem_of_app. by left. }
  apply for_each_turn_run in Hfep. rewrite Hfep.
  specialize (Hothers i Hnotin). rewrite He in Hothers.
  destruct (wf_pending _ Hwfp i e Hothers) as (_ & _ & _ & Hnone & _).
  by rewrite <- Hp.
Qed.

Lemma concurrent_requests_settle_independently_witness :
  let st := run [Socket (Some OPEN)] (new_JsonRpc None) in
  let reqs := [("textDocument/hover", None, None);
               ("textDocument/completion", None, Some 0%nat)] in
  let hover := JObj [("jsonrpc", JStr "2.0"); ("id", JNum 1); ("result", JStr "doc")] in
  let completion := JObj [("jsonrpc", JStr "2.0"); ("id", JNum 2);
                          ("error", JObj [("code", JNum 1); ("message", JStr "busy")])] in
  let st2 := run (deliver [completion; hover]) (fst (issue reqs st)) in
  snd (issue reqs st) = [(1, 0%nat); (2, 1%nat)]
  /\ promises st2 !! 0%nat = Some (Resolved (Some (JStr "doc")))
  /\ promises st2 !! 1%nat = Some (Rejected (JsErrorOf (JStr "busy") (Some (JNum 1)) None))
  /\ promises (run [TimerFired 0; TimerFired 1; Abort 0] st2) !! 1%nat
     = Some (Rejected (JsErrorOf (JStr "busy") (Some (JNum 1)) None)).
Proof.
  intros st reqs hover completion st2.
  assert (Hissued : snd (issue reqs st) = [(1, 0%nat); (2, 1%nat)]) by (vm_compute; reflexivity).
  assert (Hresp : Forall2 (fun ip a => response_for (fst ip) a)
                    (snd (issue reqs st)) [hover; completion]).
  { rewrite Hissued. constructor; [ | constructor; [ | constructor]];
      eexists; (split; [reflexivity | vm_compute; reflexivity]). }
  pose proof (concurrent_requests_settle_independently st reqs [hover; completion]
                [completion; hover] [TimerFired 0; TimerFired 1; Abort 0]
                (reachable_run _ _ (reachable_new None)) ltac:(vm_compute; reflexivity) Hresp
                ltac:(repeat constructor) (Permutation_swap _ _ _)) as H.
  destruct H as (_ & _ & _ & H).
  rewrite Hissued in H.
  destruct (H 0%nat 1 0%nat hover eq_refl eq_refl) as (_ & _ & _ & H1 & _).
  destruct (H 1%nat 2 1%nat completion eq_refl eq_refl)
    as (_ & _ & _ & H2 & _ & H3).
  split; [exact Hissued | ]. split; [exact H1 | ]. split; [exact H2 | exact H3].
Defined.

(** *** A batch *)

(** Take a batch of responses with distinct ids, each matching a
    pending entry and with an error, if it has one, whose message can
    be made a string.  The turn raises nothing; every one of these
    promises, unsettled until then, holds what the response bearing
    its own id says, read as [JSON.stringify] and the parse of the
    inner call give that response back ([reparse]: a number in it that
    is not finite has become [null]); its entry and timer are gone;
    and the entries of all other ids are untouched. *)
Lemma batch_of_responses_settles_each
    (st : state) (targets : list (Z * entry * json))
    (Hreach : reachable st)
    (Hnodup : NoDup targets.*1.*1)
    (Htargets : forall i e a, (i, e, a) ∈ targets ->
                  _pending st !! i = Some e /\ response_for i a /\ error_raises a = false) :
  let batch := JArr targets.*2 in
  let st' := fst (step (Message (Parsed batch)) st) in
  snd (step (Message (Parsed batch)) st) = Ok RUnit
  /\ (forall i e a, (i, e, a) ∈ targets ->
        promises st !! resolve e = None /\
        promises st' !! resolve e = Some (settlement (reparse a)) /\
        _pending st' !! i = None /\ timers st' !! timer e = None)
  /\ (forall j, j ∉ targets.*1.*1 -> _pending st' !! j = _pending st !! j).
Proof.
  intros batch st'.
  pose proof (reachable_wf st Hreach) as Hwf.
  set (ts := (fun t : Z * entry * json => (fst (fst t), reject (snd (fst t)), snd t))
               <$> targets).
  assert (Hids : ts.*1.*1 = targets.*1.*1).
  { unfold ts. rewrite <- !list_fmap_compose. reflexivity. }
  assert (Hmsgs : ts.*2 = targets.*2).
  { unfold ts. rewrite <- !list_fmap_compose. reflexivity. }
  destruct (for_each_settles (fun m => _handleMessage (Parsed (reparse m))) reparse
              element_response_spec ts st Hwf)
    as (st1 & Hfe & _ & _ & _ & _ & Hts & Hothers).
  { by rewrite Hids. }
  { intros i p a Hin. apply list_elem_of_fmap in Hin as ([[j e] b] & Heq & Hin).
    simpl in Heq. inversion Heq; subst i p a.
    destruct (Htargets j e b Hin) as (He & Hresp & Hok). eauto. }
  rewrite Hmsgs in Hfe.
  assert (Hstep : step (Message (Parsed batch)) st = (run_microtasks st1, Ok RUnit)).
  { unfold step, handle, unit_, bind, batch.
    rewrite handleMessage_batch, Hfe. reflexivity. }
  unfold st'. rewrite Hstep. simpl.
  destruct (run_microtasks_frame st1) as (_ & -> & _ & _ & _ & -> & _ & -> & _).
  split; [reflexivity | ]. split.
  - intros i e a Hin. destruct (Htargets i e a Hin) as [He _].
    destruct (wf_pending _ Hwf i e He) as (_ & Hrr & _ & Hunset & _).
    destruct (Hts i (reject e) a) as (H1 & H2 & H3).
    { apply list_elem_of_fmap. exists (i, e, a). split; [reflexivity | exact Hin]. }
    rewrite Hrr. auto.
  - intros j Hj. apply Hothers. by rewrite Hids.
Qed.

Definition two_requests_sent : state :=
  run [Socket (Some OPEN); CallRequest "textDocument/hover" None None;
       CallRequest "textDocument/definition" None None] (new_JsonRpc None).

Lemma batch_of_responses_settles_each_witness :
  let hover := {| resolve := 0; reject := 0; timer := 0; method := "textDocument/hover" |} in
  let definition :=
    {| resolve := 1; reject := 1; timer := 1; method := "textDocument/definition" |} in
  let r1 := JObj [("jsonrpc", JStr "2.0"); ("id", JNum 1); ("result", JStr "doc")] in
  let r2 := JObj [("jsonrpc", JStr "2.0"); ("id", JNum 2);
                  ("result", JNum (Infinite false))] in
  let st' := fst (step (Message (Parsed (JArr [r2; r1]))) two_requests_sent) in
  promises st' !! 0%nat = Some (Resolved (Some (JStr "doc")))
  /\ promises st' !! 1%nat = Some (Resolved (Some JNull))
  /\ _pending st' !! 1 = None /\ _pending st' !! 2 = None.
Proof.
  intros hover definition r1 r2 st'.
  assert (Hnd : NoDup [(2, definition, r2); (1, hover, r1)].*1.*1).
  { simpl. apply NoDup_cons. split; [ | apply NoDup_singleton].
    intros Hin. apply list_elem_of_singleton in Hin. discriminate. }
  assert (Hts : forall i e a, (i, e, a) ∈ [(2, definition, r2); (1, hover, r1)] ->
            _pending two_requests_sent !! i = Some e /\ response_for i a
            /\ error_raises a = false).
  { intros i e a Hin. apply elem_of_cons in Hin as [Heq | Hin].
    - inversion Heq; subst. split; [vm_compute; reflexivity | ].
      split; [eexists; split; reflexivity | reflexivity].
    - apply list_elem_of_singleton in Hin. inversion Hin; subst.
      split; [vm_compute; reflexivity | ].
      split; [eexists; split; reflexivity | reflexivity]. }
  pose proof (batch_of_responses_settles_each two_requests_sent
                [(2, definition, r2); (1, hover, r1)]
                (reachable_run _ _ (reachable_new None)) Hnd Hts) as H.
  destruct H as (_ & H & _).
  destruct (H 1 hover r1 ltac:(right; left)) as (_ & H1 & H2 & _).
  destruct (H 2 definition r2 ltac:(left)) as (_ & H3 & H4 & _).
  split; [exact H1 | ]. split; [exact H3 | ]. split; [exact H2 | exact H4].
Defined.

Definition hover_response : json :=
  JObj [("jsonrpc", JStr "2.0"); ("id", JNum 1); ("result", JStr "doc")].

(** C9 fails on the code for a batch with a [null] element.  A single
    [null] payload makes [hasOwnProperty.call(msg, 'id')] raise a
    TypeError; inside a batch the exception leaves the loop, so the
    elements after it are never dispatched: here the response to the
    pending request 1, which alone would resolve its promise, is lost
    and the entry stays pending. *)
Theorem batch_stops_at_null_element :
  let st := two_requests_sent in
  let st' := fst (step (Message (Parsed (JArr [JNull; hover_response]))) st) in
  _pending st !! 1 =
    Some {| resolve := 0; reject := 0; timer := 0; method := "textDocument/hover" |}
  /\ snd (step (Message (Parsed JNull)) st) = Throw TypeError
  /\ promises (fst (step (Message (Parsed hover_response)) st)) !! 0%nat
     = Some (Resolved (Some (JStr "doc")))
  /\ snd (step (Message (Parsed (JArr [JNull; hover_response]))) st) = Throw TypeError
  /\ _pending st' !! 1 =
       Some {| resolve := 0; reject := 0; timer := 0; method := "textDocument/hover" |}
  /\ promises st' !! 0%nat = None.
Proof. repeat split; reflexivity. Qed.

(** *** Cancellation *)

Definition cancel_request (i : Z) : wire_msg :=
  Notification "$/cancelRequest" (Some (JObj [("id", JNum i)])).

Definition is_cancel_for (i : Z) (m : wire_msg) : bool :=
  match m with
  | Notification meth (Some (JObj [(k, JNum (Int j))])) =>
      String.eqb meth "$/cancelRequest" && String.eqb k "id" && Z.eqb j i
  | _ => false
  end.

(** How many [$/cancelRequest] notifications for id [i] a stretch of
    the wire holds. *)
Definition cancels_for (i : Z) (w : list wire_msg) : nat :=
  length (List.filter (is_cancel_for i) w).

Definition canceled : outcome :=
  Rejected (DOMException "Operation canceled" "AbortError").

Definition timers_shrink : relation state :=
  fun st st' => timers st' ⊆ timers st.

Global Instance timers_shrink_preorder : PreOrder timers_shrink.
Proof.
  split; [intros st; unfold timers_shrink; reflexivity | ].
  intros st1 st2 st3 H12 H23. unfold timers_shrink in *. etrans; eassumption.
Qed.

Lemma notify_open m ps st :
  _ws st = Some OPEN ->
  notify m ps st =
    (set_effects (effects st ++ [Log ("→ (notify) " +:+ m) info])%list
       (set_wire (wire st ++ [Notification m ps])%list st), Ok tt).
Proof. intros H. unfold notify, bind, send, log, modify. rewrite H. reflexivity. Qed.

Lemma notify_closed m ps st :
  _ws st <> Some OPEN ->
  notify m ps st = (st, Throw (JsError "WebSocket not open" None None)).
Proof.
  intros H. unfold notify, bind, send. destruct (_ws st) as [[] | ]; try reflexivity.
  congruence.
Qed.

Lemma finish_fields i t p o st :
  _pending (finish i t p o st) = delete i (_pending st)
  /\ timers (finish i t p o st) = delete t (timers st)
  /\ wire (finish i t p o st) = wire st
  /\ _ws (finish i t p o st) = _ws st
  /\ promises (finish i t p o st) =
       match promises st !! p with
       | Some _ => promises st
       | None => <[p := o]> (promises st)
       end.
Proof.
  unfold finish, settle, modify. simpl.
  destruct (promises st !! p); [ | destruct (awaiting st !! p)]; simpl; auto.
Qed.

(** What one abort listener leaves: the cancel notification on the wire
    when the socket is open, and the request finished. *)
Lemma on_abort_fields cb st :
  let st' := fst (on_abort cb st) in
  wire st' =
    (wire st ++ if decide (_ws st = Some OPEN) then [cancel_request (a_id cb)] else [])%list
  /\ _ws st' = _ws st
  /\ _pending st' = delete (a_id cb) (_pending st)
  /\ timers st' = delete (a_timer cb) (timers st)
  /\ promises st' =
       match promises st !! a_reject cb with
       | Some _ => promises st
       | None => <[a_reject cb := canceled]> (promises st)
       end.
Proof.
  intros st'. unfold st'. rewrite on_abort_finish. cbn [fst].
  destruct (finish_fields (a_id cb) (a_timer cb) (a_reject cb) canceled
              (fst (notify "$/cancelRequest" (Some (JObj [("id", JNum (a_id cb))])) st)))
    as (H1 & H2 & H3 & H4 & H5).
  fold canceled. rewrite H1, H2, H3, H4, H5.
  destruct (decide (_ws st = Some OPEN)) as [Hopen | Hclosed].
  - rewrite notify_open by assumption. simpl. auto.
  - rewrite notify_closed by assumption. simpl. rewrite app_nil_r. auto.
Qed.

Lemma on_abort_timers_shrink cb : keeps timers_shrink (on_abort cb).
Proof.
  intros st. unfold timers_shrink.
  destruct (on_abort_fields cb st) as (_ & _ & _ & -> & _). apply delete_subseteq.
Qed.

Lemma cancels_for_app i w1 w2 :
  cancels_for i (w1 ++ w2) = (cancels_for i w1 + cancels_for i w2)%nat.
Proof. unfold cancels_for. by rewrite List.filter_app, length_app. Qed.

Lemma cancels_for_listeners (cb : abort_cb) (cbs : list abort_cb) :
  NoDup (a_id <$> cbs) -> cb ∈ cbs ->
  cancels_for (a_id cb) ((fun c => cancel_request (a_id c)) <$> cbs) = 1%nat.
Proof.
  induction cbs as [ | c cbs IH]; intros Hnd Hin; [inversion Hin | ].
  rewrite fmap_cons in Hnd. apply NoDup_cons in Hnd as [Hnin Hnd].
  assert (Hnone : forall l, a_id cb ∉ a_id <$> l ->
            cancels_for (a_id cb) ((fun c => cancel_request (a_id c)) <$> l) = 0%nat).
  { clear. induction l as [ | c l IHl]; intros Hn; [reflexivity | ].
    rewrite fmap_cons in Hn. apply not_elem_of_cons in Hn as [Hne Hn].
    unfold cancels_for in *. simpl.
    destruct (Z.eqb_spec (a_id c) (a_id cb)) as [Heq | _]; [congruence | ].
    simpl. by apply IHl. }
  unfold cancels_for in *. rewrite fmap_cons. simpl.
  apply elem_of_cons in Hin as [-> | Hin].
  - rewrite Z.eqb_refl. simpl. f_equal. by apply Hnone.
  - destruct (Z.eqb_spec (a_id c) (a_id cb)) as [Heq | _].
    + exfalso. apply Hnin. rewrite Heq. apply list_elem_of_fmap. eauto.
    + simpl. by apply IH.
Qed.

Lemma for_each_on_abort_spec (cbs : list abort_cb) (st : state) :
  wf st -> Forall (coherent st) cbs -> NoDup (a_id <$> cbs) ->
  let st' := fst (for_each on_abort cbs st) in
  wire st' =
    (wire st ++ if decide (_ws st = Some OPEN)
                then (fun c => cancel_request (a_id c)) <$> cbs else [])%list
  /\ _ws st' = _ws st
  /\ forall cb e, cb ∈ cbs -> _pending st !! a_id cb = Some e ->
       _pending st' !! a_id cb = None /\ timers st' !! timer e = None /\
       promises st' !! reject e = Some canceled.
Proof.
  revert st. induction cbs as [ | c cbs IH]; intros st Hwf Hall Hnd.
  - simpl. split; [by destruct (decide _); rewrite app_nil_r | ].
    split; [reflexivity | ]. intros cb e H. inversion H.
  - apply Forall_cons in Hall as [Hc Hall]. rewrite fmap_cons in Hnd.
    apply NoDup_cons in Hnd as [Hnin Hnd].
    pose proof (on_abort_wf c st Hwf Hc) as Hwf0.
    pose proof (fun cb' => on_abort_coherent c st cb' Hwf Hc) as Hcoh.
    destruct (on_abort_fields c st) as (Hw0 & Hws0 & Hp0 & Ht0 & Hpr0).
    pose proof (on_abort_finish c st) as Hfin.
    pose proof (q_id _ _ (on_abort_quiet c st)) as Hid0.
    simpl for_each. unfold bind. destruct (on_abort c st) as [st0 r].
    injection Hfin as _ ->. cbn [fst] in *.
    assert (Hne : forall cb, cb ∈ cbs -> a_id cb <> a_id c).
    { intros cb Hin Heq. apply Hnin. rewrite <- Heq. apply list_elem_of_fmap. eauto. }
    assert (Hall0 : Forall (coherent st0) cbs).
    { rewrite Forall_forall in Hall |- *. intros cb Hin. apply Hcoh; auto. }
    destruct (IH st0 Hwf0 Hall0 Hnd) as (Hw & Hws & Hcbs).
    split; [ | split; [congruence | ]].
    + rewrite Hw, Hw0, Hws0. destruct (decide (_ws st = Some OPEN)).
      * by rewrite <- app_assoc.
      * by rewrite !app_nil_r.
    + intros cb e [-> | Hin]%elem_of_cons He.
      * destruct Hc as (Hid & _ & _ & Hm). rewrite He in Hm. destruct Hm as [Hte Hre].
        destruct (wf_pending _ Hwf _ e He) as (_ & _ & _ & Hunset & _).
        rewrite <- Hre, Hunset in Hpr0. rewrite <- Hte in Ht0.
        pose proof (keeps_for_each evolves on_abort cbs on_abort_evolves st0) as Hev.
        pose proof (keeps_for_each timers_shrink on_abort cbs on_abort_timers_shrink st0)
          as Hsh.
        split; [ | split].
        -- apply (ev_pending _ _ Hev).
           ++ rewrite Hid0. exact Hid.
           ++ rewrite Hp0. apply lookup_delete_eq.
        -- eapply lookup_weaken_None; [ | exact Hsh]. rewrite Ht0. apply lookup_delete_eq.
        -- eapply lookup_weaken; [ | exact (ev_promises _ _ Hev)].
           rewrite Hpr0. apply lookup_insert_eq.
      * apply Hcbs; [exact Hin | ].
        rewrite Hp0, lookup_delete_ne; [exact He | ]. intros Heq. by apply (Hne cb Hin).
Qed.

(** *** What the microtasks write and settle *)

Definition exit_notification : wire_msg := Notification "exit" None.

Definition not_open : exn := JsError "WebSocket not open" None None.

(** What the async function waiting in job [(p, k, o)] writes. *)
Definition sent_by (k : kont) (st : state) : list wire_msg :=
  match k with
  | KShutdown => if decide (_ws st = Some OPEN) then [exit_notification] else []
  | KInitialize => []
  end.

Lemma initialize_resume_same {A} (f : state -> A) o :
  (forall v st, f (set_serverCapabilities v st) = f st) ->
  (forall v st, f (set_serverSyncKind v st) = f st) ->
  keeps (same_on f) (initialize_resume o).
Proof.
  intros Hcaps Hkind.
  unfold initialize_resume. destruct o as [v | e]; [ | apply keeps_throw; apply _].
  assert (Hk : forall v, keeps (same_on f) (assign_kind v)).
  { intros [j | ]; simpl; [ | apply keeps_ret; apply _]. intros st. apply Hkind. }
  apply keeps_bind; [apply _ | apply keeps_lift; apply _ | intros caps].
  apply keeps_bind; [apply _ | intros st; apply Hcaps | intros _].
  apply keeps_bind; [apply _ | intros st; reflexivity | intros sync].
  apply keeps_bind; [apply _ | | intros _; apply keeps_ret; apply _].
  destruct (typeof_number sync); [apply Hk | ].
  destruct (typeof_object sync); [ | apply keeps_ret; apply _].
  apply keeps_bind; [apply _ | apply keeps_lift; apply _ | intros change].
  destruct (not_nullish change); [apply Hk | apply keeps_ret; apply _].
Qed.

Lemma shutdown_resume_open o st :
  _ws st = Some OPEN ->
  completion (shutdown_resume o st) =
    (set_effects (effects st ++ [Log "→ (notify) exit" info])%list
       (set_wire (wire st ++ [exit_notification])%list st), o).
Proof.
  intros H. unfold shutdown_resume, bind. rewrite (notify_open "exit" None st H).
  destruct o; reflexivity.
Qed.

Lemma shutdown_resume_closed o st :
  _ws st <> Some OPEN -> completion (shutdown_resume o st) = (st, Rejected not_open).
Proof.
  intros H. unfold shutdown_resume, bind. rewrite (notify_closed "exit" None st H).
  reflexivity.
Qed.

Lemma resume_wire k o st :
  wire (fst (resume k o st)) = (wire st ++ sent_by k st)%list.
Proof.
  destruct k; simpl.
  - rewrite app_nil_r. apply (initialize_resume_same wire); reflexivity.
  - rewrite <- completion_fst. destruct (decide (_ws st = Some OPEN)) as [H | H].
    + rewrite shutdown_resume_open by assumption. reflexivity.
    + rewrite shutdown_resume_closed by assumption. simpl. by rewrite app_nil_r.
Qed.

Lemma run_kont_fields p k o st :
  let st' := fst (run_kont (p, k, o) st) in
  snd (run_kont (p, k, o) st) = Ok tt
  /\ _ws st' = _ws st
  /\ wire st' = (wire st ++ sent_by k st)%list
  /\ async_results st' =
       match async_results st !! p with
       | Some _ => async_results st
       | None => <[p := snd (completion (resume k o st))]> (async_results st)
       end.
Proof.
  pose proof (resume_wire k o st) as Hw.
  pose proof (resume_drain_frame k o st) as Hf.
  assert (Ha : async_results (fst (resume k o st)) = async_results st).
  { destruct k; simpl.
    - apply (initialize_resume_same async_results); reflexivity.
    - rewrite <- completion_fst. destruct (decide (_ws st = Some OPEN)) as [H | H].
      + rewrite shutdown_resume_open by assumption. reflexivity.
      + rewrite shutdown_resume_closed by assumption. reflexivity. }
  unfold run_kont. rewrite <- completion_fst in Hw, Hf, Ha.
  destruct (completion (resume k o st)) as [st1 o1]. simpl in *.
  unfold settle_async, modify. simpl. rewrite Ha.
  destruct Hf. destruct (async_results st !! p); simpl; auto.
Qed.

Lemma shutdown_outcome o st :
  snd (completion (resume KShutdown o st)) =
    if decide (_ws st = Some OPEN) then o else Rejected not_open.
Proof.
  simpl. destruct (decide (_ws st = Some OPEN)) as [H | H].
  - by rewrite shutdown_resume_open.
  - by rewrite shutdown_resume_closed.
Qed.

(** The microtasks of a turn write only [exit] notifications: none on a
    socket that is not open, and on an open one at least that of each
    [shutdown] waiting in the queue, which then completes with the
    outcome of its request. *)
Lemma for_each_run_kont_spec (jobs : list (nat * kont * outcome)) (st : state) :
  let st' := fst (for_each run_kont jobs st) in
  _ws st' = _ws st
  /\ (exists w, wire st' = (wire st ++ w)%list /\
        Forall (fun m => m = exit_notification) w /\
        (_ws st <> Some OPEN -> w = []) /\
        (_ws st = Some OPEN -> forall p o, (p, KShutdown, o) ∈ jobs -> exit_notification ∈ w))
  /\ (forall p o, (p, KShutdown, o) ∈ jobs -> NoDup jobs.*1.*1 ->
        async_results st !! p = None ->
        async_results st' !! p =
          Some (if decide (_ws st = Some OPEN) then o else Rejected not_open))
  /\ (forall p, p ∉ jobs.*1.*1 -> async_results st' !! p = async_results st !! p).
Proof.
  revert st. induction jobs as [ | [[q k] o'] jobs IH]; intros st.
  - simpl. split; [reflexivity | ]. split.
    + exists []. rewrite app_nil_r. repeat split; auto. intros _ p o H. inversion H.
    + split; [intros p o H; inversion H | reflexivity].
  - destruct (run_kont_fields q k o' st) as (Hok & Hws & Hw & Ha).
    simpl for_each. unfold bind.
    destruct (run_kont (q, k, o') st) as [st0 r]. simpl in Hok, Hws, Hw, Ha. subst r.
    destruct (IH st0) as (Hws' & (w & Hw' & Hex & Hcl & Hop) & Hres & Hoth).
    cbn zeta. split; [congruence | ]. split; [ | split].
    + exists (sent_by k st ++ w)%list. split; [rewrite Hw', Hw; by rewrite app_assoc | ].
      split; [ | split].
      * apply Forall_app. split; [ | exact Hex].
        destruct k; simpl; [constructor | ].
        destruct (decide (_ws st = Some OPEN)); repeat constructor.
      * intros Hclosed. rewrite Hcl by congruence.
        destruct k; simpl; [reflexivity | ]. by rewrite decide_False.
      * intros Hopen p o [Heq | Hin]%elem_of_cons.
        -- inversion Heq; subst. simpl. rewrite decide_True by assumption.
           apply elem_of_app. left. by left.
        -- apply elem_of_app. right. apply (Hop ltac:(congruence) p o Hin).
    + intros p o Hin Hnd Hnone. rewrite !fmap_cons in Hnd. simpl in Hnd.
      apply NoDup_cons in Hnd as [Hnin Hnd].
      apply elem_of_cons in Hin as [Heq | Hin].
      * inversion Heq; subst q k o'. rewrite (Hoth p Hnin), Ha, Hnone, lookup_insert_eq.
        by rewrite shutdown_outcome.
      * assert (Hne : p <> q).
        { intros ->. apply Hnin. apply list_elem_of_fmap. exists (q, KShutdown).
          split; [reflexivity | ]. apply list_elem_of_fmap. exists (q, KShutdown, o).
          split; [reflexivity | exact Hin]. }
        rewrite (Hres p o Hin Hnd).
        -- rewrite Hws. reflexivity.
        -- rewrite Ha. destruct (async_results st !! q); [exact Hnone | ].
           by rewrite lookup_insert_ne.
    + intros p Hp. rewrite !fmap_cons in Hp. simpl in Hp.
      apply not_elem_of_cons in Hp as [Hne Hp]. rewrite (Hoth p Hp), Ha.
      destruct (async_results st !! q); [reflexivity | ]. by rewrite lookup_insert_ne.
Qed.

Lemma cancels_for_exits i w :
  Forall (fun m => m = exit_notification) w -> cancels_for i w = 0%nat.
Proof.
  induction 1 as [ | m w -> _ IH]; [reflexivity | ]. unfold cancels_for in *. simpl. exact IH.
Qed.

Lemma run_microtasks_spec (st : state) :
  let st' := run_microtasks st in
  exists w, wire st' = (wire st ++ w)%list /\
    Forall (fun m => m = exit_notification) w /\
    (_ws st <> Some OPEN -> w = []) /\
    (_ws st = Some OPEN -> forall p o, (p, KShutdown, o) ∈ microtasks st ->
       exit_notification ∈ w) /\
    (forall p o, (p, KShutdown, o) ∈ microtasks st -> NoDup (microtasks st).*1.*1 ->
       async_results st !! p = None ->
       async_results st' !! p =
         Some (if decide (_ws st = Some OPEN) then o else Rejected not_open)).
Proof.
  unfold run_microtasks.
  destruct (for_each_run_kont_spec (microtasks st) (set_microtasks [] st))
    as (_ & (w & Hw & Hex & Hcl & Hop) & Hres & _).
  simpl in *. exists w. auto.
Qed.

Definition mark_aborted (s : nat) (st : state) : state :=
  set_signals (<[s := {| aborted := true; listeners := [] |}]> (signals st)) st.

Lemma wf_mark_aborted s st : wf st -> wf (mark_aborted s st).
Proof.
  intros Hwf. destruct Hwf. constructor; simpl; auto.
  - intros s' sig' cb [[<- <-] | [Hne H]]%lookup_insert_Some Hcb; [inversion Hcb | ].
    apply (wf_listeners0 _ _ _ H Hcb).
  - intros s' sig' [[<- <-] | [Hne H]]%lookup_insert_Some; [constructor | eauto].
Qed.

Lemma fire_abort_live s sig st :
  signals st !! s = Some sig -> aborted sig = false ->
  fire_abort s st = for_each on_abort (listeners sig) (mark_aborted s st).
Proof. intros Hs Ha. unfold fire_abort. rewrite Hs. simpl. rewrite Ha. reflexivity. Qed.

Lemma for_each_on_abort_ok cbs st : snd (for_each on_abort cbs st) = Ok tt.
Proof.
  revert st. induction cbs as [ | c cbs IH]; intros st; [reflexivity | ].
  simpl. unfold bind. rewrite on_abort_finish. apply IH.
Qed.

Definition socket_closed_then_abort : state :=
  run [Socket (Some OPEN); CallRequest "textDocument/hover" None (Some 0%nat);
       Socket (Some CLOSED)] (new_JsonRpc None).

(** C2 as stated fails when the socket is no longer open at the time
    the token triggers: the request issued with token 0 is pending, the
    abort rejects its promise and removes its entry, and the wire still
    holds the Request alone; no [$/cancelRequest] was sent. *)
Lemma cancellation_counterexample :
  signals socket_closed_then_abort !! 0%nat =
    Some {| aborted := false; listeners := [{| a_id := 1; a_timer := 0; a_reject := 0 |}] |}
  /\ _pending socket_closed_then_abort !! 1 =
       Some {| resolve := 0; reject := 0; timer := 0; method := "textDocument/hover" |}
  /\ promises (fst (step (Abort 0) socket_closed_then_abort)) !! 0%nat = Some canceled
  /\ wire (fst (step (Abort 0) socket_closed_then_abort)) =
       [Request 1 "textDocument/hover" None]
  /\ cancels_for 1 (wire (fst (step (Abort 0) socket_closed_then_abort))) = 0%nat.
Proof. repeat split; reflexivity. Qed.

(** C2, amended.  Take a request issued with a cancellation token and
    still pending (its promise unsettled) when the token triggers.
    Then the turn sends the [$/cancelRequest] notification carrying the
    request's id once if the socket is open, and not at all if it is
    not (the failed send is swallowed); either way the timer, running
    until then, is cleared, the entry is removed, the promise is
    rejected with the cancellation failure, and a response bearing that
    id, whenever it arrives later, changes nothing and raises nothing. *)
Theorem cancellation_finishes_the_request
    (st : state) (s : nat) (sig : abort_signal) (cb : abort_cb) (e : entry)
    (Hreach : reachable st)
    (Hsig : signals st !! s = Some sig) (Hlive : aborted sig = false)
    (Hcb : cb ∈ listeners sig)
    (Hpending : _pending st !! a_id cb = Some e) :
  let i := a_id cb in
  let st' := fst (step (Abort s) st) in
  snd (step (Abort s) st) = Ok RUnit
  /\ (exists w, wire st' = (wire st ++ w)%list /\
        cancels_for i w = if decide (_ws st = Some OPEN) then 1%nat else 0%nat)
  /\ is_Some (timers st !! timer e) /\ timers st' !! timer e = None
  /\ _pending st' !! i = None
  /\ promises st !! reject e = None
  /\ promises st' !! reject e = Some canceled
  /\ (forall tr msg, response_for i msg ->
        step (Message (Parsed msg)) (run tr st') = (run tr st', Ok RUnit)).
Proof.
  intros i st'.
  pose proof (reachable_wf st Hreach) as Hwf.
  destruct (wf_pending _ Hwf _ e Hpending) as (Hir & _ & _ & Hunset & Htimer).
  pose proof (wf_mark_aborted s st Hwf) as Hwf0.
  assert (Hall : Forall (coherent (mark_aborted s st)) (listeners sig)).
  { rewrite Forall_forall. intros c Hc.
    eapply coherent_frame; [apply (wf_listeners _ Hwf _ _ _ Hsig Hc) | reflexivity ..]. }
  pose proof (wf_listeners_nodup _ Hwf _ _ Hsig) as Hnd.
  destruct (for_each_on_abort_spec (listeners sig) (mark_aborted s st) Hwf0 Hall Hnd)
    as (Hw & Hws & Hcbs).
  destruct (Hcbs cb e Hcb Hpending) as (H1 & H2 & H3).
  pose proof (for_each_on_abort_ok (listeners sig) (mark_aborted s st)) as Hok.
  assert (Hstep : step (Abort s) st =
            (run_microtasks (fst (for_each on_abort (listeners sig) (mark_aborted s st))),
             Ok RUnit)).
  { unfold step, handle, unit_, bind. rewrite (fire_abort_live s sig st Hsig Hlive).
    destruct (for_each on_abort (listeners sig) (mark_aborted s st)) as [sh r].
    simpl in Hok. subst r. reflexivity. }
  pose proof (step_wf (Abort s) st Hwf) as Hwf'.
  pose proof (step_microtasks (Abort s) st) as Hq'.
  pose proof (step_id (Abort s) st) as Hid'. simpl in Hid'.
  fold st' in Hwf', Hq', Hid'.
  unfold st'. rewrite Hstep. cbn [fst snd].
  set (sh := fst (for_each on_abort (listeners sig) (mark_aborted s st))) in *.
  destruct (run_microtasks_frame sh) as (_ & Hp & _ & _ & _ & Hpr & _ & Ht & _).
  destruct (run_microtasks_spec sh) as (w2 & Hw2 & Hex & _).
  split; [reflexivity | ]. split.
  { eexists. split; [rewrite Hw2, Hw; simpl; by rewrite <- app_assoc | ].
    rewrite cancels_for_app, (cancels_for_exits _ _ Hex), Nat.add_0_r. simpl.
    destruct (decide (_ws st = Some OPEN)); [ | reflexivity].
    by apply cancels_for_listeners. }
  split; [rewrite Htimer; eauto | ].
  split; [by rewrite Ht | ]. split; [by rewrite Hp | ].
  split; [exact Hunset | ]. split; [by rewrite Hpr | ].
  intros tr msg Hmsg.
  assert (Hst' : st' = run_microtasks sh) by (unfold st'; by rewrite Hstep).
  rewrite <- Hst'.
  apply (late_response_dropped tr st' i msg Hwf' Hq'); [lia | | exact Hmsg].
  rewrite Hst', Hp. exact H1.
Qed.

Definition request_with_token : state :=
  run [Socket (Some OPEN); CallRequest "textDocument/hover" None (Some 0%nat)]
    (new_JsonRpc None).

Lemma cancellation_finishes_the_request_witness :
  (exists w, wire (fst (step (Abort 0) request_with_token)) =
               (wire request_with_token ++ w)%list /\
             cancels_for 1 w = 1%nat)
  /\ _pending (fst (step (Abort 0) request_with_token)) !! 1 = None
  /\ promises (fst (step (Abort 0) request_with_token)) !! 0%nat = Some canceled
  /\ step (Message (Parsed (JObj [("jsonrpc", JStr "2.0"); ("id", JNum 1);
                                  ("result", JNull)])))
       (run [Keepalive] (fst (step (Abort 0) request_with_token)))
     = (run [Keepalive] (fst (step (Abort 0) request_with_token)), Ok RUnit).
Proof.
  pose proof (cancellation_finishes_the_request request_with_token 0%nat
                {| aborted := false;
                   listeners := [{| a_id := 1; a_timer := 0; a_reject := 0 |}] |}
                {| a_id := 1; a_timer := 0; a_reject := 0 |}
                {| resolve := 0; reject := 0; timer := 0; method := "textDocument/hover" |}
                (reachable_run _ _ (reachable_new None))
                ltac:(vm_compute; reflexivity) ltac:(reflexivity)
                ltac:(left) ltac:(vm_compute; reflexivity)) as H.
  cbv zeta in H. cbn [a_id reject timer] in H.
  destruct H as (_ & Hw & _ & _ & Hp & _ & Hr & Hlate).
  split; [exact Hw | ]. split; [exact Hp | ]. split; [exact Hr | ].
  apply (Hlate [Keepalive]). eexists. split; reflexivity.
Defined.

(** *** Relations kept by the handlers of inbound events *)

Lemma fire_timer_as_clear t st :
  fire_timer t st =
    match timers st !! t with
    | Some cb => on_timeout cb (fst (clearTimeout t st))
    | None => (st, Ok tt)
    end.
Proof. reflexivity. Qed.

Lemma keepalive_as_send st :
  fst (keepalive st) = fst (send (Notification "$/keepalive" None) st).
Proof. unfold keepalive, try_, send. destruct (_ws st) as [[] | ]; reflexivity. Qed.

(** A preorder kept by the primitive operations is kept by the
    handlers built from them. *)
Section QuietHandlers.
Context (R : relation state) `{!PreOrder R}.
Hypothesis H_send : forall d, keeps R (send d).
Hypothesis H_log : forall t lv, keeps R (log t lv).
Hypothesis H_settle : forall p o, keeps R (settle p o).
Hypothesis H_clear : forall t, keeps R (clearTimeout t).
Hypothesis H_pdel : forall k, keeps R (pending_delete k).
Hypothesis H_call : forall ps h, keeps R (call_handler ps h).
Hypothesis H_mark : forall s st, R st (mark_aborted s st).

Lemma notify_keeps m ps : keeps R (notify m ps).
Proof.
  unfold notify. apply keeps_bind; [apply _ | apply H_send | intros; apply H_log].
Qed.

Lemma on_timeout_keeps cb : keeps R (on_timeout cb).
Proof.
  unfold on_timeout. apply keeps_bind; [apply _ | apply H_pdel | intros; apply H_settle].
Qed.

Lemma on_abort_keeps cb : keeps R (on_abort cb).
Proof.
  unfold on_abort.
  apply keeps_bind; [apply _ | apply keeps_try, notify_keeps | intros _].
  apply keeps_bind; [apply _ | apply H_clear | intros _].
  apply keeps_bind; [apply _ | apply H_pdel | intros _]. apply H_settle.
Qed.

Lemma respond_keeps e msg : keeps R (respond e msg).
Proof. apply keeps_respond; [apply _ | apply H_clear | apply H_pdel | apply H_settle]. Qed.

Lemma handle_one_keeps msg : keeps R (handle_one msg).
Proof.
  intros st. unfold handle_one, bind.
  pose proof (hasOwnProperty_state msg "id" st) as Hst.
  destruct (hasOwnProperty msg "id" st) as [st0 [[] | e]]; simpl in Hst; subst st0;
    [ | | reflexivity].
  - destruct (pending_get (get msg "id") st) as [e | ]; [ | reflexivity].
    apply respond_keeps.
  - destruct (truthy (get msg "method")); [ | reflexivity].
    unfold _emit. apply (keeps_for_each R). intros h. apply H_call.
Qed.

Lemma handleMessage_keeps raw : keeps R (_handleMessage raw).
Proof. apply keeps_handleMessage; [apply _ | apply H_log | apply handle_one_keeps]. Qed.

Lemma fire_timer_keeps t : keeps R (fire_timer t).
Proof.
  intros st. rewrite fire_timer_as_clear.
  destruct (timers st !! t) as [cb | ]; [ | reflexivity].
  etrans; [apply H_clear | apply on_timeout_keeps].
Qed.

Lemma fire_abort_keeps s : keeps R (fire_abort s).
Proof.
  intros st. unfold fire_abort. destruct (aborted _); [reflexivity | ].
  etrans; [apply (H_mark s) | ].
  apply (keeps_for_each R). intros cb. apply on_abort_keeps.
Qed.

Lemma keepalive_keeps : keeps R keepalive.
Proof. intros st. rewrite keepalive_as_send. apply H_send. Qed.
End QuietHandlers.

(** On a socket that is not open nothing is written. *)
Definition silent : relation state :=
  fun st st' => _ws st <> Some OPEN -> wire st' = wire st /\ _ws st' = _ws st.

Global Instance silent_preorder : PreOrder silent.
Proof.
  split; [intros st _; auto | ].
  intros st1 st2 st3 H12 H23 Hc. destruct (H12 Hc) as [Hw Hs].
  assert (Hc2 : _ws st2 <> Some OPEN) by (rewrite Hs; exact Hc).
  destruct (H23 Hc2) as [Hw' Hs']. split; congruence.
Qed.

Lemma send_silent d : keeps silent (send d).
Proof.
  intros st Hc. unfold send.
  destruct (_ws st) as [[] | ] eqn:Hs; simpl; rewrite ?Hs; auto.
  exfalso. by apply Hc.
Qed.

Lemma settle_silent p o : keeps silent (settle p o).
Proof. intros st _. unfold settle, modify. simpl. repeat case_match; auto. Qed.

Lemma pending_delete_silent k : keeps silent (pending_delete k).
Proof. intros st _. unfold pending_delete, modify. simpl. repeat case_match; auto. Qed.

Lemma handle_silent ev :
  (forall r, ev <> Socket r) -> keeps silent (handle ev).
Proof.
  intros Hev.
  assert (Hnotify : forall m ps, keeps silent (notify m ps)).
  { intros m ps. apply notify_keeps; [apply _ | apply send_silent | intros t lv st _; auto]. }
  assert (Hrequest : forall m ps sg, keeps silent (request m ps sg)).
  { intros m ps sg st Hc. rewrite (request_closed m ps sg st Hc). auto. }
  destruct ev; simpl; unfold unit_;
    try (apply keeps_bind; [apply _ | | intros; apply keeps_ret; apply _]).
  - apply Hrequest.
  - apply Hnotify.
  - intros st _. auto.
  - intros st _. auto.
  - intros st Hc. unfold initialize. rewrite (request_closed _ _ _ st Hc). auto.
  - intros st Hc. unfold initialized. rewrite (notify_closed _ _ st Hc). auto.
  - intros st Hc. unfold shutdown. rewrite (request_closed _ _ _ st Hc).
    rewrite shutdown_resume_closed by exact Hc. auto.
  - apply handleMessage_keeps;
      [apply _ | intros t lv st _; auto | apply settle_silent
       | intros t st _; auto | apply pending_delete_silent | intros ps h st _; auto].
  - apply fire_timer_keeps;
      [apply _ | apply settle_silent | intros t0 st _; auto | apply pending_delete_silent].
  - apply fire_abort_keeps;
      [apply _ | apply send_silent | intros t lv st _; auto | apply settle_silent
       | intros t st _; auto | apply pending_delete_silent | intros s0 st _; auto].
  - destruct (Hev r eq_refl).
  - apply keepalive_keeps, send_silent.
Qed.

Lemma handle_ws ev st :
  (forall r, ev <> Socket r) -> _ws (fst (handle ev st)) = _ws st.
Proof.
  intros Hev.
  assert (Hrequest : forall m ps sg, _ws (fst (request m ps sg st)) = _ws st).
  { intros m ps sg. destruct (request_cases m ps sg st) as [[_ ->] | [_ ->]]; reflexivity. }
  destruct ev; simpl; rewrite ?unit_fst.
  - unfold bind. specialize (Hrequest method0 params signal).
    destruct (request method0 params signal st) as [st1 [p | e]]; exact Hrequest.
  - apply notify_quiet.
  - reflexivity.
  - reflexivity.
  - unfold initialize. specialize (Hrequest "initialize" params None).
    destruct (request "initialize" params None st) as [st1 [p | e]]; exact Hrequest.
  - unfold initialized. pose proof (q_ws _ _ (notify_quiet "initialized" (Some (JObj [])) st)) as H.
    destruct (notify _ _ st) as [st1 [ | ]]; exact H.
  - unfold shutdown. specialize (Hrequest "shutdown" None None).
    destruct (request "shutdown" None None st) as [st1 [p | e]]; [exact Hrequest | ].
    pose proof (d_ws _ _ (resume_drain_frame KShutdown (Rejected e) st1)) as H'.
    simpl in H'. rewrite <- completion_fst in H'.
    destruct (completion (shutdown_resume (Rejected e) st1)) as [st2 o]. simpl in *.
    congruence.
  - apply handleMessage_quiet.
  - apply fire_timer_quiet.
  - apply fire_abort_quiet.
  - destruct (Hev r eq_refl).
  - apply keepalive_quiet.
Qed.

(** *** An async function waiting on a request *)

(** The async function [k] waits on promise [p], unsettled. *)
Definition waiting (p : nat) (k : kont) (st : state) : Prop :=
  awaiting st !! p = Some k /\ promises st !! p = None.

(** Promise [p] is settled with [o] and the rest of [k] is scheduled. *)
Definition queued (p : nat) (k : kont) (o : outcome) (st : state) : Prop :=
  promises st !! p = Some o /\ (p, k, o) ∈ microtasks st.

Definition progress (p : nat) (k : kont) : relation state :=
  fun st st' =>
    (waiting p k st -> waiting p k st' \/ exists o, queued p k o st') /\
    (forall o, queued p k o st -> queued p k o st').

Global Instance progress_preorder p k : PreOrder (progress p k).
Proof.
  split; [intros st; split; auto | ].
  intros st1 st2 st3 [H12 H12'] [H23 H23']. split.
  - intros Hw. destruct (H12 Hw) as [Hw2 | [o Hq]]; [auto | right; eauto].
  - intros o Hq. auto.
Qed.

(** A change that leaves the promises, the waiting functions and the
    queue alone. *)
Lemma progress_same p k st st' :
  awaiting st' = awaiting st -> promises st' = promises st ->
  microtasks st' = microtasks st -> progress p k st st'.
Proof. intros H1 H2 H3. unfold progress, waiting, queued. rewrite H1, H2, H3. auto. Qed.

Lemma settle_progress p k q o : keeps (progress p k) (settle q o).
Proof.
  intros st. unfold settle, modify. simpl.
  destruct (promises st !! q) as [o' | ] eqn:Hq; [reflexivity | ].
  unfold progress, waiting, queued.
  destruct (decide (q = p)) as [-> | Hne].
  - destruct (awaiting st !! p) as [k' | ] eqn:Ha; simpl.
    + split.
      * intros [Hk _]. inversion Hk; subst k'. right. exists o.
        rewrite lookup_insert_eq. split; [reflexivity | ].
        apply elem_of_app. right. by left.
      * intros o' [Hp _]. congruence.
    + split; [intros [Hk _]; discriminate | intros o' [Hp _]; congruence].
  - destruct (awaiting st !! q) as [k' | ] eqn:Ha; simpl;
      rewrite ?lookup_insert_ne, ?lookup_delete_ne by assumption.
    + split; [auto | ]. intros o' [Hp Hin]. split; [exact Hp | ].
      apply elem_of_app. by left.
    + split; auto.
Qed.

Lemma request_progress p k m ps sg : keeps (progress p k) (request m ps sg).
Proof.
  intros st. destruct (request_cases m ps sg st) as [[_ ->] | [_ ->]];
    apply progress_same; reflexivity.
Qed.

Lemma request_await_progress p k m ps k' st st1 q :
  wf st -> request m ps None st = (st1, Ok q) ->
  progress p k st (fst (await q k' st1)).
Proof.
  intros Hwf Hr. destruct (request_cases m ps None st) as [[_ H] | [_ H]];
    rewrite H in Hr; inversion Hr; subst.
  unfold progress, waiting, queued, await, modify. simpl. split; [ | auto].
  intros [Hk Hp]. left. split; [ | exact Hp].
  rewrite lookup_insert_ne; [exact Hk | ].
  intros <-. apply (wf_awaiting _ Hwf) in Hk. lia.
Qed.

Lemma handle_progress p k ev st : wf st -> progress p k st (fst (handle ev st)).
Proof.
  intros Hwf.
  assert (Hsame : forall (f : state -> state),
            (forall s, awaiting (f s) = awaiting s) ->
            (forall s, promises (f s) = promises s) ->
            (forall s, microtasks (f s) = microtasks s) ->
            keeps (progress p k) (modify f)).
  { intros f H1 H2 H3 s. apply progress_same; simpl; auto. }
  assert (Hsend : forall d, keeps (progress p k) (send d)).
  { intros d s. unfold send. repeat case_match; simpl; try reflexivity.
    apply progress_same; reflexivity. }
  assert (Hlog : forall t lv, keeps (progress p k) (log t lv)).
  { intros t lv s. apply progress_same; reflexivity. }
  assert (Hclear : forall t, keeps (progress p k) (clearTimeout t)).
  { intros t s. apply progress_same; reflexivity. }
  assert (Hpdel : forall j, keeps (progress p k) (pending_delete j)).
  { intros j s. unfold pending_delete, modify. simpl.
    repeat case_match; simpl; try reflexivity; apply progress_same; reflexivity. }
  assert (Hcall : forall ps h, keeps (progress p k) (call_handler ps h)).
  { intros ps h s. apply progress_same; reflexivity. }
  assert (Hmark : forall s0 s, progress p k s (mark_aborted s0 s)).
  { intros s0 s. apply progress_same; reflexivity. }
  assert (Hnotify : forall m ps, keeps (progress p k) (notify m ps)).
  { intros m ps. apply notify_keeps; auto. apply _. }
  destruct ev; cbn [handle]; rewrite ?unit_fst.
  - unfold bind. pose proof (request_progress p k method0 params signal st) as H.
    destruct (request method0 params signal st) as [st1 [q | e]]; exact H.
  - apply Hnotify.
  - apply progress_same; reflexivity.
  - apply progress_same; reflexivity.
  - unfold initialize.
    pose proof (request_progress p k "initialize" params None st) as H.
    destruct (request "initialize" params None st) as [st1 [q | e]] eqn:Hr; [ | exact H].
    cbn [fst]. eapply request_await_progress; [exact Hwf | exact Hr].
  - unfold initialized. pose proof (Hnotify "initialized" (Some (JObj [])) st) as H.
    destruct (notify _ _ st) as [st1 [ | ]]; exact H.
  - unfold shutdown.
    pose proof (request_progress p k "shutdown" None None st) as H.
    destruct (request "shutdown" None None st) as [st1 [q | e]] eqn:Hr.
    + cbn [fst]. eapply request_await_progress; [exact Hwf | exact Hr].
    + pose proof (Hnotify "exit" None st1) as H'.
      unfold shutdown_resume, bind. destruct (notify "exit" None st1) as [st2 [ | ]];
        simpl in *; etrans; eassumption.
  - apply handleMessage_keeps; auto using settle_progress. apply _.
  - apply fire_timer_keeps; auto using settle_progress. apply _.
  - apply fire_abort_keeps; auto using settle_progress. apply _.
  - apply progress_same; reflexivity.
  - apply keepalive_keeps, Hsend.
Qed.

Lemma waiting_step p k ev st :
  wf st -> waiting p k st -> promises (fst (step ev st)) !! p = None ->
  waiting p k (fst (step ev st)).
Proof.
  intros Hwf Hw Hp. unfold step in *.
  destruct (handle_progress p k ev st Hwf) as [Hprog _].
  destruct (handle ev st) as [sh r]. simpl in *.
  destruct (run_microtasks_frame sh) as (_ & _ & _ & _ & _ & Hpr & _ & _ & _ & _ & Haw & _).
  unfold waiting. rewrite Hpr in Hp |- *. rewrite Haw.
  destruct (Hprog Hw) as [Hw' | (o & Hq & _)]; [exact Hw' | congruence].
Qed.

Lemma waiting_run p k tr st :
  wf st -> waiting p k st -> promises (run tr st) !! p = None ->
  waiting p k (run tr st).
Proof.
  revert st. induction tr as [ | ev tr IH]; intros st Hwf Hw Hp; simpl in *; [exact Hw | ].
  apply IH; [by apply step_wf | | exact Hp].
  apply waiting_step; [exact Hwf | exact Hw | ].
  destruct (promises (fst (step ev st)) !! p) as [o | ] eqn:Ho; [ | reflexivity].
  rewrite (settled_stays tr _ p o Ho) in Hp. discriminate.
Qed.

(** *** shutdown *)

Lemma step_shutdown_open st :
  microtasks st = [] -> _ws st = Some OPEN ->
  step CallShutdown st =
    (set_awaiting (<[next_promise st := KShutdown]> (awaiting st))
       (requested "shutdown" None None st),
     Ok (RAsync (next_promise st))).
Proof.
  intros Hq Hopen. unfold step, handle, shutdown.
  rewrite (request_open "shutdown" None None st Hopen).
  unfold await, modify. cbn [fst snd].
  rewrite run_microtasks_idle; [reflexivity | exact Hq].
Qed.

Lemma step_shutdown_closed st :
  microtasks st = [] -> _ws st <> Some OPEN ->
  step CallShutdown st = (set_id (_id st + 1) st, Ok (RSettled (Rejected not_open))).
Proof.
  intros Hq Hclosed. unfold step, handle, shutdown.
  rewrite (request_closed "shutdown" None None st Hclosed).
  rewrite shutdown_resume_closed by exact Hclosed.
  rewrite run_microtasks_idle; [reflexivity | exact Hq].
Qed.

(** C6 as stated fails when the socket is not open: [shutdown()] on a
    client that never connected returns a promise rejected with the
    transport error, and nothing was written, no [exit] either. *)
Lemma shutdown_counterexample :
  _ws createLspClient = None
  /\ snd (step CallShutdown createLspClient) = Ok (RSettled (Rejected not_open))
  /\ wire (fst (step CallShutdown createLspClient)) = [].
Proof. repeat split; reflexivity. Qed.

(** C6, amended.  [shutdown()] sends the [exit] notification before its
    promise settles, whether the [shutdown] request resolves or rejects
    (by an error response or by the timeout), provided the socket is
    open when the request settles.  In detail, for a call on an open
    socket: the Request is written and the call returns a pending
    promise; as long as the request is unsettled that promise is
    unsettled; in the turn of the event that settles the request with
    [o], if the socket is open then, the [exit] notification is written
    and the promise settles with [o]; if it is not, nothing is written
    and the promise is rejected with the transport error.  A call on a
    socket that is not open writes nothing and returns a promise
    rejected with the transport error. *)
Theorem shutdown_sends_exit_on_open_socket
    (st : state) (tr : list event) (ev : event) (o : outcome)
    (Hreach : reachable st) :
  let p := next_promise st in
  let st1 := fst (step CallShutdown st) in
  let st2 := run tr st1 in
  let st3 := fst (step ev st2) in
  (_ws st <> Some OPEN ->
     snd (step CallShutdown st) = Ok (RSettled (Rejected not_open)) /\ wire st1 = wire st)
  /\ (_ws st = Some OPEN ->
        snd (step CallShutdown st) = Ok (RAsync p)
        /\ wire st1 = (wire st ++ [Request (_id st) "shutdown" None])%list
        /\ (promises st2 !! p = None -> async_results st2 !! p = None)
        /\ (promises st2 !! p = None -> promises st3 !! p = Some o ->
            exists w, wire st3 = (wire st2 ++ w)%list /\
              if decide (_ws st2 = Some OPEN)
              then exit_notification ∈ w /\ async_results st3 !! p = Some o
              else w = [] /\ async_results st3 !! p = Some (Rejected not_open))).
Proof.
  intros p st1 st2 st3.
  pose proof (reachable_wf st Hreach) as Hwf.
  pose proof (reachable_microtasks st Hreach) as Hq.
  split.
  { intros Hclosed. unfold st1. rewrite (step_shutdown_closed st Hq Hclosed). auto. }
  intros Hopen.
  pose proof (step_wf CallShutdown st Hwf) as Hwf1. fold st1 in Hwf1.
  pose proof (step_shutdown_open st Hq Hopen) as Hcall.
  assert (Hst1 : st1 = set_awaiting (<[p := KShutdown]> (awaiting st))
                         (requested "shutdown" None None st)).
  { unfold st1. by rewrite Hcall. }
  assert (Hw1 : waiting p KShutdown st1).
  { rewrite Hst1. unfold waiting. simpl. rewrite lookup_insert_eq.
    split; [reflexivity | by apply wf_fresh_promise]. }
  split; [by rewrite Hcall | ]. split; [by rewrite Hst1 | ].
  pose proof (run_wf tr st1 Hwf1) as Hwf2. fold st2 in Hwf2.
  assert (Hw2 : promises st2 !! p = None -> waiting p KShutdown st2).
  { intros Hp. by apply waiting_run. }
  split.
  { intros Hp. destruct (Hw2 Hp) as [Ha _]. apply (wf_awaiting _ Hwf2 _ _ Ha). }
  intros Hp Hp3. specialize (Hw2 Hp).
  assert (Hev : forall r, ev <> Socket r).
  { intros r ->. unfold st3, step in Hp3. simpl in Hp3.
    destruct (run_microtasks_frame (set_ws r st2)) as (_ & _ & _ & _ & _ & Hpr & _).
    rewrite Hpr in Hp3. simpl in Hp3. congruence. }
  pose proof (handle_wf ev st2 Hwf2) as Hwfh.
  pose proof (handle_ws ev st2 Hev) as Hwsh.
  pose proof (handle_silent ev Hev st2) as Hsil.
  pose proof (handle_evolves ev st2) as Hevo.
  destruct (handle_progress p KShutdown ev st2 Hwf2) as [Hprog _].
  unfold st3, step in Hp3 |- *.
  destruct (handle ev st2) as [sh r]. cbn [fst] in *.
  destruct (run_microtasks_frame sh) as (_ & _ & _ & _ & _ & Hpr & _).
  rewrite Hpr in Hp3.
  destruct (Hprog Hw2) as [[_ Hnone] | (o' & Ho' & Hin)]; [congruence | ].
  assert (o' = o) by congruence. subst o'.
  destruct (wf_queue _ Hwfh _ _ _ Hin) as [_ Hasync].
  destruct (run_microtasks_spec sh) as (w2 & Hwire2 & _ & Hcl & Hop & Hres).
  specialize (Hres p o Hin (wf_queue_nodup _ Hwfh) Hasync).
  destruct (ev_wire _ _ Hevo) as (w1 & Hwire1 & _).
  exists (w1 ++ w2)%list. split; [rewrite Hwire2, Hwire1; by rewrite app_assoc | ].
  rewrite Hwsh in Hres, Hcl, Hop.
  destruct (decide (_ws st2 = Some OPEN)) as [Ho | Hc].
  - split; [ | exact Hres]. apply elem_of_app. right. apply (Hop Ho p o Hin).
  - split; [ | exact Hres]. rewrite (Hcl Hc), app_nil_r.
    destruct (Hsil Hc) as [Hsame _]. rewrite Hwire1 in Hsame.
    apply (app_inv_head (wire st2)). by rewrite app_nil_r.
Qed.

Definition open_client : state := run [Socket (Some OPEN)] createLspClient.

Definition shutdown_error_response : json :=
  JObj [("jsonrpc", JStr "2.0"); ("id", JNum 1);
        ("error", JObj [("code", JNum (-32603)); ("message", JStr "Internal error")])].

Lemma shutdown_sends_exit_on_open_socket_witness :
  snd (step CallShutdown open_client) = Ok (RAsync (next_promise open_client))
  /\ exists w,
       wire (fst (step (Message (Parsed shutdown_error_response))
                    (run [Keepalive] (fst (step CallShutdown open_client)))))
       = (wire (run [Keepalive] (fst (step CallShutdown open_client))) ++ w)%list
       /\ exit_notification ∈ w
       /\ async_results
            (fst (step (Message (Parsed shutdown_error_response))
                    (run [Keepalive] (fst (step CallShutdown open_client)))))
            !! next_promise open_client
          = Some (Rejected (JsErrorOf (JStr "Internal error") (Some (JNum (-32603))) None)).
Proof.
  pose proof (shutdown_sends_exit_on_open_socket open_client [Keepalive]
                (Message (Parsed shutdown_error_response))
                (Rejected (JsErrorOf (JStr "Internal error") (Some (JNum (-32603))) None))
                (reachable_run _ _ reachable_client)) as H.
  cbv zeta in H. destruct H as [_ H].
  destruct (H ltac:(vm_compute; reflexivity)) as (H1 & _ & _ & H2).
  split; [exact H1 | ].
  destruct (H2 ltac:(vm_compute; reflexivity) ltac:(vm_compute; reflexivity))
    as (w & Hw & Hopen).
  exists w. split; [exact Hw | ].
  rewrite decide_True in Hopen by (vm_compute; reflexivity). exact Hopen.
Defined.

(** *** notify *)

(** [notify] never touches the pending table, the timers or the
    promises, whether the send succeeds or throws. *)
Lemma notify_leaves_requests_alone (m : string) (ps : jsval) (st : state) :
  _pending (fst (notify m ps st)) = _pending st
  /\ timers (fst (notify m ps st)) = timers st
  /\ promises (fst (notify m ps st)) = promises st
  /\ _id (fst (notify m ps st)) = _id st.
Proof.
  destruct (decide (_ws st = Some OPEN)) as [H | H].
  - rewrite notify_open by exact H. auto.
  - rewrite notify_closed by exact H. auto.
Qed.

Lemma unsubscribed_method_ignored_witness :
  step (Message (Parsed (JObj [("jsonrpc", JStr "2.0");
                               ("method", JStr "workspace/configuration");
                               ("id", JNum 7)]))) client_one_request
  = (client_one_request, Ok RUnit).
Proof.
  apply (unsubscribed_method_ignored client_one_request _ "workspace/configuration");
    vm_compute; reflexivity.
Defined.
(** ** Further properties of the engine *)

(** *** Which payloads make [_handleMessage] raise *)

(** An element of a batch that cannot make [_handleMessage] raise,
    whatever the session holds: it is not [null], not a number that
    [JSON.stringify] writes as [null], not an object whose error
    cannot be built, and not a batch with such an element. *)
Fixpoint quiet_element (m : json) : bool :=
  match m with
  | JNull | JNum (Infinite _) => false
  | JArr ms => forallb quiet_element ms
  | _ => negb (error_raises m)
  end.

Lemma for_each_call_handler_ok ps hs st : snd (for_each (call_handler ps) hs st) = Ok tt.
Proof.
  revert st. induction hs as [ | h hs IH]; intros st; [reflexivity | ].
  simpl. unfold bind. simpl. apply IH.
Qed.

Lemma respond_result e msg st :
  snd (respond e msg st) = if error_raises msg then Throw TypeError else Ok tt.
Proof.
  unfold respond, error_raises, rpc_error, new_Error, bind, lift, clearTimeout,
    pending_delete, modify.
  destruct (get msg "error") as [err | ]; [ | reflexivity].
  destruct (truthy (Some err)); [ | reflexivity].
  cbn [andb fst snd]. destruct (ToString_raises _); reflexivity.
Qed.

Lemma handle_one_result msg st :
  snd (handle_one msg st) =
    match msg with
    | JNull => Throw TypeError
    | JObj fs =>
        if bool_decide (is_Some (pending_get (assoc "id" fs) st)) && error_raises msg
        then Throw TypeError else Ok tt
    | _ => Ok tt
    end.
Proof.
  assert (Hemit : forall m ps s, snd (_emit m ps s) = Ok tt).
  { intros m ps s. unfold _emit. apply for_each_call_handler_ok. }
  unfold handle_one, bind.
  destruct msg as [ | b | x | s | xs | fs]; simpl; try reflexivity.
  destruct (assoc "id" fs) as [v | ] eqn:Hid.
  - rewrite bool_decide_eq_true_2 by eauto.
    destruct (pending_get (Some v) st) as [e | ]; simpl; [apply respond_result | reflexivity].
  - rewrite bool_decide_eq_false_2 by (intros [? ?]; discriminate). simpl.
    destruct (truthy (assoc "method" fs)); [apply Hemit | reflexivity].
Qed.

Lemma handle_one_quiet_element msg st :
  quiet_element msg = true -> (forall ms, msg <> JArr ms) -> snd (handle_one msg st) = Ok tt.
Proof.
  intros Hq Hna. rewrite handle_one_result.
  destruct msg as [ | b | x | s | xs | fs]; try reflexivity; try discriminate.
  simpl in Hq. apply negb_true_iff in Hq. rewrite Hq. by rewrite andb_false_r.
Qed.

Lemma quiet_element_reparse m :
  quiet_element m = true -> quiet_element (reparse m) = true.
Proof.
  induction m as [ | b | x | s | xs IH | fs] using json_ind; intros Hq; try exact Hq.
  - destruct x; [exact Hq .. | discriminate].
  - simpl in Hq |- *. rewrite forallb_forall in Hq |- *. intros y Hy.
    apply in_map_iff in Hy as (z & <- & Hz). rewrite Forall_forall in IH.
    apply IH; [by apply list_elem_of_In | by apply Hq].
  - change (negb (error_raises (reparse (JObj fs))) = true).
    rewrite error_raises_reparse. exact Hq.
Qed.

Lemma only_TypeError (n : nat) (msg : json) (st : state) :
  snd (dispatch n msg st) = Ok tt \/ snd (dispatch n msg st) = Throw TypeError.
Proof.
  revert msg st. induction n as [ | n IH]; intros msg st.
  - destruct msg as [ | b | x | s | xs | fs]; try (simpl; auto; fail);
      rewrite ?handle_one_result; simpl; auto.
    change (dispatch 0 (JObj fs) st) with (handle_one (JObj fs) st).
    rewrite handle_one_result. destruct (_ && _); auto.
  - destruct msg as [ | b | x | s | xs | fs]; try (simpl; auto; fail).
    + simpl. revert st. induction xs as [ | y ys IHys]; intros st; [by left | ].
      simpl. unfold bind. destruct (IH (reparse y) st) as [Hy | Hy];
        destruct (dispatch n (reparse y) st) as [st1 [[] | e]]; simpl in *;
        try discriminate; [apply IHys | right; exact Hy].
    + change (dispatch (S n) (JObj fs) st) with (handle_one (JObj fs) st).
      rewrite handle_one_result. destruct (_ && _); auto.
Qed.

Lemma dispatch_quiet (n : nat) (msg : json) (st : state) :
  quiet_element msg = true -> (depth msg <= n)%nat -> snd (dispatch n msg st) = Ok tt.
Proof.
  revert msg st. induction n as [ | n IH]; intros msg st Hq Hd.
  - destruct msg as [ | b | x | s | xs | fs]; try (simpl in Hd; lia);
      apply handle_one_quiet_element; (exact Hq || discriminate).
  - destruct msg as [ | b | x | s | xs | fs];
      try (apply handle_one_quiet_element; (exact Hq || discriminate)).
    simpl in Hq |- *. revert st. induction xs as [ | y ys IHys]; intros st; [reflexivity | ].
    simpl in Hq. apply andb_true_iff in Hq as [Hy Hys].
    assert (Hdy : (depth (reparse y) <= n)%nat).
    { rewrite depth_reparse. pose proof (depth_elem y (y :: ys) ltac:(left)). lia. }
    assert (Hdys : (depth (JArr ys) <= S n)%nat) by (simpl in Hd |- *; lia).
    simpl. unfold bind.
    pose proof (IH (reparse y) st (quiet_element_reparse y Hy) Hdy) as Hr.
    destruct (dispatch n (reparse y) st) as [st1 [[] | e]]; [ | discriminate].
    apply IHys; assumption.
Qed.

(** [_handleMessage] raises nothing but a [TypeError].  It raises one
    on [null]: [Object.prototype.hasOwnProperty.call(null, 'id')];
    and on an object whose [id] names a pending entry and whose
    [error] is truthy with a message that cannot be made a string:
    [new Error] raises, after the entry was removed.  Text that does
    not parse, numbers, strings, booleans and all other objects never
    make it raise.  A batch whose first element is [null], or a number
    that is not finite, which [JSON.stringify] writes as [null],
    raises; a batch raises nothing when no element, at any depth, is
    one of these or an object whose error cannot be built. *)
Theorem handleMessage_raises_only_a_TypeError (raw : payload) (st : state) :
  let r := snd (_handleMessage raw st) in
  (r = Ok tt \/ r = Throw TypeError)
  /\ match raw with
     | Malformed _ => r = Ok tt
     | Parsed JNull => r = Throw TypeError
     | Parsed (JObj fs) =>
         r = if bool_decide (is_Some (pending_get (assoc "id" fs) st))
                && error_raises (JObj fs)
             then Throw TypeError else Ok tt
     | Parsed (JArr ms) =>
         (Forall (fun m => quiet_element m = true) ms -> r = Ok tt)
         /\ (forall m ms', ms = m :: ms' -> reparse m = JNull -> r = Throw TypeError)
     | Parsed _ => r = Ok tt
     end.
Proof.
  intros r. split.
  - destruct raw as [why | msg]; [by left | apply only_TypeError].
  - destruct raw as [why | [ | b | x | s | ms | fs]]; try reflexivity.
    + split.
      * intros Hall. apply (dispatch_quiet _ (JArr ms) st); [ | reflexivity].
        simpl. apply forallb_forall. intros m Hm. rewrite Forall_forall in Hall.
        apply Hall. by apply list_elem_of_In.
      * intros m ms' -> Hm. unfold r. rewrite handleMessage_batch. simpl. unfold bind.
        rewrite Hm. reflexivity.
    + unfold r. rewrite handleMessage_object. exact (handle_one_result (JObj fs) st).
Qed.

(** *** Payloads with an [id] and the subscribers *)

Lemma respond_effects e msg st :
  effects (fst (respond e msg st)) = effects st /\ wire (fst (respond e msg st)) = wire st
  /\ _handlers (fst (respond e msg st)) = _handlers st.
Proof.
  unfold respond, rpc_error, new_Error, bind, lift, clearTimeout, pending_delete, settle,
    modify. simpl.
  repeat case_match; simpl; auto.
Qed.

(** A payload object with an own [id] is taken for a response whatever
    else it carries: it calls no subscriber, logs nothing and writes
    nothing, also when its [method] has subscribers.  So a request of
    the server, which carries an id, never reaches the callback
    subscribed to its method.  The call returns, or raises the
    [TypeError] of an error that cannot be built. *)
Lemma message_with_id_reaches_no_subscriber (fs : list (string * json)) (st : state) :
  is_Some (assoc "id" fs) ->
  let st' := fst (_handleMessage (Parsed (JObj fs)) st) in
  let r := snd (_handleMessage (Parsed (JObj fs)) st) in
  (r = Ok tt \/ r = Throw TypeError)
  /\ (pending_get (assoc "id" fs) st = None -> r = Ok tt /\ st' = st)
  /\ effects st' = effects st
  /\ wire st' = wire st
  /\ _handlers st' = _handlers st.
Proof.
  intros Hid st' r. split; [apply only_TypeError | ].
  unfold st', r. rewrite handleMessage_object. split.
  - intros Hnone. by rewrite (handle_one_unmatched fs st Hid Hnone).
  - unfold handle_one, bind. simpl.
    rewrite bool_decide_eq_true_2 by exact Hid.
    destruct (pending_get (assoc "id" fs) st) as [e | ]; [apply respond_effects | auto].
Qed.

Definition registerCapability_request : list (string * json) :=
  [("jsonrpc", JStr "2.0"); ("id", JNum 7); ("method", JStr "client/registerCapability");
   ("params", JObj [("registrations", JArr [])])].

Lemma message_with_id_reaches_no_subscriber_witness :
  _handlers createLspClient !! "client/registerCapability"
    = Some [{| h_id := 2; h_raises := false |}]
  /\ effects (fst (_handleMessage (Parsed (JObj registerCapability_request)) createLspClient))
     = effects createLspClient.
Proof.
  split; [reflexivity | ].
  apply (message_with_id_reaches_no_subscriber registerCapability_request createLspClient).
  simpl. eauto.
Defined.

(** *** Notifications and their subscribers *)

(** What calling the subscribers [hs] with [params] leaves in the
    record: each call, and after a call that raised the
    [console.error] of [_emit]. *)
Definition calls (params : jsval) (hs : list handler) : list effect :=
  flat_map (fun h => Called (h_id h) params :: if h_raises h then [ConsoleError] else []) hs.

Lemma set_effects_same st : set_effects (effects st) st = st.
Proof. destruct st; reflexivity. Qed.

Lemma for_each_call_handler ps hs st :
  for_each (call_handler ps) hs st = (set_effects (effects st ++ calls ps hs) st, Ok tt).
Proof.
  revert st. induction hs as [ | h hs IH]; intros st; simpl.
  - unfold ret. by rewrite app_nil_r, set_effects_same.
  - unfold bind. simpl. rewrite IH. simpl. unfold set_effects at 1. simpl.
    by rewrite <- app_assoc.
Qed.

(** The subscribers of a method are a set. *)
Definition handlers_nodup (st : state) : Prop :=
  forall m hs, _handlers st !! m = Some hs -> NoDup hs.

Lemma on_handlers_nodup m h st :
  handlers_nodup st -> handlers_nodup (fst (on m h st)).
Proof.
  intros Hnd m' hs. unfold on, modify. simpl.
  destruct (decide (m' = m)) as [-> | Hne].
  - rewrite lookup_insert_eq. intros [= <-].
    destruct (_handlers st !! m) as [hs0 | ] eqn:Hm; simpl.
    + specialize (Hnd m hs0 Hm). destruct (decide (h ∈ hs0)); [exact Hnd | ].
      apply NoDup_app. split; [exact Hnd | ]. split; [ | apply NoDup_singleton].
      intros x Hx ->%list_elem_of_singleton. contradiction.
    + destruct (decide (h ∈ [])) as [Hin | _]; [inversion Hin | ]. apply NoDup_singleton.
  - rewrite lookup_insert_ne by congruence. apply Hnd.
Qed.

Lemma off_handlers_nodup m h st :
  handlers_nodup st -> handlers_nodup (fst (off m h st)).
Proof.
  intros Hnd m' hs. unfold off, modify. simpl.
  destruct (decide (m' = m)) as [-> | Hne].
  - rewrite lookup_alter_eq. destruct (_handlers st !! m) as [hs0 | ] eqn:Hm; simpl; [ | discriminate].
    intros [= <-]. apply NoDup_filter, (Hnd m hs0 Hm).
  - rewrite lookup_alter_ne by congruence. apply Hnd.
Qed.

Ltac same_handlers :=
  intros; unfold keeps, same_on; intros;
  unfold send, log, settle, clearTimeout, pending_delete, call_handler, modify, mark_aborted;
  simpl; repeat case_match; reflexivity.

(** Only [on] and the function it returns change the subscriptions. *)
Lemma step_handlers ev st :
  (forall m h, ev <> CallOn m h) -> (forall m h, ev <> CallOff m h) ->
  _handlers (fst (step ev st)) = _handlers st.
Proof.
  intros Hon Hoff. unfold step.
  assert (H : _handlers (fst (handle ev st)) = _handlers st).
  { assert (Hrequest : forall m ps sg, _handlers (fst (request m ps sg st)) = _handlers st).
    { intros m ps sg. destruct (request_cases m ps sg st) as [[_ ->] | [_ ->]]; reflexivity. }
    assert (Hnotify : forall m ps s, _handlers (fst (notify m ps s)) = _handlers s).
    { intros m ps s. apply (notify_drain_frame m ps s). }
    destruct ev as [mth ps sg | mth ps | mth h | mth h | ps | | | raw | t | s | r | ];
      simpl; rewrite ?unit_fst.
    - unfold bind. specialize (Hrequest mth ps sg).
      destruct (request mth ps sg st) as [st1 [p | e]]; exact Hrequest.
    - apply Hnotify.
    - destruct (Hon mth h eq_refl).
    - destruct (Hoff mth h eq_refl).
    - unfold initialize. specialize (Hrequest "initialize" ps None).
      destruct (request "initialize" ps None st) as [st1 [p | e]]; exact Hrequest.
    - unfold initialized. specialize (Hnotify "initialized" (Some (JObj [])) st).
      destruct (notify _ _ st) as [st1 [ | ]]; exact Hnotify.
    - unfold shutdown. specialize (Hrequest "shutdown" None None).
      destruct (request "shutdown" None None st) as [st1 [p | e]]; [exact Hrequest | ].
      pose proof (d_handlers _ _ (resume_drain_frame KShutdown (Rejected e) st1)) as H'.
      simpl in H'. rewrite <- completion_fst in H'.
      destruct (completion (shutdown_resume (Rejected e) st1)) as [st2 o]. simpl in *.
      congruence.
    - apply (handleMessage_keeps (same_on _handlers)); try apply _; same_handlers.
    - apply (fire_timer_keeps (same_on _handlers)); try apply _; same_handlers.
    - apply (fire_abort_keeps (same_on _handlers)); try apply _; same_handlers.
    - reflexivity.
    - apply (keepalive_keeps (same_on _handlers)); same_handlers. }
  destruct (handle ev st) as [st1 r]. simpl in *.
  destruct (run_microtasks_frame st1) as (_ & _ & -> & _). exact H.
Qed.

Lemma step_handlers_nodup ev st : handlers_nodup st -> handlers_nodup (fst (step ev st)).
Proof.
  intros Hnd.
  assert (Hsame : forall s1 s2, _handlers s2 = _handlers s1 -> handlers_nodup s1 -> handlers_nodup s2).
  { intros s1 s2 Heq H m hs. rewrite Heq. apply H. }
  destruct ev as [mth ps sg | mth ps | mth h | mth h | ps | | | raw | t | s | r | ];
    try (eapply Hsame; [apply step_handlers; discriminate | exact Hnd]).
  - eapply Hsame; [ | apply (on_handlers_nodup mth h), Hnd].
    unfold step. cbn [handle]. pose proof (unit_fst (on mth h) st) as Hu.
    destruct (unit_ (on mth h) st) as [st1 r]. cbn [fst] in *. subst st1.
    by destruct (run_microtasks_frame (fst (on mth h st))) as (_ & _ & -> & _).
  - eapply Hsame; [ | apply (off_handlers_nodup mth h), Hnd].
    unfold step. cbn [handle]. pose proof (unit_fst (off mth h) st) as Hu.
    destruct (unit_ (off mth h) st) as [st1 r]. cbn [fst] in *. subst st1.
    by destruct (run_microtasks_frame (fst (off mth h st))) as (_ & _ & -> & _).
Qed.

Lemma reachable_handlers_nodup st : reachable st -> handlers_nodup st.
Proof.
  intros (tm & tr & ->).
  assert (H0 : handlers_nodup (new_JsonRpc tm)) by (intros m hs H; simpl in H; simplify_map_eq).
  revert H0. generalize (new_JsonRpc tm). induction tr as [ | ev tr IH]; intros st H; simpl; [exact H | ].
  apply IH, step_handlers_nodup, H.
Qed.

(** A payload object without an [id] whose [method] is a string other
    than the empty one is a notification: every subscriber of that
    method is called with the payload's [params], in the order of
    subscription and once each; a subscriber that raises is reported by
    [console.error] and the ones after it are still called; the
    session is otherwise as before and nothing is raised. *)
Lemma notification_calls_each_subscriber
    (st : state) (fs : list (string * json)) (m : string) :
  reachable st ->
  assoc "id" fs = None -> assoc "method" fs = Some (JStr m) -> m <> "" ->
  let hs := default [] (_handlers st !! m) in
  _handleMessage (Parsed (JObj fs)) st =
    (set_effects (effects st ++ calls (assoc "params" fs) hs) st, Ok tt)
  /\ NoDup hs.
Proof.
  intros Hreach Hid Hm Hne hs. split.
  - simpl. unfold handle_one, bind. simpl.
    rewrite bool_decide_eq_false_2 by (rewrite Hid; intros [? ?]; discriminate).
    rewrite Hm. simpl.
    destruct (String.eqb_spec m "") as [-> | _]; [congruence | ]. simpl.
    unfold _emit. apply for_each_call_handler.
  - unfold hs. destruct (_handlers st !! m) as [hs0 | ] eqn:H; simpl; [ | constructor].
    apply (reachable_handlers_nodup st Hreach m hs0 H).
Qed.

Definition diagnostics_notification : list (string * json) :=
  [("jsonrpc", JStr "2.0"); ("method", JStr "textDocument/publishDiagnostics");
   ("params", JObj [("uri", JStr "file:///a.lua"); ("diagnostics", JArr [])])].

Definition two_subscribers : state :=
  run [CallOn "textDocument/publishDiagnostics" {| h_id := 7; h_raises := true |};
       CallOn "textDocument/publishDiagnostics" {| h_id := 8; h_raises := false |}]
    (new_JsonRpc None).

Lemma notification_calls_each_subscriber_witness :
  let ps := Some (JObj [("uri", JStr "file:///a.lua"); ("diagnostics", JArr [])]) in
  effects (fst (_handleMessage (Parsed (JObj diagnostics_notification)) two_subscribers))
    = [Called 7 ps; ConsoleError; Called 8 ps].
Proof.
  intros ps.
  assert (Hreach : reachable two_subscribers) by (eexists None, _; reflexivity).
  destruct (notification_calls_each_subscriber two_subscribers diagnostics_notification
              "textDocument/publishDiagnostics" Hreach eq_refl eq_refl ltac:(discriminate))
    as [H _].
  rewrite H. reflexivity.
Defined.

(** *** Subscribing and unsubscribing *)

(** [on(method, handler)] adds the handler after the ones subscribed
    before, unless it is subscribed already; subscribing again changes
    nothing.  The function [on] returns takes that handler out and
    keeps the others in their order, so for a handler that was not
    subscribed before the method has its earlier subscribers again.
    The subscribers of other methods are never touched. *)
Lemma subscribe_then_unsubscribe (m : string) (h : handler) (st : state) :
  let hs := default [] (_handlers st !! m) in
  let st1 := fst (on m h st) in
  let st2 := fst (off m h st1) in
  _handlers st1 !! m = Some (if decide (h ∈ hs) then hs else (hs ++ [h])%list)
  /\ fst (on m h st1) = st1
  /\ _handlers st2 !! m = Some (filter (fun h' => h' <> h) hs)
  /\ (h ∉ hs -> _handlers st2 !! m = Some hs)
  /\ (forall m', m' <> m ->
        _handlers st1 !! m' = _handlers st !! m' /\ _handlers st2 !! m' = _handlers st !! m').
Proof.
  intros hs st1 st2.
  assert (H1 : _handlers st1 !! m = Some (if decide (h ∈ hs) then hs else (hs ++ [h])%list)).
  { unfold st1, on, modify. simpl. by rewrite lookup_insert_eq. }
  assert (H2 : _handlers st2 !! m = Some (filter (fun h' => h' <> h) hs)).
  { change (_handlers st2) with (alter (filter (fun h' => h' <> h)) m (_handlers st1)).
    rewrite lookup_alter_eq, H1. simpl. f_equal.
    destruct (decide (h ∈ hs)); [reflexivity | ].
    rewrite filter_app. rewrite filter_cons_False by (intros Hc; by apply Hc).
    rewrite filter_nil. apply app_nil_r. }
  split; [exact H1 | ]. split; [ | split; [exact H2 | split]].
  - assert (Hin : h ∈ (if decide (h ∈ hs) then hs else (hs ++ [h])%list)).
    { destruct (decide (h ∈ hs)); [assumption | ].
      apply elem_of_app. right. by apply list_elem_of_singleton. }
    change (fst (on m h st1)) with
      (set_handlers
         (<[m := if decide (h ∈ default [] (_handlers st1 !! m))
                 then default [] (_handlers st1 !! m)
                 else (default [] (_handlers st1 !! m) ++ [h])%list]> (_handlers st1)) st1).
    rewrite H1. simpl default. rewrite decide_True by exact Hin.
    rewrite insert_id by exact H1. destruct st1; reflexivity.
  - intros Hnin. rewrite H2. f_equal. clear -Hnin.
    induction hs as [ | x l IH]; [reflexivity | ].
    apply not_elem_of_cons in Hnin as [Hx Hl].
    rewrite filter_cons_True by congruence. f_equal. by apply IH.
  - intros m' Hne.
    assert (H3 : _handlers st1 !! m' = _handlers st !! m').
    { unfold st1, on, modify. simpl. by rewrite lookup_insert_ne by congruence. }
    split; [exact H3 | ].
    change (_handlers st2) with (alter (filter (fun h' => h' <> h)) m (_handlers st1)).
    by rewrite lookup_alter_ne by congruence.
Qed.

Lemma subscribe_then_unsubscribe_witness :
  let h := {| h_id := 9; h_raises := false |} in
  let st1 := fst (on "window/showMessage" h createLspClient) in
  _handlers st1 !! "window/showMessage" = Some [{| h_id := 0; h_raises := false |}; h]
  /\ _handlers (fst (off "window/showMessage" h st1)) !! "window/showMessage"
     = Some [{| h_id := 0; h_raises := false |}].
Proof.
  intros h st1.
  destruct (subscribe_then_unsubscribe "window/showMessage" h createLspClient)
    as (H1 & _ & _ & H2 & _).
  split; [exact H1 | ]. apply H2. vm_compute.
  intros Hin. apply list_elem_of_singleton in Hin. discriminate.
Defined.

(** *** Promises, entries and timers go together *)

(** Every promise [request] has returned is settled or still has its
    entry in the pending table. *)
Definition tracked (st : state) : Prop :=
  forall p, (p < next_promise st)%nat -> promises st !! p = None ->
    exists i e, _pending st !! i = Some e /\ reject e = p.

Definition tracked_kept : relation state :=
  fun st st' => wf st /\ tracked st -> wf st' /\ tracked st'.

Global Instance tracked_kept_preorder : PreOrder tracked_kept.
Proof. split; [intros st H; exact H | intros st1 st2 st3 H12 H23 H; auto]. Qed.

Lemma tracked_frame st st' :
  tracked st -> promises st' = promises st -> _pending st' = _pending st ->
  next_promise st' = next_promise st -> tracked st'.
Proof. intros H H1 H2 H3. unfold tracked. rewrite H1, H2, H3. exact H. Qed.

Lemma finish_next_promise i t p o st :
  next_promise (finish i t p o st) = next_promise st.
Proof. unfold finish. rewrite (q_next_promise _ _ (settle_quiet p o _)). reflexivity. Qed.

Lemma finish_tracked i t p o st :
  tracked st -> (forall e, _pending st !! i = Some e -> reject e = p) ->
  tracked (finish i t p o st).
Proof.
  intros Htr Hi q Hq Hnone. rewrite finish_next_promise in Hq.
  destruct (finish_fields i t p o st) as (Hp & _ & _ & _ & Hpr).
  rewrite Hpr in Hnone. rewrite Hp.
  assert (Hqp : promises st !! q = None /\ q <> p).
  { destruct (promises st !! p) as [o' | ] eqn:Hpp.
    - split; [exact Hnone | ]. intros ->. congruence.
    - destruct (decide (q = p)) as [-> | Hne]; [by rewrite lookup_insert_eq in Hnone | ].
      by rewrite lookup_insert_ne in Hnone. }
  destruct Hqp as [Hqn Hne].
  destruct (Htr q Hq Hqn) as (j & e & Hj & Hrej).
  exists j, e. split; [ | exact Hrej].
  rewrite lookup_delete_ne; [exact Hj | ].
  intros ->. apply Hne. rewrite <- Hrej. by apply Hi.
Qed.

Lemma notify_tracked m ps st : tracked st -> tracked (fst (notify m ps st)).
Proof.
  intros H. destruct (notify_drain_frame m ps st). by apply (tracked_frame st).
Qed.

Lemma on_abort_tracked cb st :
  tracked st -> coherent st cb -> tracked (fst (on_abort cb st)).
Proof.
  intros Htr (_ & _ & _ & Hc). rewrite on_abort_finish. cbn [fst].
  destruct (notify_drain_frame "$/cancelRequest" (Some (JObj [("id", JNum (a_id cb))])) st)
    as [_ Hp _ _ _ _ _ _ _ _ _ _].
  apply finish_tracked; [by apply notify_tracked | ].
  intros e He. rewrite Hp in He. rewrite He in Hc. by destruct Hc.
Qed.

Lemma for_each_on_abort_tracked cbs st :
  wf st -> tracked st -> Forall (coherent st) cbs -> NoDup (a_id <$> cbs) ->
  tracked (fst (for_each on_abort cbs st)).
Proof.
  revert st. induction cbs as [ | c cbs IH]; intros st Hwf Htr Hall Hnd; [exact Htr | ].
  apply Forall_cons in Hall as [Hc Hall]. rewrite fmap_cons in Hnd.
  apply NoDup_cons in Hnd as [Hnin Hnd].
  pose proof (on_abort_wf c st Hwf Hc) as Hwf0.
  pose proof (on_abort_tracked c st Htr Hc) as Htr0.
  pose proof (fun cb' => on_abort_coherent c st cb' Hwf Hc) as Hcoh.
  pose proof (on_abort_finish c st) as Hfin.
  simpl for_each. unfold bind. destruct (on_abort c st) as [st0 r].
  injection Hfin as _ ->. cbn [fst] in *.
  apply IH; [exact Hwf0 | exact Htr0 | | exact Hnd].
  rewrite Forall_forall in Hall |- *. intros cb Hin. apply Hcoh; [by apply Hall | ].
  intros Heq. apply Hnin. rewrite <- Heq. apply list_elem_of_fmap. eauto.
Qed.

Lemma requested_tracked m ps sg st : wf st -> tracked st -> tracked (requested m ps sg st).
Proof.
  intros Hwf Htr p Hp Hnone. simpl in *.
  destruct (decide (p = next_promise st)) as [-> | Hne].
  - exists (_id st), (entry_of m st). by rewrite lookup_insert_eq.
  - destruct (Htr p ltac:(lia) Hnone) as (j & e & Hj & Hrej).
    exists j, e. split; [ | exact Hrej].
    rewrite lookup_insert_ne; [exact Hj | ].
    intros <-. rewrite (wf_fresh_id st Hwf) in Hj. discriminate.
Qed.

Lemma request_tracked m ps sg : keeps tracked_kept (request m ps sg).
Proof.
  intros st [Hwf Htr]. split; [by apply request_wf | ].
  destruct (request_cases m ps sg st) as [[_ ->] | [_ ->]]; cbn [fst].
  - by apply requested_tracked.
  - by apply (tracked_frame st).
Qed.

Lemma handle_one_tracked msg st :
  wf st -> tracked st -> snd (handle_one msg st) = Ok tt -> tracked (fst (handle_one msg st)).
Proof.
  intros Hwf Htr. unfold handle_one, bind.
  pose proof (hasOwnProperty_state msg "id" st) as Hst.
  destruct (hasOwnProperty msg "id" st) as [st0 [[] | e]]; simpl in Hst; subst st0;
    [ | | intros _; exact Htr].
  - destruct (pending_get (get msg "id") st) as [e | ] eqn:He; [ | intros _; exact Htr].
    apply pending_get_Some in He as (i & Hid & Hi).
    destruct (wf_pending _ Hwf i e Hi) as (_ & Hrr & _).
    rewrite (respond_finish i e msg st Hid Hrr).
    destruct (error_raises msg); [discriminate | intros _; cbn [fst]].
    apply finish_tracked; [exact Htr | ]. intros e' He'. congruence.
  - intros _. destruct (truthy (get msg "method")); [ | exact Htr].
    unfold _emit. rewrite for_each_call_handler. by apply (tracked_frame st).
Qed.

Lemma dispatch_tracked n msg st :
  wf st -> tracked st -> snd (dispatch n msg st) = Ok tt -> tracked (fst (dispatch n msg st)).
Proof.
  revert msg st. induction n as [ | n IH]; intros msg st Hwf Htr;
    destruct msg as [ | b | x | s | xs | fs]; try (by apply handle_one_tracked).
  - intros _. exact Htr.
  - simpl. revert st Hwf Htr. induction xs as [ | y ys IHys]; intros st Hwf Htr;
      [intros _; exact Htr | ].
    simpl. unfold bind.
    pose proof (keeps_dispatch wf_kept handle_one_wf n (reparse y) st Hwf) as Hwf1.
    pose proof (IH (reparse y) st Hwf Htr) as Htr1.
    destruct (dispatch n (reparse y) st) as [st1 [[] | e]]; cbn [fst snd] in *;
      [ | discriminate].
    apply IHys; [exact Hwf1 | by apply Htr1].
Qed.

Lemma log_tracked t lv : keeps tracked_kept (log t lv).
Proof.
  intros st [Hwf Htr]. split; [by apply log_wf | by apply (tracked_frame st)].
Qed.

Lemma fire_timer_tracked t : keeps tracked_kept (fire_timer t).
Proof.
  intros st [Hwf Htr]. split; [by apply fire_timer_wf | ].
  destruct (timers st !! t) as [cb | ] eqn:Ht.
  - rewrite (fire_timer_finish t cb st Ht). cbn [fst].
    destruct (timer_closure st t cb Hwf Ht) as (e & He & _ & Hrej & _).
    apply finish_tracked; [exact Htr | ]. intros e' He'. congruence.
  - unfold fire_timer. rewrite Ht. exact Htr.
Qed.

Lemma fire_abort_tracked s : keeps tracked_kept (fire_abort s).
Proof.
  intros st [Hwf Htr]. split; [by apply fire_abort_wf | ].
  unfold fire_abort.
  destruct (signals st !! s) as [sig | ] eqn:Hs; simpl.
  - destruct (aborted sig); [exact Htr | ].
    apply for_each_on_abort_tracked.
    + apply (wf_mark_aborted s st Hwf).
    + by apply (tracked_frame st).
    + rewrite Forall_forall. intros c Hc.
      eapply coherent_frame; [apply (wf_listeners _ Hwf _ _ _ Hs Hc) | reflexivity ..].
    + apply (wf_listeners_nodup _ Hwf _ _ Hs).
  - by apply (tracked_frame st).
Qed.

Lemma run_microtasks_tracked st : tracked st -> tracked (run_microtasks st).
Proof.
  intros H. destruct (run_microtasks_frame st) as (_ & H2 & _ & _ & _ & H6 & H7 & _).
  by apply (tracked_frame st).
Qed.

Lemma handle_tracked ev st :
  wf st -> tracked st -> (forall raw, ev = Message raw -> snd (handle ev st) = Ok RUnit) ->
  tracked (fst (handle ev st)).
Proof.
  intros Hwf Htr Hret.
  assert (Hnotify : forall m ps, tracked (fst (notify m ps st))).
  { intros m ps. by apply notify_tracked. }
  destruct ev as [mth ps sg | mth ps | mth h | mth h | ps | | | raw | t | s | r | ];
    cbn [handle]; rewrite ?unit_fst.
  - unfold bind. pose proof (request_tracked mth ps sg st (conj Hwf Htr)) as [_ H].
    destruct (request mth ps sg st) as [st1 [p | e]]; exact H.
  - apply Hnotify.
  - by apply (tracked_frame st).
  - by apply (tracked_frame st).
  - unfold initialize.
    pose proof (request_tracked "initialize" ps None st (conj Hwf Htr)) as [_ H].
    destruct (request "initialize" ps None st) as [st1 [p | e]]; cbn [fst] in *; [ | exact H].
    by apply (tracked_frame st1).
  - unfold initialized. specialize (Hnotify "initialized" (Some (JObj []))).
    destruct (notify _ _ st) as [st1 [ | ]]; exact Hnotify.
  - unfold shutdown.
    pose proof (request_tracked "shutdown" None None st (conj Hwf Htr)) as [_ H].
    destruct (request "shutdown" None None st) as [st1 [p | e]]; cbn [fst] in *.
    + by apply (tracked_frame st1).
    + pose proof (resume_drain_frame KShutdown (Rejected e) st1) as H'.
      simpl in H'. rewrite <- completion_fst in H'.
      destruct (completion (shutdown_resume (Rejected e) st1)) as [st2 o]. cbn [fst] in *.
      destruct H'. by apply (tracked_frame st1).
  - specialize (Hret raw eq_refl). cbn [handle] in Hret. unfold unit_, bind in Hret.
    destruct raw as [why | msg].
    + apply (log_tracked _ _ st). by split.
    + apply dispatch_tracked; [exact Hwf | exact Htr | ].
      unfold _handleMessage in Hret.
      destruct (dispatch (depth msg) msg st) as [st1 [[] | e]]; [reflexivity | discriminate].
  - apply (fire_timer_tracked t st). by split.
  - apply (fire_abort_tracked s st). by split.
  - by apply (tracked_frame st).
  - destruct (keepalive_state st) as [-> | [_ ->]]; [exact Htr | by apply (tracked_frame st)].
Qed.

(** No payload of the trace made [_handleMessage] raise. *)
Fixpoint messages_returned (tr : list event) (st : state) : Prop :=
  match tr with
  | [] => True
  | ev :: tr' =>
      (forall raw, ev = Message raw -> snd (step ev st) = Ok RUnit)
      /\ messages_returned tr' (fst (step ev st))
  end.

Lemma step_snd ev st : snd (step ev st) = snd (handle ev st).
Proof. unfold step. by destruct (handle ev st). Qed.

Lemma run_tracked tr st :
  wf st -> tracked st -> messages_returned tr st -> tracked (run tr st).
Proof.
  revert st. induction tr as [ | ev tr IH]; intros st Hwf Htr Hret; simpl; [exact Htr | ].
  destruct Hret as [Hev Hret].
  apply IH; [by apply step_wf | | exact Hret].
  assert (H : tracked (fst (handle ev st))).
  { apply handle_tracked; [exact Hwf | exact Htr | ].
    intros raw Heq. rewrite <- step_snd. exact (Hev raw Heq). }
  unfold step. destruct (handle ev st) as [st1 r]. by apply run_microtasks_tracked.
Qed.

(** After any trace of events: every pending entry lies under an id
    the counter has passed, has an unsettled promise and a running
    timer, armed with the timeout the session was made with
    ([opts.timeoutMs], or 10000 when that is [undefined] or [null]),
    whose callback names that entry; every running timer belongs to a
    pending entry; and no two entries share a promise or a timer.
    When no payload of the trace made [_handleMessage] raise, every
    promise [request] has returned is settled or still has its entry,
    hence a timer that will settle it.  (A response whose error
    cannot be built removes the entry and settles nothing: see
    [unprintable_error_response].) *)
Theorem pending_entries_timers_and_promises_correspond (tm : option Z) (tr : list event) :
  let st := run tr (new_JsonRpc tm) in
  (forall i e, _pending st !! i = Some e ->
     1 <= i < _id st /\ resolve e = reject e /\ promises st !! reject e = None /\
     timers st !! timer e =
       Some {| t_id := i; t_reject := reject e; t_method := method e;
               t_delay := default 10000 tm |})
  /\ (forall t cb, timers st !! t = Some cb ->
        exists e, _pending st !! t_id cb = Some e /\ timer e = t)
  /\ (messages_returned tr (new_JsonRpc tm) ->
      forall p, (p < next_promise st)%nat -> promises st !! p = None ->
        exists i e, _pending st !! i = Some e /\ reject e = p)
  /\ (forall i j e e', _pending st !! i = Some e -> _pending st !! j = Some e' ->
        reject e = reject e' \/ timer e = timer e' -> i = j).
Proof.
  intros st.
  assert (Hwf : wf st) by apply run_wf, wf_new.
  assert (Htm : timeoutMs st = default 10000 tm).
  { apply (ev_timeoutMs _ _ (run_evolves tr (new_JsonRpc tm))). }
  split; [ | split; [ | split]].
  - intros i e He. destruct (wf_pending _ Hwf i e He) as (H1 & H2 & _ & H4 & H5).
    rewrite Htm in H5. auto.
  - intros t cb Ht. by destruct (wf_timers _ Hwf t cb Ht) as [_ H].
  - intros Hret. apply run_tracked; [apply wf_new | | exact Hret].
    intros p Hp. simpl in Hp. lia.
  - intros i j e e' Hi Hj [Heq | Heq]; [by apply (wf_inj _ Hwf i j e e') | ].
    destruct (wf_pending _ Hwf i e Hi) as (_ & _ & _ & _ & H1).
    destruct (wf_pending _ Hwf j e' Hj) as (_ & _ & _ & _ & H2).
    rewrite Heq, H2 in H1. by injection H1.
Qed.

(** *** The ids on the wire *)

(** The ids of the Requests written, in the order they were written. *)
Definition request_ids (w : list wire_msg) : list Z :=
  omap (fun m => match m with Request i _ _ => Some i | Notification _ _ => None end) w.

Lemma request_ids_app w1 w2 : request_ids (w1 ++ w2) = (request_ids w1 ++ request_ids w2)%list.
Proof. apply omap_app. Qed.

Lemma elem_of_request_ids i w :
  i ∈ request_ids w <-> exists m ps, Request i m ps ∈ w.
Proof.
  unfold request_ids. rewrite list_elem_of_omap. split.
  - intros ([j m ps | m ps] & Hin & Heq); [ | discriminate].
    injection Heq as ->. eauto.
  - intros (m & ps & Hin). exists (Request i m ps). auto.
Qed.

(** A change that leaves the counter alone writes no Request. *)
Lemma evolves_no_request st st' :
  evolves st st' -> _id st' = _id st -> request_ids (wire st') = request_ids (wire st).
Proof.
  intros [_ _ (w & Hw & Hr) _ _ _ _] Hid. rewrite Hw, request_ids_app.
  assert (Hnil : request_ids w = []).
  { destruct (request_ids w) as [ | i l] eqn:Hl; [reflexivity | ].
    assert (Hin : i ∈ request_ids w) by (rewrite Hl; left).
    apply elem_of_request_ids in Hin as (m & ps & Hin). apply Hr in Hin. lia. }
  by rewrite Hnil, app_nil_r.
Qed.

Lemma request_request_ids m ps sg st :
  request_ids (wire (fst (request m ps sg st))) =
    (request_ids (wire st) ++ if decide (_ws st = Some OPEN) then [_id st] else [])%list.
Proof.
  destruct (request_cases m ps sg st) as [[Ho ->] | [Hc ->]]; cbn [fst].
  - rewrite decide_True by exact Ho. simpl. by rewrite request_ids_app.
  - rewrite decide_False by exact Hc. simpl. by rewrite app_nil_r.
Qed.

(** One turn writes at most one Request, under the id the counter
    held. *)
Lemma step_request_ids ev st :
  request_ids (wire (fst (step ev st))) = request_ids (wire st)
  \/ request_ids (wire (fst (step ev st))) = (request_ids (wire st) ++ [_id st])%list.
Proof.
  assert (Hh : request_ids (wire (fst (handle ev st))) = request_ids (wire st)
               \/ request_ids (wire (fst (handle ev st))) =
                    (request_ids (wire st) ++ [_id st])%list).
  { assert (Hrequest : forall m ps sg,
              request_ids (wire (fst (request m ps sg st))) = request_ids (wire st)
              \/ request_ids (wire (fst (request m ps sg st))) =
                   (request_ids (wire st) ++ [_id st])%list).
    { intros m ps sg. rewrite request_request_ids.
      destruct (decide _); [by right | left; apply app_nil_r]. }
    destruct (calls_request ev) eqn:Hev.
    - destruct ev as [mth ps sg | mth ps | mth h | mth h | ps | | | raw | t | s | r | ];
        try discriminate; cbn [handle].
      + unfold bind. specialize (Hrequest mth ps sg).
        destruct (request mth ps sg st) as [st1 [p | e]]; exact Hrequest.
      + unfold initialize. specialize (Hrequest "initialize" ps None).
        destruct (request "initialize" ps None st) as [st1 [p | e]]; exact Hrequest.
      + unfold shutdown. specialize (Hrequest "shutdown" None None).
        pose proof (request_id "shutdown" None None st) as Hid.
        destruct (request "shutdown" None None st) as [st1 [p | e]]; [exact Hrequest | ].
        pose proof (resume_evolves KShutdown (Rejected e) st1) as H'.
        pose proof (d_id _ _ (resume_drain_frame KShutdown (Rejected e) st1)) as Hid'.
        simpl in H', Hid'. rewrite <- completion_fst in H', Hid'.
        destruct (completion (shutdown_resume (Rejected e) st1)) as [st2 o]. cbn [fst] in *.
        by rewrite (evolves_no_request st1 st2 H' Hid').
    - left. apply evolves_no_request; [apply handle_evolves | ].
      rewrite handle_id, Hev. lia. }
  unfold step. destruct (handle ev st) as [st1 r]. cbn [fst] in *.
  rewrite (evolves_no_request st1 (run_microtasks st1) (run_microtasks_evolves st1));
    [exact Hh | by destruct (run_microtasks_frame st1)].
Qed.

(** The Requests a session has written carry strictly increasing ids,
    in the order they were written: no id is sent twice, and all are
    positive and below the counter. *)
Theorem request_ids_on_the_wire_increase (tm : option Z) (tr : list event) :
  let st := run tr (new_JsonRpc tm) in
  StronglySorted Z.lt (request_ids (wire st))
  /\ NoDup (request_ids (wire st))
  /\ Forall (fun i => 1 <= i < _id st) (request_ids (wire st)).
Proof.
  intros st.
  assert (Hwf : wf st) by apply run_wf, wf_new.
  assert (Hb : Forall (fun i => 1 <= i < _id st) (request_ids (wire st))).
  { rewrite Forall_forall. intros i (m & ps & Hin)%elem_of_request_ids.
    apply (wf_wire _ Hwf _ _ _ Hin). }
  assert (Hs : StronglySorted Z.lt (request_ids (wire st))).
  { unfold st. clear.
    assert (H0 : wf (new_JsonRpc tm) /\ StronglySorted Z.lt (request_ids (wire (new_JsonRpc tm))))
      by (split; [apply wf_new | constructor]).
    revert H0. generalize (new_JsonRpc tm).
    induction tr as [ | ev tr IH]; intros st [Hwf Hs]; simpl; [exact Hs | ].
    apply IH. split; [by apply step_wf | ].
    destruct (step_request_ids ev st) as [-> | ->]; [exact Hs | ].
    apply StronglySorted_app_2; [ | exact Hs | repeat constructor].
    intros i j (m & ps & Hin)%elem_of_request_ids ->%list_elem_of_singleton.
    apply (wf_wire _ Hwf _ _ _ Hin). }
  split; [exact Hs | split; [ | exact Hb]].
  clear -Hs. induction Hs as [ | i l _ IH Hall]; constructor; [ | exact IH].
  intros Hin. rewrite Forall_forall in Hall. specialize (Hall i Hin). lia.
Qed.

(** *** A request that has ended leaves nothing behind *)

Definition timed_out (m : string) : outcome :=
  Rejected (JsError ("RPC timeout for " +:+ m) None None).

(** Take a session with an open socket.  A call to [request] followed
    by the response bearing its id, or by its timer firing, leaves the
    pending table and the timers exactly as they were before the call,
    and of the promises it changes at most the one it returned: that
    one holds what the response says, or the timeout failure.  When
    the error of the response cannot be built, the response raises a
    [TypeError] and the promises are as before the call: the promise
    returned is unsettled, and has neither entry nor timer. *)
Lemma ended_request_leaves_the_tables_as_before
    (st : state) (m : string) (ps : jsval) (sg : option nat) (msg : json) :
  reachable st -> _ws st = Some OPEN -> response_for (_id st) msg ->
  let st1 := fst (step (CallRequest m ps sg) st) in
  let st2 := fst (step (Message (Parsed msg)) st1) in
  let st3 := fst (step (TimerFired (next_timer st)) st1) in
  snd (step (CallRequest m ps sg) st) = Ok (RPromise (next_promise st))
  /\ _pending st2 = _pending st /\ timers st2 = timers st
  /\ promises st2 =
       (if error_raises msg then promises st
        else <[next_promise st := settlement msg]> (promises st))
  /\ snd (step (Message (Parsed msg)) st1) =
       (if error_raises msg then Throw TypeError else Ok RUnit)
  /\ _pending st3 = _pending st /\ timers st3 = timers st
  /\ promises st3 = <[next_promise st := timed_out m]> (promises st).
Proof.
  intros Hreach Hopen Hmsg st1 st2 st3.
  pose proof (reachable_wf st Hreach) as Hwf.
  pose proof (reachable_microtasks st Hreach) as Hq.
  pose proof (step_request_open m ps sg st Hq Hopen) as H1.
  assert (Hst1 : st1 = requested m ps sg st) by (unfold st1; by rewrite H1).
  assert (Hwf1 : wf st1) by (rewrite Hst1; by apply wf_requested).
  assert (Hq1 : microtasks st1 = []) by apply step_microtasks.
  assert (He : _pending st1 !! _id st = Some (entry_of m st)).
  { rewrite Hst1. simpl. apply lookup_insert_eq. }
  assert (Ht : timers st1 !! next_timer st = Some (timeout_of m st)).
  { rewrite Hst1. simpl. apply lookup_insert_eq. }
  assert (Hp1 : delete (_id st) (_pending st1) = _pending st).
  { rewrite Hst1. simpl. apply delete_insert_id, (wf_fresh_id st Hwf). }
  assert (Ht1 : delete (next_timer st) (timers st1) = timers st).
  { rewrite Hst1. simpl. apply delete_insert_id, (wf_fresh_timer st Hwf). }
  assert (Hpr1 : promises st1 = promises st) by (rewrite Hst1; reflexivity).
  split; [by rewrite H1 | ].
  destruct (step_finished (TimerFired (next_timer st)) st1 (_id st) (entry_of m st)
              (timed_out m) (Ok RUnit) Hwf1 He
              (handle_timer (next_timer st) (timeout_of m st) st1 Ht))
    as (_ & Ha' & Hb' & Hc' & _).
  fold st3 in Ha', Hb', Hc'. simpl in Hb', Hc'.
  rewrite Ha', Hb', Hc', Hp1, Ht1, Hpr1.
  destruct (error_raises msg) eqn:Hbuilt.
  - pose proof (step_raising_response (_id st) (entry_of m st) msg st1 Hwf1 Hq1 Hmsg Hbuilt He)
      as Hstep.
    unfold st2. rewrite Hstep. cbn [fst snd]. unfold dropped. simpl.
    rewrite Hp1, Ht1, Hpr1. auto 10.
  - destruct (step_finished (Message (Parsed msg)) st1 (_id st) (entry_of m st)
                (settlement msg) (Ok RUnit) Hwf1 He
                (handle_response (_id st) (entry_of m st) msg st1 Hwf1 Hmsg Hbuilt He))
      as (Hr & Ha & Hb & Hc & _).
    fold st2 in Ha, Hb, Hc. simpl in Hb, Hc.
    rewrite Hr, Ha, Hb, Hc, Hp1, Ht1, Hpr1. auto 10.
Qed.

Lemma ended_request_leaves_the_tables_as_before_witness :
  let st := run [Socket (Some OPEN)] (new_JsonRpc None) in
  let st1 := fst (step (CallRequest "textDocument/hover" None None) st) in
  _pending (fst (step (Message (Parsed hover_response)) st1)) = _pending st
  /\ timers (fst (step (TimerFired 0) st1)) = timers st.
Proof.
  intros st st1.
  assert (Hreach : reachable st) by (eexists None, _; reflexivity).
  destruct (ended_request_leaves_the_tables_as_before st "textDocument/hover" None None
              hover_response Hreach eq_refl)
    as (_ & H2 & _ & _ & _ & _ & H3 & _).
  - eexists. split; reflexivity.
  - split; [exact H2 | exact H3].
Defined.

(** *** Every request ends *)

(** An unsettled promise whose entry is gone: no response and no
    timer will settle it. *)
Definition abandoned (st : state) (p : nat) : Prop :=
  promises st !! p = None /\ forall i e, _pending st !! i = Some e -> reject e <> p.

Lemma step_timer_fired t st :
  wf st -> microtasks st = [] ->
  let st' := fst (step (TimerFired t) st) in
  wf st' /\ microtasks st' = []
  /\ next_promise st' = next_promise st
  /\ timers st' = delete t (timers st)
  /\ promises st ⊆ promises st'
  /\ (forall cb, timers st !! t = Some cb ->
        promises st' !! t_reject cb = Some (timed_out (t_method cb)))
  /\ (forall p, abandoned st p -> abandoned st' p).
Proof.
  intros Hwf Hq st'.
  assert (Hwf' : wf st') by apply step_wf, Hwf.
  assert (Hnp : next_promise st' = next_promise st).
  { unfold st', step. cbn [handle].
    pose proof (fire_timer_quiet t st) as Hqt. rewrite <- (unit_fst (fire_timer t) st) in Hqt.
    destruct (unit_ (fire_timer t) st) as [st1 r]. cbn [fst] in *.
    destruct (run_microtasks_frame st1) as (_ & _ & _ & _ & _ & _ & H7 & _).
    rewrite H7. apply (q_next_promise _ _ Hqt). }
  split; [exact Hwf' | ]. split; [apply step_microtasks | ]. split; [exact Hnp | ].
  destruct (timers st !! t) as [cb | ] eqn:Ht.
  - destruct (timer_closure st t cb Hwf Ht) as (e & He & Hte & Hre & _).
    pose proof (handle_timer t cb st Ht) as Hh. rewrite <- Hre in Hh.
    rewrite <- Hte in Hh at 2.
    destruct (step_finished (TimerFired t) st (t_id cb) e _ _ Hwf He Hh)
      as (_ & Hpe & Hti & Hpr & _).
    fold st' in Hpe, Hti, Hpr.
    split; [by rewrite Hti, Hte | ].
    split; [apply (ev_promises _ _ (step_evolves (TimerFired t) st)) | ].
    split.
    + intros cb' Hcb'. injection Hcb' as <-. rewrite Hpr, Hre. apply lookup_insert_eq.
    + intros p [Hnone Hno]. split.
      * rewrite Hpr, lookup_insert_ne; [exact Hnone | ]. by apply (Hno (t_id cb) e).
      * intros i e' Hi. rewrite Hpe in Hi. apply lookup_delete_Some in Hi as [_ Hi].
        by apply (Hno i e').
  - assert (Hsame : st' = st).
    { unfold st', step, handle, unit_, bind, fire_timer. rewrite Ht. simpl.
      by apply run_microtasks_idle. }
    rewrite Hsame. split; [by rewrite delete_id | ]. split; [reflexivity | ].
    split; [intros cb Hcb; discriminate | auto].
Qed.

Lemma run_timers_fired ts st :
  wf st -> microtasks st = [] ->
  let st' := run (TimerFired <$> ts) st in
  wf st'
  /\ next_promise st' = next_promise st
  /\ (forall t, is_Some (timers st' !! t) -> is_Some (timers st !! t) /\ t ∉ ts)
  /\ promises st ⊆ promises st'
  /\ (forall t cb, t ∈ ts -> timers st !! t = Some cb ->
        promises st' !! t_reject cb = Some (timed_out (t_method cb)))
  /\ (forall p, abandoned st p -> abandoned st' p).
Proof.
  revert st. induction ts as [ | t ts IH]; intros st Hwf Hq; simpl.
  - split; [exact Hwf | ]. split; [reflexivity | ].
    split; [ | split; [reflexivity | split; [ | auto]]].
    + intros t Ht. split; [exact Ht | apply not_elem_of_nil].
    + intros t cb Hin. inversion Hin.
  - destruct (step_timer_fired t st Hwf Hq) as (Hwf1 & Hq1 & Hn1 & Ht1 & Hp1 & Hs1 & Ha1).
    destruct (IH _ Hwf1 Hq1) as (Hwf2 & Hn2 & Ht2 & Hp2 & Hs2 & Ha2).
    split; [exact Hwf2 | ]. split; [exact (eq_trans Hn2 Hn1) | ].
    split; [ | split; [etrans; eassumption | split; [ | auto]]].
    + intros t' Ht'. destruct (Ht2 t' Ht') as [Hin Hnin]. rewrite Ht1 in Hin.
      destruct Hin as [cb Hcb]. apply lookup_delete_Some in Hcb as [Hne Hcb].
      split; [eauto | ]. apply not_elem_of_cons. split; [congruence | exact Hnin].
    + intros t' cb Hin Hcb.
      destruct (decide (t' = t)) as [-> | Hne].
      * eapply lookup_weaken; [apply (Hs1 cb Hcb) | exact Hp2].
      * apply elem_of_cons in Hin as [Heq | Hin]; [congruence | ].
        apply (Hs2 t' cb Hin). rewrite Ht1. by rewrite lookup_delete_ne by congruence.
Qed.

(** No request can stay pending for ever.  In any state a session
    reaches, once the timers that are running have fired (in any
    order, each at most once being enough), no request is pending, no
    timer is running, and the requests that were pending hold the
    timeout failure that names their method.  The promises left
    unsettled are exactly those that were unsettled without an entry:
    those of the requests whose response carried an error that could
    not be built.  So when every unsettled promise still had its
    entry, every promise [request] has returned is settled. *)
Theorem every_request_ends_when_the_timers_have_fired (st : state) (ts : list nat) :
  reachable st -> (forall t, is_Some (timers st !! t) -> t ∈ ts) ->
  let st' := run (TimerFired <$> ts) st in
  _pending st' = ∅
  /\ timers st' = ∅
  /\ (forall p, promises st' !! p = None <-> abandoned st p)
  /\ (tracked st -> forall p, (p < next_promise st')%nat -> is_Some (promises st' !! p))
  /\ (forall i e, _pending st !! i = Some e ->
        promises st' !! reject e = Some (timed_out (method e))).
Proof.
  intros Hreach Hts st'.
  pose proof (reachable_wf st Hreach) as Hwf.
  pose proof (reachable_microtasks st Hreach) as Hq.
  destruct (run_timers_fired ts st Hwf Hq) as (Hwf' & Hn' & Ht' & Hp' & Hs' & Ha').
  fold st' in Hwf', Hn', Ht', Hp', Hs', Ha'.
  assert (Hnone : timers st' = ∅).
  { apply map_eq. intros t. rewrite lookup_empty.
    destruct (timers st' !! t) as [cb | ] eqn:Hcb; [ | reflexivity].
    destruct (Ht' t ltac:(eauto)) as [Hin Hnin]. exfalso. apply Hnin, Hts, Hin. }
  assert (Hpend : _pending st' = ∅).
  { apply map_eq. intros i. rewrite lookup_empty.
    destruct (_pending st' !! i) as [e | ] eqn:He; [ | reflexivity].
    destruct (wf_pending _ Hwf' i e He) as (_ & _ & _ & _ & H).
    rewrite Hnone, lookup_empty in H. discriminate. }
  assert (Hout : forall i e, _pending st !! i = Some e ->
                   promises st' !! reject e = Some (timed_out (method e))).
  { intros i e He.
    destruct (wf_pending _ Hwf i e He) as (_ & _ & _ & _ & H).
    apply (Hs' (timer e) _ (Hts _ ltac:(eauto)) H). }
  assert (Hiff : forall p, promises st' !! p = None <-> abandoned st p).
  { intros p. split; [ | intros Hab; by destruct (Ha' p Hab)].
    intros Hp. split.
    - destruct (promises st !! p) as [o | ] eqn:Ho; [ | reflexivity].
      apply (lookup_weaken _ _ _ _ Ho) in Hp'. congruence.
    - intros i e He Heq. pose proof (Hout i e He) as H. rewrite Heq in H. congruence. }
  split; [exact Hpend | ]. split; [exact Hnone | ]. split; [exact Hiff | ].
  split; [ | exact Hout].
  intros Htr p Hp. destruct (promises st' !! p) as [o | ] eqn:Ho; [eauto | ].
  apply Hiff in Ho as [Ho Hno]. rewrite Hn' in Hp.
  destruct (Htr p Hp Ho) as (i & e & He & Heq). by destruct (Hno i e He).
Qed.

Lemma every_request_ends_when_the_timers_have_fired_witness :
  let st' := run [TimerFired 1; TimerFired 0] two_requests_sent in
  _pending st' = ∅
  /\ promises st' !! 1%nat = Some (timed_out "textDocument/definition").
Proof.
  intros st'.
  assert (Hreach : reachable two_requests_sent) by (eexists None, _; reflexivity).
  destruct (every_request_ends_when_the_timers_have_fired two_requests_sent [1; 0]%nat Hreach)
    as (H1 & _ & _ & _ & H2).
  - intros t [cb Hcb].
    destruct t as [ | [ | t]]; [right; left | left | ].
    apply (wf_timers _ (reachable_wf _ Hreach)) in Hcb as [Hlt _].
    vm_compute in Hlt. lia.
  - split; [exact H1 | ].
    apply (H2 2 {| resolve := 1; reject := 1; timer := 1; method := "textDocument/definition" |}).
    vm_compute. reflexivity.
Defined.

(** *** Aborting late, and signals that have aborted *)

(** The promise of a listener that has run is settled: it keeps the
    outcome it had, and holds the cancellation when it had none. *)
Lemma for_each_on_abort_promise (cbs : list abort_cb) (st : state) (cb : abort_cb) :
  cb ∈ cbs ->
  promises (fst (for_each on_abort cbs st)) !! a_reject cb
    = Some (default canceled (promises st !! a_reject cb)).
Proof.
  revert st. induction cbs as [ | c cbs IH]; intros st Hin; [inversion Hin | ].
  destruct (on_abort_fields c st) as (_ & _ & _ & _ & Hpr0).
  pose proof (on_abort_finish c st) as Hfin.
  simpl for_each. unfold bind. destruct (on_abort c st) as [st0 r].
  injection Hfin as _ ->. cbn [fst] in *.
  pose proof (keeps_for_each evolves on_abort cbs on_abort_evolves st0) as Hev.
  assert (Hhead : promises st0 !! a_reject c
                  = Some (default canceled (promises st !! a_reject c))).
  { rewrite Hpr0. destruct (promises st !! a_reject c) as [o | ] eqn:Ho; [exact Ho | ].
    apply lookup_insert_eq. }
  destruct (decide (a_reject cb = a_reject c)) as [Heq | Hne].
  - rewrite Heq. eapply lookup_weaken; [exact Hhead | exact (ev_promises _ _ Hev)].
  - apply elem_of_cons in Hin as [-> | Hin]; [done | ].
    rewrite (IH st0 Hin). do 2 f_equal. rewrite Hpr0.
    destruct (promises st !! a_reject c); [reflexivity | by rewrite lookup_insert_ne].
Qed.

(** The abort listener of a request stays on the signal when the
    request ends by a response or by its timeout.  When the signal
    aborts afterwards, the listener still sends [$/cancelRequest] for
    the id of the ended request (once, if the socket is open) and the
    id stays out of the pending table.  The promise keeps the outcome
    it has; when it has none, because the response that removed the
    entry carried an error that could not be built, it is rejected
    with the [AbortError]. *)
Lemma abort_after_the_request_ended
    (st : state) (s : nat) (sig : abort_signal) (cb : abort_cb) :
  reachable st ->
  signals st !! s = Some sig -> aborted sig = false -> cb ∈ listeners sig ->
  _pending st !! a_id cb = None ->
  let st' := fst (step (Abort s) st) in
  snd (step (Abort s) st) = Ok RUnit
  /\ (exists w, wire st' = (wire st ++ w)%list /\
        cancels_for (a_id cb) w = if decide (_ws st = Some OPEN) then 1%nat else 0%nat)
  /\ promises st' !! a_reject cb = Some (default canceled (promises st !! a_reject cb))
  /\ _pending st' !! a_id cb = None.
Proof.
  intros Hreach Hsig Hlive Hcb Hgone st'.
  pose proof (reachable_wf st Hreach) as Hwf.
  pose proof (wf_mark_aborted s st Hwf) as Hwf0.
  assert (Hall : Forall (coherent (mark_aborted s st)) (listeners sig)).
  { rewrite Forall_forall. intros c Hc.
    eapply coherent_frame; [apply (wf_listeners _ Hwf _ _ _ Hsig Hc) | reflexivity ..]. }
  pose proof (wf_listeners_nodup _ Hwf _ _ Hsig) as Hnd.
  destruct (wf_listeners _ Hwf _ _ _ Hsig Hcb) as (Hid & _).
  destruct (for_each_on_abort_spec (listeners sig) (mark_aborted s st) Hwf0 Hall Hnd)
    as (Hw & Hws & _).
  pose proof (for_each_on_abort_ok (listeners sig) (mark_aborted s st)) as Hok.
  pose proof (for_each_on_abort_promise (listeners sig) (mark_aborted s st) cb Hcb) as Hset.
  pose proof (keeps_for_each evolves on_abort (listeners sig) on_abort_evolves
                (mark_aborted s st)) as Hev.
  assert (Hstep : step (Abort s) st =
            (run_microtasks (fst (for_each on_abort (listeners sig) (mark_aborted s st))),
             Ok RUnit)).
  { unfold step, handle, unit_, bind. rewrite (fire_abort_live s sig st Hsig Hlive).
    destruct (for_each on_abort (listeners sig) (mark_aborted s st)) as [sh r].
    simpl in Hok. subst r. reflexivity. }
  unfold st'. rewrite Hstep. cbn [fst snd].
  set (sh := fst (for_each on_abort (listeners sig) (mark_aborted s st))) in *.
  destruct (run_microtasks_frame sh) as (_ & Hp & _ & _ & _ & Hpr & _).
  destruct (run_microtasks_spec sh) as (w2 & Hw2 & Hex & _).
  split; [reflexivity | ]. split.
  { eexists. split; [rewrite Hw2, Hw; simpl; by rewrite <- app_assoc | ].
    rewrite cancels_for_app, (cancels_for_exits _ _ Hex), Nat.add_0_r. simpl.
    destruct (decide (_ws st = Some OPEN)); [ | reflexivity].
    by apply cancels_for_listeners. }
  split.
  - rewrite Hpr. exact Hset.
  - rewrite Hp. apply (ev_pending _ _ Hev); [exact Hid | exact Hgone].
Qed.

Lemma abort_after_the_request_ended_witness :
  let st := run [Message (Parsed (JObj unprintable_error_response))] request_with_token in
  promises st !! 0%nat = None
  /\ (exists w, wire (fst (step (Abort 0) st)) = (wire st ++ w)%list /\
        cancels_for 1 w = 1%nat)
  /\ promises (fst (step (Abort 0) st)) !! 0%nat = Some canceled.
Proof.
  intros st.
  assert (Hreach : reachable st).
  { apply reachable_run.
    exists None, [Socket (Some OPEN); CallRequest "textDocument/hover" None (Some 0%nat)].
    reflexivity. }
  destruct (abort_after_the_request_ended st 0
              {| aborted := false; listeners := [{| a_id := 1; a_timer := 0; a_reject := 0 |}] |}
              {| a_id := 1; a_timer := 0; a_reject := 0 |} Hreach)
    as (_ & Hw & Hp & _).
  - vm_compute. reflexivity.
  - reflexivity.
  - by apply list_elem_of_singleton.
  - vm_compute. reflexivity.
  - split; [vm_compute; reflexivity | ]. split; [exact Hw | exact Hp].
Defined.

(** A signal that has aborted fires no listener again: aborting it
    once more changes nothing, and a request issued with it is sent
    and filed like any other and is not cancelled by it. *)
Lemma aborted_signal_cancels_nothing
    (st : state) (s : nat) (sig : abort_signal) (m : string) (ps : jsval) :
  reachable st -> signals st !! s = Some sig -> aborted sig = true ->
  _ws st = Some OPEN ->
  let st1 := fst (step (CallRequest m ps (Some s)) st) in
  step (Abort s) st = (st, Ok RUnit)
  /\ wire st1 = (wire st ++ [Request (_id st) m ps])%list
  /\ _pending st1 !! _id st = Some (entry_of m st)
  /\ step (Abort s) st1 = (st1, Ok RUnit).
Proof.
  intros Hreach Hsig Hab Hopen st1.
  pose proof (reachable_microtasks st Hreach) as Hq.
  assert (Hnoop : forall st0 sig0, microtasks st0 = [] -> signals st0 !! s = Some sig0 ->
            aborted sig0 = true -> step (Abort s) st0 = (st0, Ok RUnit)).
  { intros st0 sig0 Hq0 Hs0 Ha0. unfold step, handle, unit_, bind, fire_abort.
    rewrite Hs0. simpl. rewrite Ha0. simpl. by rewrite run_microtasks_idle. }
  pose proof (step_request_open m ps (Some s) st Hq Hopen) as H1.
  assert (Hst1 : st1 = requested m ps (Some s) st) by (unfold st1; by rewrite H1).
  split; [by apply (Hnoop st sig) | ].
  rewrite Hst1. split; [reflexivity | ]. split; [simpl; apply lookup_insert_eq | ].
  eapply Hnoop; [exact Hq | simpl; rewrite Hsig; simpl; apply lookup_insert_eq | exact Hab].
Qed.

Lemma aborted_signal_cancels_nothing_witness :
  let st := run [Socket (Some OPEN); Abort 0] (new_JsonRpc None) in
  let st1 := fst (step (CallRequest "textDocument/hover" None (Some 0%nat)) st) in
  _pending st1 !! 1 =
    Some {| resolve := 0; reject := 0; timer := 0; method := "textDocument/hover" |}
  /\ step (Abort 0) st1 = (st1, Ok RUnit).
Proof.
  intros st st1.
  assert (Hreach : reachable st) by (eexists None, _; reflexivity).
  destruct (aborted_signal_cancels_nothing st 0 {| aborted := true; listeners := [] |}
              "textDocument/hover" None Hreach eq_refl eq_refl eq_refl)
    as (_ & _ & H1 & H2).
  split; [exact H1 | exact H2].
Defined.

(** *** One signal, several requests *)

(** No async function of the client waits on a request that has an
    abort listener: [initialize] and [shutdown] pass no signal. *)
Definition unawaited (st : state) : Prop :=
  forall s sig cb, signals st !! s = Some sig -> cb ∈ listeners sig ->
    awaiting st !! a_reject cb = None.

(** No function starts to wait and no listener is added. *)
Definition calm : relation state :=
  fun st st' =>
    awaiting st' ⊆ awaiting st
    /\ forall s sig' cb, signals st' !! s = Some sig' -> cb ∈ listeners sig' ->
         exists sig, signals st !! s = Some sig /\ cb ∈ listeners sig.

Global Instance calm_preorder : PreOrder calm.
Proof.
  split.
  - intros st. split; [reflexivity | eauto].
  - intros st1 st2 st3 [H1 H1'] [H2 H2']. split; [etrans; eassumption | ].
    intros s sig3 cb Hs Hcb. destruct (H2' s sig3 cb Hs Hcb) as (sig2 & Hs2 & Hcb2). eauto.
Qed.

Lemma calm_same st st' :
  awaiting st' = awaiting st -> signals st' = signals st -> calm st st'.
Proof. intros H1 H2. split; [by rewrite H1 | rewrite H2; eauto]. Qed.

Lemma calm_unawaited st st' : calm st st' -> unawaited st -> unawaited st'.
Proof.
  intros [Ha Hs] Hun s sig' cb Hsig Hcb.
  destruct (Hs s sig' cb Hsig Hcb) as (sig & Hsig0 & Hcb0).
  eapply lookup_weaken_None; [exact (Hun s sig cb Hsig0 Hcb0) | exact Ha].
Qed.

Lemma send_calm d : keeps calm (send d).
Proof. intros st. unfold send. repeat case_match; simpl; by apply calm_same. Qed.

Lemma log_calm t lv : keeps calm (log t lv).
Proof. intros st. by apply calm_same. Qed.

Lemma settle_calm p o : keeps calm (settle p o).
Proof.
  intros st. unfold settle, modify. simpl.
  destruct (promises st !! p); [reflexivity | ].
  destruct (awaiting st !! p); [ | by apply calm_same].
  split; [apply delete_subseteq | eauto].
Qed.

Lemma clearTimeout_calm t : keeps calm (clearTimeout t).
Proof. intros st. by apply calm_same. Qed.

Lemma pending_delete_calm k : keeps calm (pending_delete k).
Proof.
  intros st. unfold pending_delete, modify. simpl. repeat case_match; by apply calm_same.
Qed.

Lemma call_handler_calm ps h : keeps calm (call_handler ps h).
Proof. intros st. by apply calm_same. Qed.

Lemma mark_aborted_calm s st : calm st (mark_aborted s st).
Proof.
  split; [reflexivity | ]. intros s' sig' cb. unfold mark_aborted. simpl.
  destruct (decide (s' = s)) as [-> | Hne].
  - rewrite lookup_insert_eq. intros [= <-] Hcb. inversion Hcb.
  - rewrite lookup_insert_ne by congruence. eauto.
Qed.

Lemma requested_unawaited m ps sg st :
  wf st -> unawaited st -> unawaited (requested m ps sg st).
Proof.
  intros Hwf Hun s sig cb. simpl.
  assert (Hfresh : awaiting st !! next_promise st = None).
  { destruct (awaiting st !! next_promise st) as [k | ] eqn:Hk; [ | reflexivity].
    apply (wf_awaiting _ Hwf) in Hk. lia. }
  destruct sg as [s0 | ]; simpl; [ | apply Hun].
  destruct (decide (s = s0)) as [-> | Hne].
  - rewrite lookup_insert_eq. intros [= <-]. simpl.
    intros [Hcb | ->%list_elem_of_singleton]%elem_of_app; [ | exact Hfresh].
    destruct (signals st !! s0) as [sig0 | ] eqn:Hs0; simpl in Hcb; [ | inversion Hcb].
    by apply (Hun s0 sig0).
  - rewrite lookup_insert_ne by congruence. apply Hun.
Qed.

Lemma await_unawaited m ps k st :
  wf st -> unawaited st ->
  unawaited (fst (await (next_promise st) k (requested m ps None st))).
Proof.
  intros Hwf Hun s sig cb Hsig Hcb. unfold await, modify in *. simpl in *.
  rewrite lookup_insert_ne; [by apply (Hun s sig) | ].
  intros Heq. destruct (wf_listeners _ Hwf s sig cb Hsig Hcb) as (_ & _ & Hlt & _). lia.
Qed.

Lemma handle_unawaited ev st : wf st -> unawaited st -> unawaited (fst (handle ev st)).
Proof.
  intros Hwf Hun.
  assert (Hnotify : forall m ps s0, calm s0 (fst (notify m ps s0))).
  { intros m ps. apply notify_keeps; [apply _ | apply send_calm | apply log_calm]. }
  assert (Hrequest : forall m ps sg, unawaited (fst (request m ps sg st))).
  { intros m ps sg. destruct (request_cases m ps sg st) as [[_ ->] | [_ ->]]; cbn [fst].
    - by apply requested_unawaited.
    - exact Hun. }
  destruct ev as [mth ps sg | mth ps | mth h | mth h | ps | | | raw | t | s | r | ];
    cbn [handle]; rewrite ?unit_fst.
  - unfold bind. specialize (Hrequest mth ps sg).
    destruct (request mth ps sg st) as [st1 [p | e]]; exact Hrequest.
  - eapply calm_unawaited; [apply Hnotify | exact Hun].
  - exact Hun.
  - exact Hun.
  - unfold initialize. destruct (request_cases "initialize" ps None st) as [[_ ->] | [_ ->]];
      cbn [fst]; [by apply await_unawaited | exact Hun].
  - unfold initialized. pose proof (Hnotify "initialized" (Some (JObj [])) st) as H.
    destruct (notify _ _ st) as [st1 [ | ]]; (eapply calm_unawaited; [exact H | exact Hun]).
  - unfold shutdown. destruct (request_cases "shutdown" None None st) as [[_ ->] | [_ ->]];
      cbn [fst]; [by apply await_unawaited | ].
    pose proof (resume_drain_frame KShutdown (Rejected (JsError "WebSocket not open" None None))
                  (set_id (_id st + 1) st)) as H'.
    simpl in H'. rewrite <- completion_fst in H'.
    destruct (completion (shutdown_resume _ (set_id (_id st + 1) st))) as [st2 o].
    cbn [fst] in *. destruct H'.
    eapply calm_unawaited; [apply calm_same; eassumption | exact Hun].
  - eapply calm_unawaited; [ | exact Hun].
    apply handleMessage_keeps;
      [apply _ | apply log_calm | apply settle_calm | apply clearTimeout_calm
       | apply pending_delete_calm | apply call_handler_calm].
  - eapply calm_unawaited; [ | exact Hun].
    apply fire_timer_keeps;
      [apply _ | apply settle_calm | apply clearTimeout_calm | apply pending_delete_calm].
  - eapply calm_unawaited; [ | exact Hun].
    apply fire_abort_keeps;
      [apply _ | apply send_calm | apply log_calm | apply settle_calm | apply clearTimeout_calm
       | apply pending_delete_calm | apply mark_aborted_calm].
  - exact Hun.
  - eapply calm_unawaited; [apply keepalive_keeps, send_calm | exact Hun].
Qed.

Lemma reachable_unawaited st : reachable st -> unawaited st.
Proof.
  intros (tm & tr & ->).
  assert (H0 : wf (new_JsonRpc tm) /\ unawaited (new_JsonRpc tm)).
  { split; [apply wf_new | ]. intros s sig cb H. simpl in H. simplify_map_eq. }
  revert H0. generalize (new_JsonRpc tm).
  induction tr as [ | ev tr IH]; intros st [Hwf Hun]; simpl; [exact Hun | ].
  apply IH. split; [by apply step_wf | ].
  unfold step. pose proof (handle_unawaited ev st Hwf Hun) as H.
  destruct (handle ev st) as [st1 r]. cbn [fst] in *.
  destruct (run_microtasks_frame st1) as (_ & _ & _ & _ & _ & _ & _ & _ & _ & Hs & Ha & _).
  eapply calm_unawaited; [apply calm_same; eassumption | exact H].
Qed.

Lemma on_abort_signals cb : keeps (same_on signals) (on_abort cb).
Proof.
  apply on_abort_keeps; try apply _; intros; intros st0; unfold same_on;
    unfold send, log, settle, clearTimeout, pending_delete, modify; simpl;
    repeat case_match; reflexivity.
Qed.

(** An abort listener whose promise nobody waits on schedules nothing. *)
Lemma on_abort_microtasks cb st :
  awaiting st !! a_reject cb = None ->
  microtasks (fst (on_abort cb st)) = microtasks st
  /\ awaiting (fst (on_abort cb st)) = awaiting st.
Proof.
  intros Ha. rewrite on_abort_finish. cbn [fst].
  destruct (notify_drain_frame "$/cancelRequest" (Some (JObj [("id", JNum (a_id cb))])) st)
    as [_ _ _ _ _ _ _ _ _ _ Haw Hmi].
  unfold finish, settle, modify. simpl.
  destruct (promises _ !! a_reject cb); simpl; [auto | ].
  rewrite Haw, Ha. simpl. auto.
Qed.

Lemma for_each_on_abort_microtasks cbs st :
  (forall cb, cb ∈ cbs -> awaiting st !! a_reject cb = None) ->
  microtasks (fst (for_each on_abort cbs st)) = microtasks st.
Proof.
  revert st. induction cbs as [ | c cbs IH]; intros st Hall; [reflexivity | ].
  destruct (on_abort_microtasks c st (Hall c ltac:(left))) as [Hm Ha].
  pose proof (on_abort_finish c st) as Hfin.
  simpl for_each. unfold bind. destruct (on_abort c st) as [st0 r].
  injection Hfin as _ ->. cbn [fst] in *.
  rewrite IH; [exact Hm | ]. intros cb Hcb. rewrite Ha. apply Hall. by right.
Qed.

(** When a signal aborts, every request issued with it ends in that
    turn.  For each of them, in the order they were issued, the
    [$/cancelRequest] carrying its id is written, and nothing else is;
    when the socket is not open nothing is written at all.  The entry
    and the timer of each are gone and its promise is settled: with
    the cancellation failure if the request was pending.  The signal
    has no listeners left. *)
Lemma abort_ends_every_request_of_the_signal
    (st : state) (s : nat) (sig : abort_signal) :
  reachable st -> signals st !! s = Some sig -> aborted sig = false ->
  let st' := fst (step (Abort s) st) in
  let ids := a_id <$> listeners sig in
  snd (step (Abort s) st) = Ok RUnit
  /\ NoDup ids
  /\ wire st' =
       (wire st ++ if decide (_ws st = Some OPEN) then cancel_request <$> ids else [])%list
  /\ (forall cb, cb ∈ listeners sig ->
        _pending st' !! a_id cb = None /\ timers st' !! a_timer cb = None
        /\ is_Some (promises st' !! a_reject cb))
  /\ (forall cb e, cb ∈ listeners sig -> _pending st !! a_id cb = Some e ->
        promises st' !! reject e = Some canceled)
  /\ signals st' !! s = Some {| aborted := true; listeners := [] |}.
Proof.
  intros Hreach Hsig Hlive st' ids.
  pose proof (reachable_wf st Hreach) as Hwf.
  pose proof (reachable_microtasks st Hreach) as Hq.
  pose proof (reachable_unawaited st Hreach) as Hun.
  pose proof (wf_mark_aborted s st Hwf) as Hwf0.
  assert (Hall : Forall (coherent (mark_aborted s st)) (listeners sig)).
  { rewrite Forall_forall. intros c Hc.
    eapply coherent_frame; [apply (wf_listeners _ Hwf _ _ _ Hsig Hc) | reflexivity ..]. }
  pose proof (wf_listeners_nodup _ Hwf _ _ Hsig) as Hnd.
  destruct (for_each_on_abort_spec (listeners sig) (mark_aborted s st) Hwf0 Hall Hnd)
    as (Hw & Hws & Hcbs).
  pose proof (for_each_on_abort_ok (listeners sig) (mark_aborted s st)) as Hok.
  pose proof (keeps_for_each evolves on_abort (listeners sig) on_abort_evolves
                (mark_aborted s st)) as Hev.
  pose proof (keeps_for_each timers_shrink on_abort (listeners sig) on_abort_timers_shrink
                (mark_aborted s st)) as Hsh.
  pose proof (keeps_for_each (same_on signals) on_abort (listeners sig) on_abort_signals
                (mark_aborted s st)) as Hsg.
  assert (Hmi : microtasks (fst (for_each on_abort (listeners sig) (mark_aborted s st))) = []).
  { rewrite for_each_on_abort_microtasks; [exact Hq | ].
    intros cb Hcb. apply (Hun s sig cb Hsig Hcb). }
  assert (Hstep : step (Abort s) st =
            (fst (for_each on_abort (listeners sig) (mark_aborted s st)), Ok RUnit)).
  { unfold step, handle, unit_, bind. rewrite (fire_abort_live s sig st Hsig Hlive).
    destruct (for_each on_abort (listeners sig) (mark_aborted s st)) as [sh r].
    simpl in Hok, Hmi. subst r. unfold ret. by rewrite run_microtasks_idle. }
  unfold st'. rewrite Hstep. cbn [fst snd].
  set (sh := fst (for_each on_abort (listeners sig) (mark_aborted s st))) in *.
  split; [reflexivity | ]. split; [exact Hnd | ]. split.
  { rewrite Hw. simpl. unfold ids. destruct (decide (_ws st = Some OPEN)); [ | reflexivity].
    by rewrite <- list_fmap_compose. }
  split; [ | split].
  - intros cb Hcb.
    destruct (wf_listeners _ Hwf _ _ _ Hsig Hcb) as (Hid & _ & _ & Hc).
    destruct (_pending st !! a_id cb) as [e | ] eqn:He.
    + destruct Hc as [Hte Hre].
      destruct (Hcbs cb e Hcb He) as (H1 & H2 & H3).
      rewrite <- Hte, <- Hre. eauto.
    + destruct Hc as [Htn _]. split; [ | split].
      * apply (ev_pending _ _ Hev); [exact Hid | exact He].
      * eapply lookup_weaken_None; [ | exact Hsh]. exact Htn.
      * unfold sh. rewrite (for_each_on_abort_promise _ _ cb Hcb). eauto.
  - intros cb e Hcb He. by destruct (Hcbs cb e Hcb He) as (_ & _ & H3).
  - unfold same_on in Hsg. fold sh in Hsg. rewrite Hsg.
    unfold mark_aborted. simpl. apply lookup_insert_eq.
Qed.

Definition two_requests_one_token : state :=
  run [Socket (Some OPEN); CallRequest "textDocument/hover" None (Some 0%nat);
       CallRequest "textDocument/definition" None (Some 0%nat)] (new_JsonRpc None).

Lemma abort_ends_every_request_of_the_signal_witness :
  wire (fst (step (Abort 0) two_requests_one_token)) =
    (wire two_requests_one_token ++ [cancel_request 1; cancel_request 2])%list
  /\ promises (fst (step (Abort 0) two_requests_one_token)) !! 1%nat = Some canceled.
Proof.
  assert (Hreach : reachable two_requests_one_token) by (eexists None, _; reflexivity).
  destruct (abort_ends_every_request_of_the_signal two_requests_one_token 0
              {| aborted := false;
                 listeners := [{| a_id := 1; a_timer := 0; a_reject := 0 |};
                               {| a_id := 2; a_timer := 1; a_reject := 1 |}] |}
              Hreach)
    as (_ & _ & Hw & _ & H & _).
  - vm_compute. reflexivity.
  - reflexivity.
  - split; [exact Hw | ].
    apply (H {| a_id := 2; a_timer := 1; a_reject := 1 |}
             {| resolve := 1; reject := 1; timer := 1; method := "textDocument/definition" |}).
    + apply elem_of_cons. right. by apply list_elem_of_singleton.
    + vm_compute. reflexivity.
Defined.

(** ** initialize, from the call to the settled promise *)

(** What the rest of [initialize] returns, and what it stores, depends
    on the result of the request and on the capabilities and the kind
    held before, not on the rest of the session. *)
Lemma initialize_resume_local o st st' :
  serverCapabilities st' = serverCapabilities st -> serverSyncKind st' = serverSyncKind st ->
  snd (initialize_resume o st') = snd (initialize_resume o st)
  /\ serverCapabilities (fst (initialize_resume o st')) =
       serverCapabilities (fst (initialize_resume o st))
  /\ serverSyncKind (fst (initialize_resume o st')) =
       serverSyncKind (fst (initialize_resume o st)).
Proof.
  intros Hc Hk. destruct o as [res | e]; [ | simpl; auto].
  unfold initialize_resume, bind, lift, modify. simpl.
  destruct (prop res "capabilities") as [caps | err]; simpl; [ | auto].
  destruct (get (or_else caps (JObj [])) "textDocumentSync")
    as [[ | b | n | s | xs | sfs] | ]; simpl; auto.
  destruct (assoc "change" sfs) as [[ | | | | | ] | ]; simpl; auto.
Qed.

Lemma completion_snd (r r' : state * res jsval) :
  snd r = snd r' -> snd (completion r) = snd (completion r').
Proof. destruct r as [s [v | e]], r' as [s' [v' | e']]; simpl; congruence. Qed.

Lemma step_initialize_open ps st :
  microtasks st = [] -> _ws st = Some OPEN ->
  step (CallInitialize ps) st =
    (set_awaiting (<[next_promise st := KInitialize]> (awaiting st))
       (requested "initialize" ps None st),
     Ok (RAsync (next_promise st))).
Proof.
  intros Hq Hopen. unfold step, handle, initialize.
  rewrite (request_open "initialize" ps None st Hopen).
  unfold await, modify. cbn [fst snd].
  rewrite run_microtasks_idle; [reflexivity | exact Hq].
Qed.

(** [initialize(params)] on an open socket writes the [initialize]
    Request and returns a pending promise.  In the turn of the response
    bearing its id, the rest of the function runs: its promise settles
    with the whole result of the request, or with the failure (that of
    an error response, or the [TypeError] of reading a result that is
    [null]); the capabilities and the kind are then what that rest
    stores, starting from the ones held at the call; nothing more is
    written.  After an error response the capabilities and the kind
    are the ones held at the call.  When the error of the response
    cannot be built, [_handleMessage] raises, the rest of the function
    does not run and its promise stays pending. *)
Lemma initialize_completes_with_its_response (st : state) (ps : jsval) (msg : json) :
  reachable st -> _ws st = Some OPEN -> response_for (_id st) msg ->
  let p := next_promise st in
  let st1 := fst (step (CallInitialize ps) st) in
  let st2 := fst (step (Message (Parsed msg)) st1) in
  let rest := initialize_resume (settlement msg) st in
  snd (step (CallInitialize ps) st) = Ok (RAsync p)
  /\ wire st1 = (wire st ++ [Request (_id st) "initialize" ps])%list
  /\ async_results st1 !! p = None
  /\ wire st2 = wire st1
  /\ (error_raises msg = false ->
        async_results st2 !! p = Some (snd (completion rest))
        /\ serverCapabilities st2 = serverCapabilities (fst rest)
        /\ serverSyncKind st2 = serverSyncKind (fst rest)
        /\ (forall e, settlement msg = Rejected e ->
              async_results st2 !! p = Some (Rejected e)
              /\ serverCapabilities st2 = serverCapabilities st
              /\ serverSyncKind st2 = serverSyncKind st))
  /\ (error_raises msg = true ->
        snd (step (Message (Parsed msg)) st1) = Throw TypeError
        /\ async_results st2 !! p = None
        /\ promises st2 !! p = None
        /\ serverCapabilities st2 = serverCapabilities st
        /\ serverSyncKind st2 = serverSyncKind st).
Proof.
  intros Hreach Hopen Hmsg p st1 st2 rest.
  pose proof (reachable_wf st Hreach) as Hwf.
  pose proof (reachable_microtasks st Hreach) as Hq.
  pose proof (step_initialize_open ps st Hq Hopen) as Hcall.
  pose proof (step_wf (CallInitialize ps) st Hwf) as Hwf1. fold st1 in Hwf1.
  assert (Hq1 : microtasks st1 = []) by apply step_microtasks.
  assert (Hst1 : st1 = set_awaiting (<[p := KInitialize]> (awaiting st))
                         (requested "initialize" ps None st)).
  { unfold st1. by rewrite Hcall. }
  assert (He : _pending st1 !! _id st = Some (entry_of "initialize" st)).
  { rewrite Hst1. simpl. apply lookup_insert_eq. }
  assert (Ha1 : async_results st1 !! p = None).
  { apply (wf_awaiting _ Hwf1 p KInitialize). rewrite Hst1. simpl. apply lookup_insert_eq. }
  assert (Hlive : promises st1 !! p = None).
  { rewrite Hst1. simpl. apply (wf_fresh_promise st Hwf). }
  split; [by rewrite Hcall | ]. split; [by rewrite Hst1 | ]. split; [exact Ha1 | ].
  destruct (error_raises msg) eqn:Hbuilt.
  { pose proof (step_raising_response (_id st) (entry_of "initialize" st) msg st1
                  Hwf1 Hq1 Hmsg Hbuilt He) as Hstep.
    unfold st2. rewrite Hstep. cbn [fst snd].
    split; [reflexivity | ]. split; [discriminate | ]. intros _.
    split; [reflexivity | ]. split; [exact Ha1 | ]. split; [exact Hlive | ].
    rewrite Hst1. split; reflexivity. }
  pose proof (handle_response (_id st) (entry_of "initialize" st) msg st1 Hwf1 Hmsg Hbuilt He)
    as Hh.
  rewrite finish_live in Hh by exact Hlive.
  set (sh := finished (_id st) (timer (entry_of "initialize" st))
               (reject (entry_of "initialize" st)) (settlement msg) st1) in *.
  assert (Hjobs : microtasks sh = [(p, KInitialize, settlement msg)]).
  { unfold sh. rewrite Hst1. simpl. rewrite Hq, lookup_insert_eq. reflexivity. }
  assert (Hst2 : st2 = fst (run_kont (p, KInitialize, settlement msg) (set_microtasks [] sh))).
  { unfold st2, step. rewrite Hh. cbn [fst]. unfold run_microtasks. rewrite Hjobs.
    simpl for_each. unfold bind.
    destruct (run_kont (p, KInitialize, settlement msg) (set_microtasks [] sh)) as [s0 [[] | e]];
      reflexivity. }
  destruct (run_kont_fields p KInitialize (settlement msg) (set_microtasks [] sh))
    as (_ & _ & Hw & Ha).
  rewrite <- Hst2 in Hw, Ha. simpl in Hw. rewrite app_nil_r in Hw.
  assert (Hash : async_results (set_microtasks [] sh) !! p = None).
  { unfold sh. rewrite Hst1. simpl. rewrite Hst1 in Ha1. exact Ha1. }
  rewrite Hash in Ha.
  destruct (initialize_resume_local (settlement msg) st (set_microtasks [] sh))
    as (Hr & Hc & Hk); [unfold sh; rewrite Hst1; reflexivity .. | ].
  assert (Hcaps2 : serverCapabilities st2 =
                     serverCapabilities (fst (initialize_resume (settlement msg) (set_microtasks [] sh)))
                   /\ serverSyncKind st2 =
                     serverSyncKind (fst (initialize_resume (settlement msg) (set_microtasks [] sh)))).
  { rewrite Hst2. unfold run_kont. simpl resume.
    rewrite <- (completion_fst (initialize_resume (settlement msg) (set_microtasks [] sh))).
    destruct (completion (initialize_resume (settlement msg) (set_microtasks [] sh))) as [s0 o0].
    cbn [fst]. unfold settle_async, modify. simpl.
    destruct (async_results s0 !! p); auto. }
  destruct Hcaps2 as [Hc2 Hk2].
  assert (Hres : async_results st2 !! p = Some (snd (completion rest))).
  { rewrite Ha, lookup_insert_eq. simpl resume. f_equal. by apply completion_snd. }
  split; [rewrite Hw; reflexivity | ]. split; [ | discriminate]. intros _.
  split; [exact Hres | ]. split; [unfold rest; congruence | ].
  split; [unfold rest; congruence | ].
  intros e Heq.
  assert (Hrest : rest = (st, Throw e)) by (unfold rest; rewrite Heq; reflexivity).
  rewrite Hres, Hc2, Hk2, Hc, Hk. fold rest. rewrite Hrest. auto.
Qed.

Lemma initialize_completes_with_its_response_witness :
  let st := run [Socket (Some OPEN)] createLspClient in
  let st1 := fst (step (CallInitialize None) st) in
  let st2 := fst (step (Message (Parsed (JObj method_not_found_response))) st1) in
  let st2' := fst (step (Message (Parsed (JObj unprintable_error_response))) st1) in
  async_results st2 !! 0%nat
    = Some (Rejected (JsErrorOf (JStr "Method not found") (Some (JNum (-32601))) None))
  /\ serverSyncKind st2 = SyncFull
  /\ async_results st2' !! 0%nat = None.
Proof.
  intros st st1 st2 st2'.
  assert (Hreach : reachable st) by (apply reachable_run, reachable_client).
  split; [ | split].
  - destruct (initialize_completes_with_its_response st None (JObj method_not_found_response)
                Hreach eq_refl)
      as (_ & _ & _ & _ & H & _); [eexists; split; reflexivity | ].
    destruct (H eq_refl) as (_ & _ & _ & H').
    by destruct (H' (JsErrorOf (JStr "Method not found") (Some (JNum (-32601))) None) eq_refl)
      as (H1 & _ & H2).
  - destruct (initialize_completes_with_its_response st None (JObj method_not_found_response)
                Hreach eq_refl)
      as (_ & _ & _ & _ & H & _); [eexists; split; reflexivity | ].
    destruct (H eq_refl) as (_ & _ & _ & H').
    by destruct (H' (JsErrorOf (JStr "Method not found") (Some (JNum (-32601))) None) eq_refl)
      as (H1 & _ & H2).
  - destruct (initialize_completes_with_its_response st None (JObj unprintable_error_response)
                Hreach eq_refl)
      as (_ & _ & _ & _ & _ & H); [eexists; split; reflexivity | ].
    by destruct (H eq_refl) as (_ & H' & _).
Defined.

(** ** The wrappers of the client *)

(** What an async function that does not wait hands back: a promise
    that follows the one [request] returned ([return p] in an async
    function resolves its promise with [p]), or one settled at once.
    An exception raised in the body rejects the promise; the call
    itself never throws. *)
Inductive async_promise : Type :=
| Follows (p : nat)
| Settled (o : outcome).

(** [async f(params) { return rpc.notify(method, params); }] *)
Definition async_notify (method : string) (params : jsval) : Js async_promise :=
  fun st =>
    match notify method params st with
    | (st1, Ok _) => (st1, Ok (Settled (Resolved None)))
    | (st1, Throw e) => (st1, Ok (Settled (Rejected e)))
    end.

(** [async f(params, options = {}) { return rpc.request(method, params, options); }];
    of [options], [request] reads [signal]. *)
Definition async_request (method : string) (params : jsval) (signal : option nat)
  : Js async_promise :=
  fun st =>
    match request method params signal st with
    | (st1, Ok p) => (st1, Ok (Follows p))
    | (st1, Throw e) => (st1, Ok (Settled (Rejected e)))
    end.

Module LspClient.

Definition didOpen (textDocument : json) : Js async_promise :=
  async_notify "textDocument/didOpen" (Some (JObj [("textDocument", textDocument)])).
Definition didChange (params : jsval) : Js async_promise :=
  async_notify "textDocument/didChange" params.
Definition didSave (params : jsval) : Js async_promise :=
  async_notify "textDocument/didSave" params.

Definition completion := async_request "textDocument/completion".
Definition hover := async_request "textDocument/hover".
Definition signatureHelp := async_request "textDocument/signatureHelp".
Definition definition := async_request "textDocument/definition".
Definition references := async_request "textDocument/references".
Definition rename := async_request "textDocument/rename".
Definition documentSymbol := async_request "textDocument/documentSymbol".
Definition formatting := async_request "textDocument/formatting".
Definition rangeFormatting := async_request "textDocument/rangeFormatting".
Definition semanticTokensFull := async_request "textDocument/semanticTokens/full".
Definition semanticTokensRange := async_request "textDocument/semanticTokens/range".

End LspClient.

(** The call writes the notification [msg] and resolves with
    [undefined], or, on a socket that is not open, writes nothing and
    rejects; it never throws and leaves the requests alone. *)
Definition fire_and_forget (f : Js async_promise) (msg : wire_msg) : Prop :=
  forall st,
    let st' := fst (f st) in
    _pending st' = _pending st /\ timers st' = timers st /\ promises st' = promises st
    /\ _id st' = _id st
    /\ if decide (_ws st = Some OPEN)
       then snd (f st) = Ok (Settled (Resolved None)) /\ wire st' = (wire st ++ [msg])%list
       else snd (f st) = Ok (Settled (Rejected not_open)) /\ wire st' = wire st.

Lemma async_notify_spec m ps : fire_and_forget (async_notify m ps) (Notification m ps).
Proof.
  intros st st'. unfold st', async_notify.
  destruct (decide (_ws st = Some OPEN)) as [Ho | Hc].
  - rewrite (notify_open m ps st Ho). simpl. auto 10.
  - rewrite (notify_closed m ps st Hc). simpl. auto 10.
Qed.

(** [didOpen], [didChange] and [didSave] are one-way: each writes one
    notification of its method ([didOpen] wraps its argument as
    [{textDocument}]) and its promise resolves with [undefined]; when
    the socket is not open nothing is written and the promise is
    rejected with the error of [send].  The call never throws, creates
    no pending entry, starts no timer and takes no id. *)
Theorem document_notifications_are_one_way (textDocument : json) (params : jsval) :
  fire_and_forget (LspClient.didOpen textDocument)
    (Notification "textDocument/didOpen" (Some (JObj [("textDocument", textDocument)])))
  /\ fire_and_forget (LspClient.didChange params) (Notification "textDocument/didChange" params)
  /\ fire_and_forget (LspClient.didSave params) (Notification "textDocument/didSave" params).
Proof. repeat split; apply async_notify_spec. Qed.

(** The call is [request] under the method [m], except that it never
    throws.  On an open socket it writes the Request under the next id
    and files the entry, and the promise it hands back follows the one
    of [request]: unsettled now, it holds what the response bearing
    that id says once that response has come; when the error of that
    response cannot be built, [_handleMessage] raises and the promise
    stays unsettled.  On a socket that is not open its promise is
    rejected with the error of [send], nothing is written or filed,
    and the id is used up all the same. *)
Definition asks (f : jsval -> option nat -> Js async_promise) (m : string) : Prop :=
  forall ps sg st, reachable st ->
    if decide (_ws st = Some OPEN)
    then exists st1 p,
           f ps sg st = (st1, Ok (Follows p))
           /\ wire st1 = (wire st ++ [Request (_id st) m ps])%list
           /\ (exists e, _pending st1 !! _id st = Some e /\ reject e = p /\ method e = m)
           /\ promises st1 !! p = None
           /\ forall msg, response_for (_id st) msg ->
                let r := step (Message (Parsed msg)) st1 in
                if error_raises msg
                then snd r = Throw TypeError /\ promises (fst r) !! p = None
                else snd r = Ok RUnit /\ promises (fst r) !! p = Some (settlement msg)
    else f ps sg st = (set_id (_id st + 1) st, Ok (Settled (Rejected not_open))).

Lemma async_request_spec m : asks (async_request m) m.
Proof.
  intros ps sg st Hreach. unfold async_request.
  pose proof (reachable_wf st Hreach) as Hwf.
  pose proof (reachable_microtasks st Hreach) as Hq.
  destruct (decide (_ws st = Some OPEN)) as [Ho | Hc].
  - rewrite (request_open m ps sg st Ho).
    exists (requested m ps sg st), (next_promise st).
    assert (He : _pending (requested m ps sg st) !! _id st = Some (entry_of m st))
      by (simpl; apply lookup_insert_eq).
    pose proof (wf_requested m ps sg st Hwf) as Hwf1.
    split; [reflexivity | ]. split; [reflexivity | ].
    split; [exists (entry_of m st); auto | ].
    split; [apply (wf_fresh_promise st Hwf) | ].
    intros msg Hmsg. cbv zeta.
    destruct (error_raises msg) eqn:Hbuilt.
    + rewrite (step_raising_response (_id st) (entry_of m st) msg _ Hwf1 Hq Hmsg Hbuilt He).
      split; [reflexivity | apply (wf_fresh_promise st Hwf)].
    + destruct (step_finished (Message (Parsed msg)) (requested m ps sg st) (_id st)
                  (entry_of m st) (settlement msg) (Ok RUnit) Hwf1 He
                  (handle_response (_id st) (entry_of m st) msg _ Hwf1 Hmsg Hbuilt He))
        as (Hr & _ & _ & Hc & _).
      split; [exact Hr | ]. rewrite Hc. simpl. apply lookup_insert_eq.
  - by rewrite (request_closed m ps sg st Hc).
Qed.

(** Each feature call of the client is [request] under its fixed
    method name, with the caller's params and signal, turned into a
    call that never throws. *)
Theorem feature_calls_never_throw :
  asks LspClient.completion "textDocument/completion"
  /\ asks LspClient.hover "textDocument/hover"
  /\ asks LspClient.signatureHelp "textDocument/signatureHelp"
  /\ asks LspClient.definition "textDocument/definition"
  /\ asks LspClient.references "textDocument/references"
  /\ asks LspClient.rename "textDocument/rename"
  /\ asks LspClient.documentSymbol "textDocument/documentSymbol"
  /\ asks LspClient.formatting "textDocument/formatting"
  /\ asks LspClient.rangeFormatting "textDocument/rangeFormatting"
  /\ asks LspClient.semanticTokensFull "textDocument/semanticTokens/full"
  /\ asks LspClient.semanticTokensRange "textDocument/semanticTokens/range".
Proof. repeat split; apply async_request_spec. Qed.

Lemma feature_calls_never_throw_witness :
  let st := run [Socket (Some OPEN)] createLspClient in
  exists st1,
    LspClient.hover None None st = (st1, Ok (Follows 0))
    /\ wire st1 = [Request 1 "textDocument/hover" None]
    /\ promises (fst (step (Message (Parsed hover_response)) st1)) !! 0%nat
       = Some (Resolved (Some (JStr "doc"))).
Proof.
  intros st.
  assert (Hreach : reachable st) by (apply reachable_run, reachable_client).
  destruct feature_calls_never_throw as (_ & H & _).
  specialize (H None None st Hreach). simpl in H.
  destruct H as (st1 & p & H1 & H2 & _ & _ & H3).
  assert (Hp : p = 0%nat) by (vm_compute in H1; congruence).
  subst p. exists st1. split; [exact H1 | ]. split; [exact H2 | ].
  apply (H3 hover_response). eexists. split; reflexivity.
Defined.

(** ** The diagnostics listeners of the client

    [createLspClient] subscribes one callback to
    [textDocument/publishDiagnostics]; it hands the params to the
    listeners registered with [onPublishDiagnostics], a set kept in
    [_listeners.publishDiagnostics].  The listeners are opaque: a call
    is recorded, and the listener returns or raises. *)

Section Diagnostics.

(** What a listener raises, when it does. *)
Variable raised : handler -> exn.

(** [h(p)] *)
Definition invoke (p : jsval) (h : handler) : Js unit :=
  fun st =>
    (set_effects (effects st ++ [Called (h_id h) p]) st,
     if h_raises h then Throw (raised h) else Ok tt).

(** The subscribed callback, [(p) => _listeners.publishDiagnostics.forEach(h => h(p))];
    [forEach] stops at a listener that raises. *)
Definition publishDiagnostics (listeners : list handler) (p : jsval) : Js unit :=
  for_each (invoke p) listeners.

(** That callback as [_emit] calls it:
    [try { h(params); } catch (e) { console.error(e); }]. *)
Definition emit_publishDiagnostics (listeners : list handler) (p : jsval) : Js unit :=
  fun st =>
    match publishDiagnostics listeners p st with
    | (st1, Ok _) => (st1, Ok tt)
    | (st1, Throw _) => (set_effects (effects st1 ++ [ConsoleError]) st1, Ok tt)
    end.

(** [onPublishDiagnostics(cb)] and the function it returns, on the set
    of listeners. *)
Definition onPublishDiagnostics (cb : handler) (listeners : list handler) : list handler :=
  if decide (cb ∈ listeners) then listeners else (listeners ++ [cb])%list.

Definition offPublishDiagnostics (cb : handler) (listeners : list handler) : list handler :=
  filter (fun h => h <> cb) listeners.

Lemma publishDiagnostics_quiet_listeners ls p st :
  Forall (fun h => h_raises h = false) ls ->
  publishDiagnostics ls p st =
    (set_effects (effects st ++ ((fun h => Called (h_id h) p) <$> ls)) st, Ok tt).
Proof.
  unfold publishDiagnostics. intros Hall. revert st.
  induction Hall as [ | h ls Hh _ IH]; intros st; simpl.
  - unfold ret. by rewrite app_nil_r, set_effects_same.
  - unfold bind, invoke. rewrite Hh. rewrite IH. simpl.
    unfold set_effects at 1. simpl. by rewrite <- app_assoc.
Qed.

(** The listeners are called with the params of the notification, in
    the order they were registered.  When none raises, all are called
    and nothing else happens.  When one raises, the listeners after it
    are not called: the exception leaves [forEach], [_emit] catches it
    and reports it with [console.error], and the engine goes on.  In
    both cases nothing is raised into [_handleMessage], and only the
    record of calls changes. *)
Theorem raising_diagnostics_listener_stops_the_rest
    (before after : list handler) (h : handler) (p : jsval) (st : state) :
  Forall (fun h' => h_raises h' = false) before ->
  (emit_publishDiagnostics before p st =
     (set_effects (effects st ++ ((fun h' => Called (h_id h') p) <$> before)) st, Ok tt))
  /\ (h_raises h = true ->
      emit_publishDiagnostics (before ++ h :: after) p st =
        (set_effects
           (effects st ++ ((fun h' => Called (h_id h') p) <$> before)
              ++ [Called (h_id h) p; ConsoleError]) st, Ok tt)).
Proof.
  intros Hall. split.
  - unfold emit_publishDiagnostics. by rewrite publishDiagnostics_quiet_listeners.
  - intros Hh. unfold emit_publishDiagnostics.
    assert (H : publishDiagnostics (before ++ h :: after) p st =
              (set_effects (effects st ++ ((fun h' => Called (h_id h') p) <$> before)
                              ++ [Called (h_id h) p]) st, Throw (raised h))).
    { clear -Hall Hh. unfold publishDiagnostics. revert st.
      induction Hall as [ | h0 ls Hh0 _ IH]; intros st; simpl.
      - unfold bind, invoke. rewrite Hh. reflexivity.
      - unfold bind at 1. unfold invoke at 1. rewrite Hh0. rewrite IH. simpl.
        unfold set_effects at 1. simpl. by rewrite <- !app_assoc. }
    rewrite H. simpl. unfold set_effects at 1. simpl. by rewrite <- !app_assoc.
Qed.

End Diagnostics.

Lemma raising_diagnostics_listener_stops_the_rest_witness :
  let first := {| h_id := 10; h_raises := false |} in
  let second := {| h_id := 11; h_raises := true |} in
  let third := {| h_id := 12; h_raises := false |} in
  let listeners :=
    onPublishDiagnostics third (onPublishDiagnostics second (onPublishDiagnostics first [])) in
  effects (fst (emit_publishDiagnostics (fun _ => TypeError) listeners None createLspClient))
  = [Called 10 None; Called 11 None; ConsoleError].
Proof.
  intros first second third listeners.
  destruct (raising_diagnostics_listener_stops_the_rest (fun _ => TypeError)
              [first] [third] second None createLspClient) as [_ H].
  - repeat constructor.
  - change listeners with ([first] ++ second :: [third])%list.
    rewrite (H eq_refl). reflexivity.
Defined.

(** ** The WebSocket transport

    Shallow embedding of class [WebSocketTransport] of
    [src/unnamed/part_001].  The browser's sockets and interval timers
    are kept in tables, by handle.  Every socket the transport makes
    gets the same four listeners, whose bodies read and write the
    transport ([this]), not the socket they were put on.

    Of the browser the model takes what the WebSocket standard says:
    a new socket is CONNECTING; [close()] takes a CONNECTING or OPEN
    socket to CLOSING and does nothing otherwise; the [open] event
    fires on a CONNECTING socket, which is OPEN from then on; the
    [message] event fires on an OPEN socket only; the [close] event
    fires once, on a socket that is CLOSED from then on.  The URL is
    one the [WebSocket] constructor accepts.  The callbacks ([onStatus]
    and the subscribed handlers) are opaque: a call is recorded, and a
    handler may raise, which ends the listener that called it. *)

Module WebSocketTransport.

(** The texts handed to [onStatus], in the order of the source. *)
Inductive status : Type := Connecting | Connected | Disconnected.

(** The calls the transport makes into its owner. *)
Inductive call : Type :=
| OnStatus (s : status)
| OpenHandler (h : nat)
| MessageHandler (h : nat) (data : payload)
| CloseHandler (h : nat)
| ErrorHandler (h : nat).

(** How a listener ended. *)
Inductive ended : Type :=
| Returned
| Raised (h : nat).   (* handler [h] raised *)

(** A [WebSocket] of the browser: its ready state and what was handed
    to its [send]. *)
Record socket : Type := { readyState : ready_state; outbox : list wire_msg }.

Record transport : Type := mk_transport
  { keepaliveSec : Z;
    _messageHandlers : list handler;
    _openHandlers : list handler;
    _closeHandlers : list handler;
    _errorHandlers : list handler;
    _ws : option nat;
    _connected : bool;
    _retry : Z;
    _kaTimer : option nat;
    (* browser *)
    sockets : gmap nat socket;
    next_socket : nat;
    intervals : gmap nat Z;       (* the running intervals, with their delay *)
    next_interval : nat;
    calls : list call }.

Definition set_messageHandlers (v : list handler) (tp : transport) : transport :=
  mk_transport (keepaliveSec tp) v (_openHandlers tp) (_closeHandlers tp) (_errorHandlers tp)
    (_ws tp) (_connected tp) (_retry tp) (_kaTimer tp) (sockets tp) (next_socket tp)
    (intervals tp) (next_interval tp) (calls tp).

Definition set_openHandlers (v : list handler) (tp : transport) : transport :=
  mk_transport (keepaliveSec tp) (_messageHandlers tp) v (_closeHandlers tp) (_errorHandlers tp)
    (_ws tp) (_connected tp) (_retry tp) (_kaTimer tp) (sockets tp) (next_socket tp)
    (intervals tp) (next_interval tp) (calls tp).

Definition set_closeHandlers (v : list handler) (tp : transport) : transport :=
  mk_transport (keepaliveSec tp) (_messageHandlers tp) (_openHandlers tp) v (_errorHandlers tp)
    (_ws tp) (_connected tp) (_retry tp) (_kaTimer tp) (sockets tp) (next_socket tp)
    (intervals tp) (next_interval tp) (calls tp).

Definition set_errorHandlers (v : list handler) (tp : transport) : transport :=
  mk_transport (keepaliveSec tp) (_messageHandlers tp) (_openHandlers tp) (_closeHandlers tp) v
    (_ws tp) (_connected tp) (_retry tp) (_kaTimer tp) (sockets tp) (next_socket tp)
    (intervals tp) (next_interval tp) (calls tp).

Definition set_ws (v : option nat) (tp : transport) : transport :=
  mk_transport (keepaliveSec tp) (_messageHandlers tp) (_openHandlers tp) (_closeHandlers tp)
    (_errorHandlers tp) v (_connected tp) (_retry tp) (_kaTimer tp) (sockets tp)
    (next_socket tp) (intervals tp) (next_interval tp) (calls tp).

Definition set_connected (v : bool) (tp : transport) : transport :=
  mk_transport (keepaliveSec tp) (_messageHandlers tp) (_openHandlers tp) (_closeHandlers tp)
    (_errorHandlers tp) (_ws tp) v (_retry tp) (_kaTimer tp) (sockets tp)
    (next_socket tp) (intervals tp) (next_interval tp) (calls tp).

Definition set_retry (v : Z) (tp : transport) : transport :=
  mk_transport (keepaliveSec tp) (_messageHandlers tp) (_openHandlers tp) (_closeHandlers tp)
    (_errorHandlers tp) (_ws tp) (_connected tp) v (_kaTimer tp) (sockets tp)
    (next_socket tp) (intervals tp) (next_interval tp) (calls tp).

Definition set_kaTimer (v : option nat) (tp : transport) : transport :=
  mk_transport (keepaliveSec tp) (_messageHandlers tp) (_openHandlers tp) (_closeHandlers tp)
    (_errorHandlers tp) (_ws tp) (_connected tp) (_retry tp) v (sockets tp)
    (next_socket tp) (intervals tp) (next_interval tp) (calls tp).

Definition set_sockets (v : gmap nat socket) (tp : transport) : transport :=
  mk_transport (keepaliveSec tp) (_messageHandlers tp) (_openHandlers tp) (_closeHandlers tp)
    (_errorHandlers tp) (_ws tp) (_connected tp) (_retry tp) (_kaTimer tp) v
    (next_socket tp) (intervals tp) (next_interval tp) (calls tp).

Definition set_next_socket (v : nat) (tp : transport) : transport :=
  mk_transport (keepaliveSec tp) (_messageHandlers tp) (_openHandlers tp) (_closeHandlers tp)
    (_errorHandlers tp) (_ws tp) (_connected tp) (_retry tp) (_kaTimer tp) (sockets tp)
    v (intervals tp) (next_interval tp) (calls tp).

Definition set_intervals (v : gmap nat Z) (tp : transport) : transport :=
  mk_transport (keepaliveSec tp) (_messageHandlers tp) (_openHandlers tp) (_closeHandlers tp)
    (_errorHandlers tp) (_ws tp) (_connected tp) (_retry tp) (_kaTimer tp) (sockets tp)
    (next_socket tp) v (next_interval tp) (calls tp).

Definition set_next_interval (v : nat) (tp : transport) : transport :=
  mk_transport (keepaliveSec tp) (_messageHandlers tp) (_openHandlers tp) (_closeHandlers tp)
    (_errorHandlers tp) (_ws tp) (_connected tp) (_retry tp) (_kaTimer tp) (sockets tp)
    (next_socket tp) (intervals tp) v (calls tp).

Definition set_calls (v : list call) (tp : transport) : transport :=
  mk_transport (keepaliveSec tp) (_messageHandlers tp) (_openHandlers tp) (_closeHandlers tp)
    (_errorHandlers tp) (_ws tp) (_connected tp) (_retry tp) (_kaTimer tp) (sockets tp)
    (next_socket tp) (intervals tp) (next_interval tp) v.

(** *** The browser *)

(** [new WebSocket(url)] *)
Definition new_WebSocket (tp : transport) : transport * nat :=
  (set_next_socket (S (next_socket tp))
     (set_sockets (<[next_socket tp := {| readyState := CONNECTING; outbox := [] |}]>
                     (sockets tp)) tp),
   next_socket tp).

(** [ws.readyState] *)
Definition ready (s : nat) (tp : transport) : option ready_state :=
  readyState <$> sockets tp !! s.

Definition set_ready (s : nat) (r : ready_state) (tp : transport) : transport :=
  set_sockets (alter (fun k => {| readyState := r; outbox := outbox k |}) s (sockets tp)) tp.

(** [ws.close()] *)
Definition ws_close (s : nat) (tp : transport) : transport :=
  match ready s tp with
  | Some CONNECTING | Some OPEN => set_ready s CLOSING tp
  | _ => tp
  end.

(** [ws.send(data)] on an OPEN socket *)
Definition ws_send (s : nat) (data : wire_msg) (tp : transport) : transport :=
  set_sockets
    (alter (fun k => {| readyState := readyState k; outbox := outbox k ++ [data] |}) s
       (sockets tp)) tp.

Definition setInterval (delay : Z) (tp : transport) : transport * nat :=
  (set_next_interval (S (next_interval tp))
     (set_intervals (<[next_interval tp := delay]> (intervals tp)) tp),
   next_interval tp).

(** [clearInterval(id)]; [null] and ids that are not running are ignored. *)
Definition clearInterval (id : option nat) (tp : transport) : transport :=
  match id with
  | Some i => set_intervals (delete i (intervals tp)) tp
  | None => tp
  end.

(** *** The class *)

(** [new WebSocketTransport(url, opts)]: [opts.keepaliveSec ?? 30]. *)
Definition new_WebSocketTransport (opts_keepaliveSec : option Z) : transport :=
  {| keepaliveSec := default 30 opts_keepaliveSec;
     _messageHandlers := [];
     _openHandlers := [];
     _closeHandlers := [];
     _errorHandlers := [];
     _ws := None;
     _connected := false;
     _retry := 0;
     _kaTimer := None;
     sockets := ∅;
     next_socket := 0;
     intervals := ∅;
     next_interval := 0;
     calls := [] |}.

Definition onStatus (s : status) (tp : transport) : transport :=
  set_calls (calls tp ++ [OnStatus s]) tp.

(** [handlers.forEach(h => h(...))]: a handler that raises ends the loop. *)
Fixpoint forEach (c : nat -> call) (hs : list handler) (tp : transport) : transport * ended :=
  match hs with
  | [] => (tp, Returned)
  | h :: hs' =>
      let tp1 := set_calls (calls tp ++ [c (h_id h)]) tp in
      if h_raises h then (tp1, Raised (h_id h)) else forEach c hs' tp1
  end.

(** The keepalive payload, [{jsonrpc: '2.0', method: '$/keepalive'}]. *)
Definition keepalive_msg : wire_msg := Notification "$/keepalive" None.

(** The interval callback: a send on the current socket when it is
    OPEN, inside [try {} catch {}]. *)
Definition on_interval (tp : transport) : transport :=
  match _ws tp with
  | Some s =>
      match ready s tp with
      | Some OPEN => ws_send s keepalive_msg tp
      | _ => tp
      end
  | None => tp
  end.

(** The [open] listener. *)
Definition on_open (tp : transport) : transport * ended :=
  let tp1 := onStatus Connected (set_retry 0 (set_connected true tp)) in
  match forEach OpenHandler (_openHandlers tp1) tp1 with
  | (tp2, Raised h) => (tp2, Raised h)
  | (tp2, Returned) =>
      if Z.ltb 0 (keepaliveSec tp2) then
        let '(tp3, i) := setInterval (keepaliveSec tp2 * 1000) (clearInterval (_kaTimer tp2) tp2) in
        (set_kaTimer (Some i) tp3, Returned)
      else (tp2, Returned)
  end.

(** The [message] listener. *)
Definition on_message (data : payload) (tp : transport) : transport * ended :=
  forEach (fun h => MessageHandler h data) (_messageHandlers tp) tp.

(** The [close] listener. *)
Definition on_close (tp : transport) : transport * ended :=
  let tp1 := clearInterval (_kaTimer tp) (onStatus Disconnected (set_connected false tp)) in
  forEach CloseHandler (_closeHandlers tp1) tp1.

(** The [error] listener. *)
Definition on_error (tp : transport) : transport * ended :=
  forEach ErrorHandler (_errorHandlers tp) tp.

(** The ready state of the socket in [this._ws], if there is one. *)
Definition current (tp : transport) : option ready_state :=
  match _ws tp with
  | Some s => ready s tp
  | None => None
  end.

Definition connect (tp : transport) : transport :=
  match current tp with
  | Some OPEN | Some CONNECTING => tp
  | _ =>
      let '(tp1, s) := new_WebSocket (onStatus Connecting tp) in
      set_ws (Some s) tp1
  end.

Definition disconnect (tp : transport) : transport :=
  let tp1 := clearInterval (_kaTimer tp) tp in
  let tp2 := match _ws tp1 with
             | Some s => ws_close s tp1
             | None => tp1
             end in
  set_connected false (set_ws None tp2).

Definition send (data : wire_msg) (tp : transport) : transport * res unit :=
  match _ws tp with
  | Some s =>
      match ready s tp with
      | Some OPEN => (ws_send s data tp, Ok tt)
      | _ => (tp, Throw (JsError "WebSocket not open" None None))
      end
  | None => (tp, Throw (JsError "WebSocket not open" None None))
  end.

(** [set.add(cb)] and [set.delete(cb)] on a set kept in insertion order. *)
Definition add (cb : handler) (hs : list handler) : list handler :=
  if decide (cb ∈ hs) then hs else (hs ++ [cb])%list.

Definition remove (cb : handler) (hs : list handler) : list handler :=
  filter (fun h => h <> cb) hs.

Definition onMessage (cb : handler) (tp : transport) : transport :=
  set_messageHandlers (add cb (_messageHandlers tp)) tp.
Definition onOpen (cb : handler) (tp : transport) : transport :=
  set_openHandlers (add cb (_openHandlers tp)) tp.
Definition onClose (cb : handler) (tp : transport) : transport :=
  set_closeHandlers (add cb (_closeHandlers tp)) tp.
Definition onError (cb : handler) (tp : transport) : transport :=
  set_errorHandlers (add cb (_errorHandlers tp)) tp.

(** The functions [onMessage], [onOpen], [onClose] and [onError] return. *)
Definition offMessage (cb : handler) (tp : transport) : transport :=
  set_messageHandlers (remove cb (_messageHandlers tp)) tp.
Definition offOpen (cb : handler) (tp : transport) : transport :=
  set_openHandlers (remove cb (_openHandlers tp)) tp.
Definition offClose (cb : handler) (tp : transport) : transport :=
  set_closeHandlers (remove cb (_closeHandlers tp)) tp.
Definition offError (cb : handler) (tp : transport) : transport :=
  set_errorHandlers (remove cb (_errorHandlers tp)) tp.

(** *** Events *)

Inductive event : Type :=
| Connect
| Disconnect
| Send (data : wire_msg)
| OnMessage (cb : handler) | OffMessage (cb : handler)
| OnOpen (cb : handler) | OffOpen (cb : handler)
| OnClose (cb : handler) | OffClose (cb : handler)
| OnError (cb : handler) | OffError (cb : handler)
| Opens (s : nat)                    (* the connection of socket [s] is established *)
| Arrives (s : nat) (data : payload) (* a frame arrives on socket [s] *)
| Closes (s : nat)                   (* the connection of socket [s] is closed *)
| Fails (s : nat)                    (* the [error] event of socket [s] *)
| Tick (i : nat).                    (* the delay of interval [i] has elapsed *)

Definition step (ev : event) (tp : transport) : transport :=
  match ev with
  | Connect => connect tp
  | Disconnect => disconnect tp
  | Send data => fst (send data tp)
  | OnMessage cb => onMessage cb tp | OffMessage cb => offMessage cb tp
  | OnOpen cb => onOpen cb tp | OffOpen cb => offOpen cb tp
  | OnClose cb => onClose cb tp | OffClose cb => offClose cb tp
  | OnError cb => onError cb tp | OffError cb => offError cb tp
  | Opens s =>
      match ready s tp with
      | Some CONNECTING => fst (on_open (set_ready s OPEN tp))
      | _ => tp
      end
  | Arrives s data =>
      match ready s tp with
      | Some OPEN => fst (on_message data tp)
      | _ => tp
      end
  | Closes s =>
      match ready s tp with
      | Some CLOSED | None => tp
      | Some _ => fst (on_close (set_ready s CLOSED tp))
      end
  | Fails s =>
      match ready s tp with
      | Some CLOSED | None => tp
      | Some _ => fst (on_error tp)
      end
  | Tick i =>
      match intervals tp !! i with
      | Some _ => on_interval tp
      | None => tp
      end
  end.

Fixpoint run (tr : list event) (tp : transport) : transport :=
  match tr with
  | [] => tp
  | ev :: tr' => run tr' (step ev tp)
  end.

(** *** Properties of the transport *)

(** While the socket is OPEN or CONNECTING, [connect()] does nothing;
    otherwise it makes one socket, which is CONNECTING.  So a second
    call right after the first changes nothing: no second socket, no
    second status report. *)
Theorem connect_twice_is_connect_once (tp : transport) :
  connect (connect tp) = connect tp
  /\ (current tp = Some OPEN \/ current tp = Some CONNECTING -> connect tp = tp)
  /\ (current tp <> Some OPEN -> current tp <> Some CONNECTING ->
        _ws (connect tp) = Some (next_socket tp)
        /\ current (connect tp) = Some CONNECTING
        /\ next_socket (connect tp) = S (next_socket tp)).
Proof.
  assert (Hnew : current tp <> Some OPEN -> current tp <> Some CONNECTING ->
            connect tp = set_ws (Some (next_socket tp)) (fst (new_WebSocket (onStatus Connecting tp)))).
  { intros H1 H2. unfold connect. destruct (current tp) as [[] | ]; first [reflexivity | congruence]. }
  assert (Hcur : current (set_ws (Some (next_socket tp))
                            (fst (new_WebSocket (onStatus Connecting tp)))) = Some CONNECTING).
  { unfold current, ready. simpl. by rewrite lookup_insert_eq. }
  assert (Hsame : current tp = Some OPEN \/ current tp = Some CONNECTING -> connect tp = tp).
  { intros [H | H]; unfold connect; by rewrite H. }
  split; [ | split; [exact Hsame | ]].
  - destruct (decide (current tp = Some OPEN)) as [H1 | H1];
      [by rewrite !Hsame by auto | ].
    destruct (decide (current tp = Some CONNECTING)) as [H2 | H2];
      [by rewrite !Hsame by auto | ].
    rewrite (Hnew H1 H2). unfold connect at 1. by rewrite Hcur.
  - intros H1 H2. rewrite (Hnew H1 H2). split; [reflexivity | ]. split; [exact Hcur | reflexivity].
Qed.

Lemma connect_twice_is_connect_once_witness :
  let tp := connect (new_WebSocketTransport None) in
  _ws tp = Some 0%nat /\ current tp = Some CONNECTING /\ connect tp = tp.
Proof.
  intros tp.
  destruct (connect_twice_is_connect_once (new_WebSocketTransport None)) as (H1 & _ & H2).
  destruct (H2 ltac:(discriminate) ltac:(discriminate)) as (H3 & H4 & _).
  split; [exact H3 | split; [exact H4 | exact H1]].
Defined.

(** What holds of a transport after any trace of events. *)
Record inv (tp : transport) : Prop :=
  { inv_interval : forall i d, intervals tp !! i = Some d ->
      _kaTimer tp = Some i /\ d = keepaliveSec tp * 1000 /\ 0 < keepaliveSec tp;
    inv_kaTimer : forall i, _kaTimer tp = Some i -> (i < next_interval tp)%nat;
    inv_sockets : forall s k, sockets tp !! s = Some k -> (s < next_socket tp)%nat;
    inv_ws : forall s, _ws tp = Some s -> is_Some (sockets tp !! s);
    inv_old : forall s k, sockets tp !! s = Some k -> _ws tp <> Some s ->
      readyState k = CLOSING \/ readyState k = CLOSED }.

Lemma inv_new kas : inv (new_WebSocketTransport kas).
Proof. constructor; simpl; intros; simplify_map_eq. Qed.

(** A change that leaves the components of the invariant alone. *)
Lemma inv_frame tp tp' :
  inv tp ->
  keepaliveSec tp' = keepaliveSec tp -> _ws tp' = _ws tp -> _kaTimer tp' = _kaTimer tp ->
  (forall s, readyState <$> sockets tp' !! s = readyState <$> sockets tp !! s) ->
  next_socket tp' = next_socket tp ->
  intervals tp' ⊆ intervals tp -> next_interval tp' = next_interval tp ->
  inv tp'.
Proof.
  intros [] H1 H2 H3 H4 H5 H6 H7.
  assert (Hs : forall s k', sockets tp' !! s = Some k' ->
            exists k, sockets tp !! s = Some k /\ readyState k = readyState k').
  { intros s k' Hk. specialize (H4 s). rewrite Hk in H4. simpl in H4.
    destruct (sockets tp !! s) as [k | ]; simpl in H4; [ | discriminate].
    exists k. split; [reflexivity | congruence]. }
  constructor; rewrite ?H1, ?H2, ?H3, ?H5, ?H7; auto.
  - intros i d Hi. apply inv_interval0. eapply lookup_weaken; eassumption.
  - intros s k' Hk. destruct (Hs s k' Hk) as (k & Hk0 & _). eauto.
  - intros s Hws. destruct (inv_ws0 s Hws) as [k Hk]. specialize (H4 s).
    rewrite Hk in H4. destruct (sockets tp' !! s); [eauto | discriminate].
  - intros s k' Hk Hne. destruct (Hs s k' Hk) as (k & Hk0 & <-). eauto.
Qed.

Lemma forEach_frame c hs tp :
  let tp' := fst (forEach c hs tp) in
  keepaliveSec tp' = keepaliveSec tp /\ _ws tp' = _ws tp /\ _kaTimer tp' = _kaTimer tp
  /\ sockets tp' = sockets tp /\ next_socket tp' = next_socket tp
  /\ intervals tp' = intervals tp /\ next_interval tp' = next_interval tp
  /\ _connected tp' = _connected tp
  /\ _openHandlers tp' = _openHandlers tp /\ _messageHandlers tp' = _messageHandlers tp
  /\ _closeHandlers tp' = _closeHandlers tp /\ _errorHandlers tp' = _errorHandlers tp.
Proof.
  revert tp. induction hs as [ | h hs IH]; intros tp; simpl; [auto 15 | ].
  destruct (h_raises h); simpl; [auto 15 | ].
  specialize (IH (set_calls (calls tp ++ [c (h_id h)]) tp)). simpl in IH. exact IH.
Qed.

Lemma forEach_inv c hs tp : inv tp -> inv (fst (forEach c hs tp)).
Proof.
  intros H. destruct (forEach_frame c hs tp) as (H1 & H2 & H3 & H4 & H5 & H6 & H7 & _).
  eapply inv_frame; [exact H | try assumption ..]; [intros s; by rewrite H4 | by rewrite H6].
Qed.

Lemma clearInterval_inv id tp : inv tp -> inv (clearInterval id tp).
Proof.
  intros H. destruct id as [i | ]; [ | exact H].
  eapply inv_frame; [exact H | reflexivity .. | | reflexivity]. apply delete_subseteq.
Qed.

Lemma ws_send_inv s data tp : inv tp -> inv (ws_send s data tp).
Proof.
  intros H. eapply inv_frame; [exact H | reflexivity .. | | reflexivity | reflexivity | reflexivity].
  intros s'. unfold ws_send. simpl.
  destruct (decide (s' = s)) as [-> | Hne].
  - rewrite lookup_alter_eq. by destruct (sockets tp !! s).
  - by rewrite lookup_alter_ne by congruence.
Qed.

(** Clearing the recorded interval leaves none running. *)
Lemma clear_kaTimer tp : inv tp -> intervals (clearInterval (_kaTimer tp) tp) = ∅.
Proof.
  intros H. apply map_eq. intros i. rewrite lookup_empty.
  destruct (_kaTimer tp) as [j | ] eqn:Hj; simpl.
  - destruct (decide (i = j)) as [-> | Hne]; [apply lookup_delete_eq | ].
    rewrite lookup_delete_ne by congruence.
    destruct (intervals tp !! i) as [d | ] eqn:Hi; [ | reflexivity].
    destruct (inv_interval _ H i d Hi) as [Hk _]. congruence.
  - destruct (intervals tp !! i) as [d | ] eqn:Hi; [ | reflexivity].
    destruct (inv_interval _ H i d Hi) as [Hk _]. congruence.
Qed.

Lemma set_ready_lookup s r tp s' :
  readyState <$> sockets (set_ready s r tp) !! s' =
    if decide (s' = s) then (fun _ => r) <$> sockets tp !! s
    else readyState <$> sockets tp !! s'.
Proof.
  unfold set_ready. simpl. destruct (decide (s' = s)) as [-> | Hne].
  - rewrite lookup_alter_eq. by destruct (sockets tp !! s).
  - by rewrite lookup_alter_ne by congruence.
Qed.

(** Changing the ready state of a socket keeps the invariant when the
    socket is current or its new state is CLOSING or CLOSED. *)
Lemma set_ready_inv s r tp :
  inv tp -> (_ws tp = Some s \/ r = CLOSING \/ r = CLOSED) -> inv (set_ready s r tp).
Proof.
  intros [] Hr.
  assert (Hs : forall s' k', sockets (set_ready s r tp) !! s' = Some k' ->
            exists k, sockets tp !! s' = Some k /\
                      readyState k' = if decide (s' = s) then r else readyState k).
  { intros s' k' Hk. unfold set_ready in Hk. simpl in Hk.
    destruct (decide (s' = s)) as [-> | Hne].
    - rewrite lookup_alter_eq in Hk. destruct (sockets tp !! s) as [k | ]; [ | discriminate].
      injection Hk as <-. eauto.
    - rewrite lookup_alter_ne in Hk by congruence. eauto. }
  constructor; simpl; auto.
  - intros s' k' Hk. destruct (Hs s' k' Hk) as (k & Hk0 & _). eauto.
  - intros s' Hws. destruct (inv_ws0 s' Hws) as [k Hk].
    destruct (decide (s' = s)) as [-> | Hne].
    + rewrite lookup_alter_eq, Hk. eauto.
    + rewrite lookup_alter_ne by congruence. eauto.
  - intros s' k' Hk Hne. destruct (Hs s' k' Hk) as (k & Hk0 & ->).
    destruct (decide (s' = s)) as [-> | Hne']; [ | eauto].
    destruct Hr as [Hr | Hr]; [congruence | exact Hr].
Qed.

Lemma on_open_inv tp : inv tp -> inv (fst (on_open tp)).
Proof.
  intros H. unfold on_open.
  set (tp1 := onStatus Connected (set_retry 0 (set_connected true tp))).
  assert (H1 : inv tp1).
  { eapply inv_frame; [exact H | reflexivity ..]. }
  pose proof (forEach_inv OpenHandler (_openHandlers tp1) tp1 H1) as H2.
  destruct (forEach OpenHandler (_openHandlers tp1) tp1) as [tp2 [ | h]]; cbn [fst] in *;
    [ | exact H2].
  destruct (Z.ltb_spec 0 (keepaliveSec tp2)) as [Hpos | _]; [ | exact H2].
  pose proof (clear_kaTimer tp2 H2) as Hclear. destruct H2.
  assert (Hn : next_interval (clearInterval (_kaTimer tp2) tp2) = next_interval tp2)
    by (destruct (_kaTimer tp2); reflexivity).
  assert (Hk : keepaliveSec (clearInterval (_kaTimer tp2) tp2) = keepaliveSec tp2)
    by (destruct (_kaTimer tp2); reflexivity).
  assert (Hso : sockets (clearInterval (_kaTimer tp2) tp2) = sockets tp2)
    by (destruct (_kaTimer tp2); reflexivity).
  assert (Hns : next_socket (clearInterval (_kaTimer tp2) tp2) = next_socket tp2)
    by (destruct (_kaTimer tp2); reflexivity).
  assert (Hws : _ws (clearInterval (_kaTimer tp2) tp2) = _ws tp2)
    by (destruct (_kaTimer tp2); reflexivity).
  unfold setInterval. cbn [fst]. constructor; simpl; rewrite ?Hclear, ?Hn, ?Hk, ?Hso, ?Hns, ?Hws; auto.
  - intros i d Hi. apply lookup_insert_Some in Hi as [[<- <-] | [_ Hi]];
      [auto | by rewrite lookup_empty in Hi].
  - intros i [= <-]. lia.
Qed.

Lemma on_close_inv tp : inv tp -> inv (fst (on_close tp)).
Proof.
  intros H. unfold on_close. apply forEach_inv, clearInterval_inv.
  eapply inv_frame; [exact H | reflexivity ..].
Qed.

Lemma connect_inv tp : inv tp -> inv (connect tp).
Proof.
  intros H. unfold connect.
  destruct (current tp) as [r | ] eqn:Hc; [destruct r; try exact H | ].
  all: destruct H; constructor; simpl; auto.
  all: try (intros s k [[<- <-] | [Hne Hk]]%lookup_insert_Some; [lia | apply inv_sockets0 in Hk; lia]).
  all: try (intros s [= <-]; rewrite lookup_insert_eq; eauto).
  all: intros s k [[<- <-] | [Hne Hk]]%lookup_insert_Some Hws; [congruence | ].
  all: destruct (decide (_ws tp = Some s)) as [Heq | Hneq]; [ | eauto].
  all: unfold current, ready in Hc; rewrite Heq, Hk in Hc; simpl in Hc.
  all: try (injection Hc as Hc; auto).
  all: discriminate.
Qed.

Lemma ws_close_inv s tp : inv tp -> inv (ws_close s tp).
Proof.
  intros H. unfold ws_close.
  destruct (ready s tp) as [[] | ]; try exact H; apply set_ready_inv; auto.
Qed.

Lemma ws_close_ready s tp k :
  sockets (ws_close s tp) !! s = Some k -> readyState k = CLOSING \/ readyState k = CLOSED.
Proof.
  unfold ws_close, ready. intros Hk.
  destruct (sockets tp !! s) as [k0 | ] eqn:Hk0; simpl in Hk.
  - destruct (readyState k0) eqn:Hr; unfold set_ready in Hk; simpl in Hk;
      rewrite ?lookup_alter_eq, Hk0 in Hk; injection Hk as <-; auto.
  - rewrite Hk0 in Hk. discriminate.
Qed.

Lemma disconnect_inv tp : inv tp -> inv (disconnect tp).
Proof.
  intros H. unfold disconnect.
  pose proof (clearInterval_inv (_kaTimer tp) tp H) as H1.
  set (tp1 := clearInterval (_kaTimer tp) tp) in *.
  assert (H2 : inv (match _ws tp1 with Some s => ws_close s tp1 | None => tp1 end) /\
               forall s k, sockets (match _ws tp1 with Some s => ws_close s tp1 | None => tp1 end)
                             !! s = Some k ->
                 _ws tp1 = Some s -> readyState k = CLOSING \/ readyState k = CLOSED).
  { destruct (_ws tp1) as [c | ] eqn:Hws; [ | split; [exact H1 | intros; discriminate]].
    split; [by apply ws_close_inv | ].
    intros s k Hk [= <-]. by apply (ws_close_ready c tp1). }
  destruct H2 as [H2 Hold].
  assert (Hws : _ws (match _ws tp1 with Some s => ws_close s tp1 | None => tp1 end) = _ws tp1).
  { destruct (_ws tp1) as [c | ] eqn:Hc; [ | exact Hc].
    unfold ws_close. destruct (ready c tp1) as [[] | ]; exact Hc. }
  destruct H2. constructor; simpl; auto.
  - intros s [=].
  - intros s k Hk _.
    destruct (decide (_ws tp1 = Some s)) as [Heq | Hne]; [eauto | ].
    apply (inv_old0 s k Hk). by rewrite Hws.
Qed.

Lemma on_interval_inv tp : inv tp -> inv (on_interval tp).
Proof.
  intros H. unfold on_interval.
  destruct (_ws tp) as [s | ]; [ | exact H].
  destruct (ready s tp) as [[] | ]; try exact H. by apply ws_send_inv.
Qed.

Ltac handlers_inv H := eapply inv_frame; [exact H | reflexivity ..].

Lemma step_inv ev tp : inv tp -> inv (step ev tp).
Proof.
  intros H. destruct ev; simpl.
  - by apply connect_inv.
  - by apply disconnect_inv.
  - unfold send. destruct (_ws tp) as [s | ]; [ | exact H].
    destruct (ready s tp) as [[] | ]; try exact H. by apply ws_send_inv.
  - handlers_inv H.
  - handlers_inv H.
  - handlers_inv H.
  - handlers_inv H.
  - handlers_inv H.
  - handlers_inv H.
  - handlers_inv H.
  - handlers_inv H.
  - destruct (ready s tp) as [[] | ] eqn:Hr; try exact H.
    apply on_open_inv, set_ready_inv; [exact H | ]. left.
    destruct (decide (_ws tp = Some s)) as [Heq | Hne]; [exact Heq | ].
    unfold ready in Hr. destruct (sockets tp !! s) as [k | ] eqn:Hk; [ | discriminate].
    simpl in Hr. injection Hr as Hr.
    destruct (inv_old _ H s k Hk Hne); congruence.
  - destruct (ready s tp) as [[] | ]; try exact H. by apply forEach_inv.
  - destruct (ready s tp) as [[] | ] eqn:Hr; try exact H;
      apply on_close_inv, set_ready_inv; auto.
  - unfold on_error. destruct (ready s tp) as [[] | ]; try exact H; by apply forEach_inv.
  - destruct (intervals tp !! i); [by apply on_interval_inv | exact H].
Qed.

Lemma run_inv tr tp : inv tp -> inv (run tr tp).
Proof.
  revert tp. induction tr as [ | ev tr IH]; intros tp H; simpl; [exact H | ].
  by apply IH, step_inv.
Qed.

Lemma step_keepaliveSec ev tp : keepaliveSec (step ev tp) = keepaliveSec tp.
Proof.
  assert (Hf : forall c hs t0, keepaliveSec (fst (forEach c hs t0)) = keepaliveSec t0).
  { intros c hs t0. apply (forEach_frame c hs t0). }
  destruct ev; simpl; try reflexivity.
  - unfold connect. destruct (current tp) as [[] | ]; reflexivity.
  - unfold disconnect. destruct (_kaTimer tp); simpl;
      destruct (_ws tp) as [s | ]; simpl; try reflexivity;
      unfold ws_close; destruct (ready s _) as [[] | ]; reflexivity.
  - unfold send. destruct (_ws tp) as [s | ]; [ | reflexivity].
    destruct (ready s tp) as [[] | ]; reflexivity.
  - destruct (ready s tp) as [[] | ]; try reflexivity.
    unfold on_open.
    set (tp1 := onStatus Connected (set_retry 0 (set_connected true (set_ready s OPEN tp)))).
    pose proof (Hf OpenHandler (_openHandlers tp1) tp1) as H.
    destruct (forEach OpenHandler (_openHandlers tp1) tp1) as [tp2 [ | h]]; cbn [fst] in *;
      [ | exact H].
    destruct (Z.ltb 0 (keepaliveSec tp2)); [ | exact H].
    simpl. destruct (_kaTimer tp2); exact H.
  - destruct (ready s tp) as [[] | ]; try reflexivity. apply Hf.
  - destruct (ready s tp) as [[] | ]; try reflexivity;
      unfold on_close; rewrite Hf; simpl; destruct (_kaTimer tp); reflexivity.
  - destruct (ready s tp) as [[] | ]; try reflexivity; apply Hf.
  - destruct (intervals tp !! i); [ | reflexivity].
    unfold on_interval. destruct (_ws tp) as [s | ]; [ | reflexivity].
    destruct (ready s tp) as [[] | ]; reflexivity.
Qed.

Lemma run_keepaliveSec tr tp : keepaliveSec (run tr tp) = keepaliveSec tp.
Proof.
  revert tp. induction tr as [ | ev tr IH]; intros tp; simpl; [reflexivity | ].
  by rewrite IH, step_keepaliveSec.
Qed.

(** After any trace of events at most one interval timer is running:
    the one [_kaTimer] holds, started by the latest [open] event, with
    the delay [keepaliveSec * 1000] for the [keepaliveSec] the
    transport was made with ([opts.keepaliveSec], or 30), which is
    positive then.  No interval is left running behind. *)
Theorem keepalive_timer_is_single (kas : option Z) (tr : list event) :
  let tp := run tr (new_WebSocketTransport kas) in
  keepaliveSec tp = default 30 kas
  /\ (forall i d, intervals tp !! i = Some d ->
        _kaTimer tp = Some i /\ d = default 30 kas * 1000 /\ 0 < default 30 kas)
  /\ (forall i j, is_Some (intervals tp !! i) -> is_Some (intervals tp !! j) -> i = j).
Proof.
  intros tp.
  assert (Hk : keepaliveSec tp = default 30 kas) by apply run_keepaliveSec.
  assert (Hinv : inv tp) by apply run_inv, inv_new.
  split; [exact Hk | split].
  - intros i d Hi. rewrite <- Hk. by apply (inv_interval _ Hinv).
  - intros i j [d Hi] [d' Hj].
    destruct (inv_interval _ Hinv i d Hi) as [H1 _].
    destruct (inv_interval _ Hinv j d' Hj) as [H2 _]. congruence.
Qed.

(** *** From [connect()] to an open socket *)

Lemma forEach_returns c hs tp :
  Forall (fun h => h_raises h = false) hs -> snd (forEach c hs tp) = Returned.
Proof.
  intros Hall. revert tp. induction Hall as [ | h hs Hh _ IH]; intros tp; simpl;
    [reflexivity | ].
  rewrite Hh. apply IH.
Qed.

(** Take a transport whose socket is not OPEN or CONNECTING.  After
    [connect()] the new socket is CONNECTING and [send] throws.  Once
    its [open] event has fired the socket is OPEN, the transport is
    marked connected, and [send] hands its data to that socket.  If no
    open handler raises, the keepalive is running then, alone, with
    the delay [keepaliveSec * 1000], and each of its ticks hands the
    keepalive payload to that socket; with a [keepaliveSec] that is
    not positive no interval runs. *)
Theorem connect_then_open_makes_send_work (kas : option Z) (tr0 : list event) :
  let tp := run tr0 (new_WebSocketTransport kas) in
  current tp <> Some OPEN -> current tp <> Some CONNECTING ->
  let s := next_socket tp in
  let tp1 := connect tp in
  let tp2 := step (Opens s) tp1 in
  (forall data, send data tp1 = (tp1, Throw (JsError "WebSocket not open" None None)))
  /\ current tp2 = Some OPEN
  /\ _connected tp2 = true
  /\ (forall data,
        send data tp2 = (ws_send s data tp2, Ok tt)
        /\ outbox <$> sockets (ws_send s data tp2) !! s = Some [data])
  /\ (Forall (fun h => h_raises h = false) (_openHandlers tp) ->
      if Z.ltb 0 (default 30 kas)
      then exists i, _kaTimer tp2 = Some i
                     /\ intervals tp2 = {[ i := default 30 kas * 1000 ]}
                     /\ step (Tick i) tp2 = ws_send s keepalive_msg tp2
      else intervals tp2 = ∅).
Proof.
  intros tp H1 H2 s tp1 tp2.
  assert (Hinv : inv tp) by apply run_inv, inv_new.
  assert (Hk : keepaliveSec tp = default 30 kas) by apply run_keepaliveSec.
  assert (Htp1 : tp1 = set_ws (Some s) (fst (new_WebSocket (onStatus Connecting tp)))).
  { unfold tp1, connect. destruct (current tp) as [[] | ]; first [reflexivity | congruence]. }
  assert (Hfresh : sockets tp !! s = None).
  { destruct (sockets tp !! s) as [k | ] eqn:Hs; [ | reflexivity].
    apply (inv_sockets _ Hinv) in Hs. unfold s in Hs. lia. }
  assert (Hr1 : ready s tp1 = Some CONNECTING).
  { rewrite Htp1. unfold ready. simpl. by rewrite lookup_insert_eq. }
  assert (Hinv1 : inv tp1) by apply connect_inv, Hinv.
  set (tpo := set_ready s OPEN tp1).
  assert (Hinvo : inv tpo).
  { apply set_ready_inv; [exact Hinv1 | ]. left. rewrite Htp1. reflexivity. }
  assert (Hso : sockets tpo !! s = Some {| readyState := OPEN; outbox := [] |}).
  { unfold tpo, set_ready. rewrite Htp1. simpl.
    by rewrite lookup_alter_eq, lookup_insert_eq. }
  assert (Htp2 : tp2 = fst (on_open tpo)).
  { unfold tp2. simpl. by rewrite Hr1. }
  set (tpa := onStatus Connected (set_retry 0 (set_connected true tpo))).
  assert (Hinva : inv tpa) by (eapply inv_frame; [exact Hinvo | reflexivity ..]).
  assert (Hoh : _openHandlers tpa = _openHandlers tp)
    by (unfold tpa, tpo; rewrite Htp1; reflexivity).
  assert (Hka : keepaliveSec tpa = default 30 kas)
    by (unfold tpa, tpo; rewrite Htp1; exact Hk).
  pose proof (forEach_frame OpenHandler (_openHandlers tpa) tpa) as Hframe.
  pose proof (forEach_inv OpenHandler (_openHandlers tpa) tpa Hinva) as Hinvb.
  pose proof (forEach_returns OpenHandler (_openHandlers tpa) tpa) as Hret.
  assert (Hon : on_open tpo
                = match forEach OpenHandler (_openHandlers tpa) tpa with
                  | (tpb, Raised h) => (tpb, Raised h)
                  | (tpb, Returned) =>
                      if Z.ltb 0 (keepaliveSec tpb) then
                        let '(tpc, i) := setInterval (keepaliveSec tpb * 1000)
                                           (clearInterval (_kaTimer tpb) tpb) in
                        (set_kaTimer (Some i) tpc, Returned)
                      else (tpb, Returned)
                  end) by reflexivity.
  destruct (forEach OpenHandler (_openHandlers tpa) tpa) as [tpb r].
  cbn [fst snd] in Hframe, Hinvb, Hret.
  destruct Hframe as (Fk & Fws & Fka & Fso & _ & Fint & Fni & Fco & _).
  assert (Hwsa : _ws tpa = Some s) by (unfold tpa, tpo; rewrite Htp1; reflexivity).
  assert (Hcoa : _connected tpa = true) by reflexivity.
  assert (Hsoa : sockets tpa = sockets tpo) by reflexivity.
  assert (Hshape : _ws tp2 = Some s /\ sockets tp2 = sockets tpo /\ _connected tp2 = true).
  { rewrite Htp2, Hon. destruct r as [ | h]; cbn [fst].
    - destruct (Z.ltb 0 (keepaliveSec tpb)); cbn [fst];
        [ | rewrite Fws, Fso, Fco; auto].
      destruct (_kaTimer tpb); simpl; rewrite Fws, Fso, Fco; auto.
    - rewrite Fws, Fso, Fco. auto. }
  destruct Hshape as (Hws2 & Hso2 & Hco2).
  assert (Hr2 : ready s tp2 = Some OPEN) by (unfold ready; by rewrite Hso2, Hso).
  split.
  { intros data. unfold send. rewrite Htp1 at 1 2. simpl _ws. cbv iota.
    rewrite <- Htp1, Hr1. reflexivity. }
  split; [unfold current; by rewrite Hws2 | ]. split; [exact Hco2 | ]. split.
  { intros data. split.
    - unfold send. by rewrite Hws2, Hr2.
    - unfold ws_send. simpl. by rewrite lookup_alter_eq, Hso2, Hso. }
  intros Hquiet. rewrite Hoh in Hret. specialize (Hret Hquiet). subst r.
  revert Hws2 Hr2. rewrite Htp2, Hon, Fk, Hka.
  destruct (Z.ltb 0 (default 30 kas)) eqn:Hpos.
  - pose proof (clear_kaTimer tpb Hinvb) as Hclear.
    set (tpk := clearInterval (_kaTimer tpb) tpb) in *.
    set (d := default 30 kas * 1000).
    set (tpz := set_kaTimer (Some (next_interval tpk))
                  (set_next_interval (S (next_interval tpk))
                     (set_intervals (<[next_interval tpk := d]> (intervals tpk)) tpk))).
    change (fst (let '(tpc, i) := setInterval d tpk in (set_kaTimer (Some i) tpc, Returned)))
      with tpz.
    intros Hws2 Hr2. exists (next_interval tpk).
    assert (Hint : intervals tpz = {[ next_interval tpk := d ]}).
    { change (intervals tpz) with (<[next_interval tpk := d]> (intervals tpk)).
      rewrite Hclear. apply insert_empty. }
    split; [reflexivity | ]. split; [exact Hint | ].
    change (step (Tick (next_interval tpk)) tpz)
      with (match intervals tpz !! next_interval tpk with
            | Some _ => on_interval tpz
            | None => tpz
            end).
    rewrite Hint, lookup_singleton_eq. unfold on_interval. by rewrite Hws2, Hr2.
  - intros _ _. cbn [fst]. rewrite Fint. unfold tpa, tpo. rewrite Htp1. simpl.
    apply map_eq. intros i. rewrite lookup_empty.
    destruct (intervals tp !! i) as [d | ] eqn:Hi; [ | reflexivity].
    destruct (inv_interval _ Hinv i d Hi) as (_ & _ & Hp). rewrite Hk in Hp.
    apply Z.ltb_ge in Hpos. lia.
Qed.

Lemma connect_then_open_makes_send_work_witness :
  let tp2 := run [Connect; Opens 0] (new_WebSocketTransport None) in
  current tp2 = Some OPEN
  /\ (forall data, send data tp2 = (ws_send 0 data tp2, Ok tt))
  /\ exists i, intervals tp2 = {[ i := 30000 ]}.
Proof.
  intros tp2.
  destruct (connect_then_open_makes_send_work None []) as (_ & H1 & _ & H3 & H4);
    [discriminate | discriminate | ].
  split; [exact H1 | ]. split; [intros data; apply H3 | ].
  destruct (H4 (Forall_nil_2 _)) as (i & _ & Hint & _). exists i. exact Hint.
Defined.

(** *** After [disconnect()] *)

(** The calls that hand a frame or the news of a connection to a
    subscriber. *)
Definition is_delivery (c : call) : bool :=
  match c with
  | MessageHandler _ _ | OpenHandler _ => true
  | _ => false
  end.

(** No current socket, no interval running. *)
Definition idle (tp : transport) : Prop :=
  inv tp /\ _ws tp = None /\ intervals tp = ∅.

(** What an idle transport keeps until the next [connect()]. *)
Record still (tp tp' : transport) : Prop :=
  { still_outbox : forall s, outbox <$> sockets tp' !! s = outbox <$> sockets tp !! s;
    still_calls : List.filter is_delivery (calls tp') = List.filter is_delivery (calls tp);
    still_next : next_socket tp' = next_socket tp }.

Lemma still_refl tp : still tp tp.
Proof. constructor; reflexivity. Qed.

Lemma still_trans tp1 tp2 tp3 : still tp1 tp2 -> still tp2 tp3 -> still tp1 tp3.
Proof. intros [] []. constructor; [intros s | | ]; congruence. Qed.

Lemma forEach_calls c hs tp :
  (forall h, is_delivery (c h) = false) ->
  List.filter is_delivery (calls (fst (forEach c hs tp))) = List.filter is_delivery (calls tp).
Proof.
  intros Hc. revert tp. induction hs as [ | h hs IH]; intros tp; simpl; [reflexivity | ].
  assert (H1 : List.filter is_delivery (calls tp ++ [c (h_id h)]) =
               List.filter is_delivery (calls tp)).
  { rewrite List.filter_app. simpl. rewrite Hc. apply app_nil_r. }
  destruct (h_raises h); simpl; [exact H1 | ]. rewrite IH. exact H1.
Qed.

Lemma idle_ready tp s r : idle tp -> ready s tp = Some r -> r = CLOSING \/ r = CLOSED.
Proof.
  intros (Hinv & Hws & _) Hr. unfold ready in Hr.
  destruct (sockets tp !! s) as [k | ] eqn:Hk; [ | discriminate].
  injection Hr as <-. apply (inv_old _ Hinv s k Hk). by rewrite Hws.
Qed.

Lemma disconnect_idle tp : inv tp -> idle (disconnect tp).
Proof.
  intros H. split; [by apply disconnect_inv | ]. split; [reflexivity | ].
  pose proof (clear_kaTimer tp H) as Hclear. unfold disconnect.
  set (tp1 := clearInterval (_kaTimer tp) tp) in *.
  destruct (_ws tp1) as [c | ]; simpl; [ | exact Hclear].
  unfold ws_close. destruct (ready c tp1) as [[] | ]; exact Hclear.
Qed.

Lemma idle_step ev tp :
  ev <> Connect -> idle tp -> idle (step ev tp) /\ still tp (step ev tp).
Proof.
  intros Hev Hidle. pose proof Hidle as (Hinv & Hws & Hint).
  assert (Hsame : forall tp', inv tp' -> _ws tp' = _ws tp -> intervals tp' = intervals tp ->
            sockets tp' = sockets tp -> calls tp' = calls tp ->
            next_socket tp' = next_socket tp -> idle tp' /\ still tp tp').
  { intros tp' H1 H2 H3 H4 H5 H6.
    split; [split; [exact H1 | split; congruence] | ].
    constructor; [intros s | | ]; congruence. }
  destruct ev as [ | | data | cb | cb | cb | cb | cb | cb | cb | cb | s | s data | s | s | i];
    [congruence | | | .. ]; simpl.
  - assert (Hd : disconnect tp =
                   set_connected false (set_ws None (clearInterval (_kaTimer tp) tp))).
    { unfold disconnect. destruct (_kaTimer tp); simpl; by rewrite Hws. }
    split; [by apply disconnect_idle | ].
    rewrite Hd. constructor; [intros s | | ]; destruct (_kaTimer tp); reflexivity.
  - unfold send. rewrite Hws. simpl. by split; [ | apply still_refl].
  - apply Hsame; [handlers_inv Hinv | reflexivity ..].
  - apply Hsame; [handlers_inv Hinv | reflexivity ..].
  - apply Hsame; [handlers_inv Hinv | reflexivity ..].
  - apply Hsame; [handlers_inv Hinv | reflexivity ..].
  - apply Hsame; [handlers_inv Hinv | reflexivity ..].
  - apply Hsame; [handlers_inv Hinv | reflexivity ..].
  - apply Hsame; [handlers_inv Hinv | reflexivity ..].
  - apply Hsame; [handlers_inv Hinv | reflexivity ..].
  - destruct (ready s tp) as [r | ] eqn:Hr; [ | by split; [ | apply still_refl]].
    destruct (idle_ready tp s r Hidle Hr) as [-> | ->]; by split; [ | apply still_refl].
  - destruct (ready s tp) as [r | ] eqn:Hr; [ | by split; [ | apply still_refl]].
    destruct (idle_ready tp s r Hidle Hr) as [-> | ->]; by split; [ | apply still_refl].
  - destruct (ready s tp) as [r | ] eqn:Hr; [ | by split; [ | apply still_refl]].
    destruct (idle_ready tp s r Hidle Hr) as [-> | ->]; [ | by split; [ | apply still_refl]].
    set (tp1 := set_ready s CLOSED tp).
    assert (Hinv1 : inv tp1) by (apply set_ready_inv; auto).
    pose proof (on_close_inv tp1 Hinv1) as Hinv2.
    unfold on_close in *.
    set (tp2 := clearInterval (_kaTimer tp1) (onStatus Disconnected (set_connected false tp1))) in *.
    destruct (forEach_frame CloseHandler (_closeHandlers tp2) tp2)
      as (_ & H2 & _ & H4 & H5 & H6 & _).
    pose proof (forEach_calls CloseHandler (_closeHandlers tp2) tp2 (fun _ => eq_refl)) as Hc.
    assert (Hso : sockets tp2 = sockets tp1) by (unfold tp2; destruct (_kaTimer tp1); reflexivity).
    assert (Hca : calls tp2 = (calls tp ++ [OnStatus Disconnected])%list)
      by (unfold tp2; destruct (_kaTimer tp1); reflexivity).
    assert (Hi2 : intervals tp2 = ∅).
    { unfold tp2. destruct (_kaTimer tp1); simpl; rewrite Hint; [apply delete_empty | reflexivity]. }
    assert (Hw2 : _ws tp2 = None) by (unfold tp2; destruct (_kaTimer tp1); exact Hws).
    assert (Hn2 : next_socket tp2 = next_socket tp)
      by (unfold tp2; destruct (_kaTimer tp1); reflexivity).
    split; [split; [exact Hinv2 | split; congruence] | ].
    constructor.
    + intros s'. rewrite H4, Hso. unfold tp1, set_ready. simpl.
      destruct (decide (s' = s)) as [-> | Hne].
      * rewrite lookup_alter_eq. by destruct (sockets tp !! s).
      * by rewrite lookup_alter_ne by congruence.
    + rewrite Hc, Hca, List.filter_app. simpl. apply app_nil_r.
    + congruence.
  - destruct (ready s tp) as [r | ] eqn:Hr; [ | by split; [ | apply still_refl]].
    destruct (idle_ready tp s r Hidle Hr) as [-> | ->]; [ | by split; [ | apply still_refl]].
    unfold on_error.
    destruct (forEach_frame ErrorHandler (_errorHandlers tp) tp)
      as (_ & H2 & _ & H4 & H5 & H6 & _).
    pose proof (forEach_calls ErrorHandler (_errorHandlers tp) tp (fun _ => eq_refl)) as Hc.
    split; [split; [by apply forEach_inv | split; congruence] | ].
    constructor; [intros s'; by rewrite H4 | exact Hc | exact H5].
  - rewrite Hint, lookup_empty. by split; [ | apply still_refl].
Qed.

Lemma idle_run tr tp :
  Connect ∉ tr -> idle tp -> idle (run tr tp) /\ still tp (run tr tp).
Proof.
  revert tp. induction tr as [ | ev tr IH]; intros tp Hn Hidle; simpl.
  - split; [exact Hidle | apply still_refl].
  - apply not_elem_of_cons in Hn as [Hev Hn].
    destruct (idle_step ev tp ltac:(congruence) Hidle) as [H1 H2].
    destruct (IH (step ev tp) Hn H1) as [H3 H4].
    split; [exact H3 | by apply (still_trans tp (step ev tp))].
Qed.

(** After [disconnect()], and until the next call of [connect()],
    whatever events come (late events of the old sockets, timer ticks,
    calls of [send] or [disconnect], subscriptions): there is no
    current socket and no interval running, [send] throws and leaves
    the transport as it is, nothing is handed to any socket, no frame
    and no [open] is delivered to a subscriber, and no socket is made:
    the transport does not reconnect by itself. *)
Theorem disconnect_lasts_until_connect (kas : option Z) (tr0 tr : list event) :
  Connect ∉ tr ->
  let tp0 := disconnect (run tr0 (new_WebSocketTransport kas)) in
  let tp := run tr tp0 in
  _ws tp = None
  /\ intervals tp = ∅
  /\ (forall data, send data tp = (tp, Throw (JsError "WebSocket not open" None None)))
  /\ (forall s, outbox <$> sockets tp !! s = outbox <$> sockets tp0 !! s)
  /\ List.filter is_delivery (calls tp) = List.filter is_delivery (calls tp0)
  /\ next_socket tp = next_socket tp0.
Proof.
  intros Hn tp0 tp.
  assert (H0 : idle tp0) by apply disconnect_idle, run_inv, inv_new.
  destruct (idle_run tr tp0 Hn H0) as [(_ & Hws & Hint) []].
  fold tp in Hws, Hint, still_outbox0, still_calls0, still_next0.
  split; [exact Hws | ]. split; [exact Hint | ].
  split; [intros data; unfold send; by rewrite Hws | ]. auto.
Qed.

Lemma disconnect_lasts_until_connect_witness :
  let tp0 := disconnect (run [Connect; Opens 0] (new_WebSocketTransport None)) in
  let tp := run [Arrives 0 (Parsed JNull); Tick 0; Closes 0; Send keepalive_msg] tp0 in
  ready 0 tp0 = Some CLOSING
  /\ _ws tp = None
  /\ outbox <$> sockets tp !! 0%nat = Some []
  /\ next_socket tp = 1%nat.
Proof.
  intros tp0 tp.
  destruct (disconnect_lasts_until_connect None [Connect; Opens 0]
              [Arrives 0 (Parsed JNull); Tick 0; Closes 0; Send keepalive_msg])
    as (H1 & _ & _ & H2 & _ & H3).
  - intros Hin. repeat (apply elem_of_cons in Hin as [Hin | Hin]; [discriminate | ]).
    inversion Hin.
  - split; [reflexivity | ]. split; [exact H1 | ]. split; [ | exact H3].
    fold tp0 tp in H2. rewrite H2. reflexivity.
Defined.

(** *** A late [close] event *)

(** The [close] listener does not look at the socket it fires on.
    When the transport has moved on to a new socket that is OPEN with
    its keepalive running, the [close] event of an earlier socket (one
    still CLOSING) stops that keepalive and marks the transport
    disconnected, while the current socket stays OPEN and [send] keeps
    working; no keepalive is written until another [open] event. *)
Theorem late_close_stops_the_keepalive
    (kas : option Z) (tr0 : list event) (c s i : nat) :
  let tp := run tr0 (new_WebSocketTransport kas) in
  _ws tp = Some c -> ready c tp = Some OPEN -> is_Some (intervals tp !! i) ->
  s <> c -> ready s tp = Some CLOSING ->
  let tp' := step (Closes s) tp in
  intervals tp' = ∅
  /\ _connected tp' = false
  /\ current tp' = Some OPEN
  /\ (forall data, snd (send data tp') = Ok tt)
  /\ (forall j, step (Tick j) tp' = tp').
Proof.
  intros tp Hws Hopen Hrun Hne Hold tp'.
  assert (Hinv : inv tp) by apply run_inv, inv_new.
  assert (Hstep : tp' = fst (on_close (set_ready s CLOSED tp))).
  { unfold tp'. simpl. by rewrite Hold. }
  set (tp1 := set_ready s CLOSED tp) in *.
  assert (Hinv1 : inv tp1) by (apply set_ready_inv; auto).
  unfold on_close in Hstep.
  set (tp2 := clearInterval (_kaTimer tp1) (onStatus Disconnected (set_connected false tp1))) in *.
  destruct (forEach_frame CloseHandler (_closeHandlers tp2) tp2)
    as (_ & H2 & _ & H4 & _ & H6 & _ & H8 & _).
  rewrite <- Hstep in H2, H4, H6, H8.
  assert (Hi2 : intervals tp2 = ∅).
  { assert (Hi1 : inv (onStatus Disconnected (set_connected false tp1)))
      by (eapply inv_frame; [exact Hinv1 | reflexivity ..]).
    apply (clear_kaTimer _ Hi1). }
  assert (Hw2 : _ws tp2 = Some c) by (unfold tp2; destruct (_kaTimer tp1); exact Hws).
  assert (Hc2 : _connected tp2 = false) by (unfold tp2; destruct (_kaTimer tp1); reflexivity).
  assert (Hr2 : ready c tp' = Some OPEN).
  { unfold ready. rewrite H4.
    assert (Hso : sockets tp2 = sockets tp1) by (unfold tp2; destruct (_kaTimer tp1); reflexivity).
    rewrite Hso. unfold tp1, set_ready. simpl.
    rewrite lookup_alter_ne by congruence. exact Hopen. }
  split; [congruence | ]. split; [congruence | ].
  split; [unfold current; rewrite H2, Hw2; exact Hr2 | ].
  split.
  - intros data. unfold send. rewrite H2, Hw2, Hr2. reflexivity.
  - intros j. simpl. rewrite H6, Hi2, lookup_empty. reflexivity.
Qed.

Lemma late_close_stops_the_keepalive_witness :
  let tp := run [Connect; Opens 0; Disconnect; Connect; Opens 1] (new_WebSocketTransport None) in
  intervals tp !! 1%nat = Some 30000
  /\ intervals (step (Closes 0) tp) = ∅
  /\ current (step (Closes 0) tp) = Some OPEN.
Proof.
  intros tp.
  destruct (late_close_stops_the_keepalive None
              [Connect; Opens 0; Disconnect; Connect; Opens 1] 1 0 1)
    as (H1 & _ & H2 & _); try reflexivity.
  - vm_compute. eauto.
  - discriminate.
  - split; [vm_compute; reflexivity | ]. split; [exact H1 | exact H2].
Defined.

End WebSocketTransport.

(** The session of the first part keeps, of the transport, the ready
    state of the current socket and what was handed to [send]; the two
    embeddings of [send] raise on the same transports. *)
Lemma transport_send_agrees (tp : WebSocketTransport.transport) (st : state) (data : wire_msg) :
  _ws st = WebSocketTransport.current tp ->
  snd (WebSocketTransport.send data tp) = snd (send data st).
Proof.
  intros H. unfold WebSocketTransport.send, send, WebSocketTransport.current in *.
  rewrite H. destruct (WebSocketTransport._ws tp) as [s | ]; [ | reflexivity].
  destruct (WebSocketTransport.ready s tp) as [[] | ]; reflexivity.
Qed.

(** ** Positions and ranges

    [src/editorlsp/util.js].  The protocol counts lines and characters
    from 0, the editor counts line numbers and columns from 1.  The
    coordinates are integers. *)

Module Util.

(** The protocol's [Position] and [Range]. *)
Record Position : Type := { line : Z; character : Z }.
Record Range : Type := { start : Position; end_ : Position }.

(** The editor's position and range, as read by the two [fromMonaco]
    functions. *)
Record IPosition : Type := { lineNumber : Z; column : Z }.
Record IRange : Type :=
  { startLineNumber : Z; startColumn : Z; endLineNumber : Z; endColumn : Z }.

(** [asRange(monaco, r)], over the constructor [monaco.Range]. *)
Definition asRange {R : Type} (monaco_Range : Z -> Z -> Z -> Z -> R) (r : Range) : R :=
  monaco_Range (line (start r) + 1) (character (start r) + 1)
               (line (end_ r) + 1) (character (end_ r) + 1).

Definition fromMonacoPosition (p : IPosition) : Position :=
  {| line := lineNumber p - 1; character := column p - 1 |}.

Definition fromMonacoRange (r : IRange) : Range :=
  {| start := {| line := startLineNumber r - 1; character := startColumn r - 1 |};
     end_ := {| line := endLineNumber r - 1; character := endColumn r - 1 |} |}.

(** The constructor the editor passes for [monaco.Range]: it keeps the
    four coordinates, except that it exchanges the two ends when the
    start lies after the end. *)
Definition monaco_Range (sl sc el ec : Z) : IRange :=
  if (el <? sl)%Z || ((sl =? el)%Z && (ec <? sc)%Z)
  then {| startLineNumber := el; startColumn := ec; endLineNumber := sl; endColumn := sc |}
  else {| startLineNumber := sl; startColumn := sc; endLineNumber := el; endColumn := ec |}.

(** The start of the range lies after its end. *)
Definition reversed (r : Range) : bool :=
  (line (end_ r) <? line (start r))%Z
  || ((line (start r) =? line (end_ r))%Z && (character (end_ r) <? character (start r))%Z).

End Util.

(** The conversions undo each other on ranges whose start is not after
    their end.  [asRange] calls the range constructor it is given on
    the four coordinates plus one, so on a range that came from the
    editor it calls it on the coordinates that range had.  With the
    constructor of the editor, which exchanges the ends of a range
    whose start lies after its end: a protocol range taken to the
    editor and back is the same range, or, when it was reversed, the
    range with its ends exchanged; and a range the constructor has
    built, taken to the protocol and back, is the same range. *)
Theorem range_conversions_round_trip :
  (forall (R : Type) (mk : Z -> Z -> Z -> Z -> R) (r : Util.IRange),
     Util.asRange mk (Util.fromMonacoRange r) =
       mk (Util.startLineNumber r) (Util.startColumn r)
          (Util.endLineNumber r) (Util.endColumn r))
  /\ (forall r : Util.Range,
        Util.fromMonacoRange (Util.asRange Util.monaco_Range r) =
          if Util.reversed r
          then {| Util.start := Util.end_ r; Util.end_ := Util.start r |}
          else r)
  /\ (forall sl sc el ec : Z,
        let m := Util.monaco_Range sl sc el ec in
        Util.asRange Util.monaco_Range (Util.fromMonacoRange m) = m).
Proof.
  split; [ | split].
  - intros R mk r. unfold Util.asRange, Util.fromMonacoRange. simpl. f_equal; lia.
  - intros [[l c] [l' c']].
    unfold Util.asRange, Util.fromMonacoRange, Util.monaco_Range, Util.reversed. simpl.
    replace (l' + 1 <? l + 1)%Z with (l' <? l)%Z by lia.
    replace (l + 1 =? l' + 1)%Z with (l =? l')%Z by lia.
    replace (c' + 1 <? c + 1)%Z with (c' <? c)%Z by lia.
    destruct ((l' <? l)%Z || ((l =? l')%Z && (c' <? c)%Z)); simpl; repeat f_equal; lia.
  - intros sl sc el ec m. unfold m, Util.asRange, Util.fromMonacoRange, Util.monaco_Range.
    destruct ((el <? sl)%Z || ((sl =? el)%Z && (ec <? sc)%Z)) eqn:Hsw; simpl.
    + replace (el - 1 + 1) with el by lia. replace (ec - 1 + 1) with ec by lia.
      replace (sl - 1 + 1) with sl by lia. replace (sc - 1 + 1) with sc by lia.
      assert (Hno : (sl <? el)%Z || ((el =? sl)%Z && (sc <? ec)%Z) = false).
      { apply orb_true_iff in Hsw. apply orb_false_iff. rewrite andb_false_iff.
        rewrite andb_true_iff in Hsw. lia. }
      by rewrite Hno.
    + replace (el - 1 + 1) with el by lia. replace (ec - 1 + 1) with ec by lia.
      replace (sl - 1 + 1) with sl by lia. replace (sc - 1 + 1) with sc by lia.
      by rewrite Hsw.
Qed.
